(** * A shallow embedding of the QR / Reed-Solomon decoder of
      jalphad/abstract_algebra, and the properties checked against it.

    Go values are modelled as follows.
    - [int], [int16] and [byte] are [Z]; a [byte] is a [Z] in [0, 256) and the
      places where Go truncates ([byte(x)], [b++] on a byte) are written out.
    - a slice is a [list]; where a claim depends on allocation and aliasing
      (ApplyCorrections) arrays live in a store [gmap nat (list E)].
    - a Go [error] value is an [error]; a pair [(T, error)] is [T * option error].
    - a Go [panic] is the [Panic] constructor of [result]. *)

From Stdlib Require Import ZArith NArith Lia Ring String Ascii List Bool DecimalString
  Znumtheory.
From Stdlib.Strings Require Import Byte.
From stdpp Require Import base tactics option list strings gmap.

Open Scope string_scope.
Open Scope list_scope.
Open Scope Z_scope.

(** ** Errors and panics *)

(** [fmt.Errorf]: a fixed message, a message with integer arguments, or a
    message wrapping another error with [%w]. *)
Inductive error : Type :=
| Errorf (msg : string)
| ErrorfInts (msg : string) (args : list Z)
| ErrorfWrap (msg : string) (cause : error)
| ErrorfIntWrap (msg : string) (arg : Z) (cause : error).

(** A computation that may panic. *)
Inductive result (A : Type) : Type :=
| Ok (a : A)
| Panic (msg : string).
Arguments Ok {A} a.
Arguments Panic {A} msg.

#[global] Instance result_ret : MRet result := fun A a => Ok a.
#[global] Instance result_bind : MBind result := fun A B f m =>
  match m with
  | Ok a => f a
  | Panic msg => Panic msg
  end.

Definition is_ok {A} (r : result A) : bool :=
  match r with Ok _ => true | Panic _ => false end.

(** [mapM]: run [f] on every element, left to right, stopping at the first panic. *)
Fixpoint mapM {A B} (f : A -> result B) (l : list A) : result (list B) :=
  match l with
  | [] => Ok []
  | x :: xs => y ← f x; ys ← mapM f xs; Ok (y :: ys)
  end.

(** Go's [string(bytes)]: the bytes themselves, read as characters. *)
Definition string_of_bytes (bs : list Z) : string :=
  string_of_list_ascii (map (fun b => ascii_of_N (Z.to_N b)) bs).

(** ** qrcode/decoder: bitStream and DataDecoder *)

Module DataDecoder.

Record bitStream : Type := mkBitStream {
  bytes : list Z;
  byteOffset : Z;
  bitOffset : Z
}.

Definition newBitStream (data : list Z) : bitStream :=
  {| bytes := data; byteOffset := 0; bitOffset := 0 |}.

(** The body of the [for i := 0; i < n; i++] loop of [readBits], run [k] more
    times; [i] is the loop counter and [acc] the variable [result]. *)
Fixpoint readBits_loop (k : nat) (n i acc : Z) (bs : bitStream)
  : (Z * option error) * bitStream :=
  match k with
  | O => ((acc, None), bs)
  | S k' =>
    if byteOffset bs >=? Z.of_nat (length (bytes bs)) then
      ((0, Some (ErrorfInts "not enough bits available (requested %d, read %d)" [n; i])), bs)
    else
      let currentByte := nth (Z.to_nat (byteOffset bs)) (bytes bs) 0 in
      let bitValue := Z.land (Z.shiftr currentByte (7 - bitOffset bs)) 1 in
      let acc' := Z.lor (Z.shiftl acc 1) bitValue in
      let bs' :=
        if bitOffset bs + 1 =? 8
        then {| bytes := bytes bs; byteOffset := byteOffset bs + 1; bitOffset := 0 |}
        else {| bytes := bytes bs; byteOffset := byteOffset bs; bitOffset := bitOffset bs + 1 |} in
      readBits_loop k' n (i + 1) acc' bs'
  end.

Definition readBits (bs : bitStream) (n : Z) : (Z * option error) * bitStream :=
  if (n <? 0) || (n >? 32) then
    ((0, Some (ErrorfInts "invalid bit count: %d (must be 1-32)" [n])), bs)
  else readBits_loop (Z.to_nat n) n 0 0 bs.

(** The loop of [decodeByteMode] filling [dataBytes]; [acc] holds the bytes
    read so far, [i] the index of the next one. *)
Fixpoint decodeByteMode_loop (k : nat) (i : Z) (acc : list Z) (bs : bitStream)
  : string * option error :=
  match k with
  | O => (string_of_bytes acc, None)
  | S k' =>
    match readBits bs 8 with
    | ((_, Some err), _) => ("", Some (ErrorfIntWrap "failed to read data byte %d: %w" i err))
    | ((b, None), bs') => decodeByteMode_loop k' (i + 1) (acc ++ [b mod 256]) bs'
    end
  end.

Definition decodeByteMode (bs : bitStream) : string * option error :=
  match readBits bs 8 with
  | ((_, Some err), _) => ("", Some (ErrorfWrap "failed to read character count: %w" err))
  | ((count, None), bs') =>
    if count =? 0 then ("", None)
    else decodeByteMode_loop (Z.to_nat count) 0 [] bs'
  end.

Definition Decode (dataBytes : list Z) : string * option error :=
  if Z.of_nat (length dataBytes) =? 0 then ("", Some (Errorf "no data to decode"))
  else
    let bits := newBitStream dataBytes in
    match readBits bits 4 with
    | ((_, Some err), _) => ("", Some (ErrorfWrap "failed to read mode indicator: %w" err))
    | ((modeIndicator, None), bits') =>
      if modeIndicator =? 4 then decodeByteMode bits'
      else if modeIndicator =? 1 then
        ("", Some (Errorf "numeric mode not yet supported (educational focus is on byte mode)"))
      else if modeIndicator =? 2 then
        ("", Some (Errorf "alphanumeric mode not yet supported (educational focus is on byte mode)"))
      else if modeIndicator =? 8 then
        ("", Some (Errorf "kanji mode not yet supported (educational focus is on byte mode)"))
      else if modeIndicator =? 0 then ("", None)
      else ("", Some (ErrorfInts "unknown mode indicator: %04b" [modeIndicator]))
    end.

(** *** The bit stream as a list of bits *)

(** The [w] low bits of [v], most significant first. *)
Fixpoint bitsMSB (w : nat) (v : Z) : list bool :=
  match w with
  | O => []
  | S w' => Z.testbit v (Z.of_nat w') :: bitsMSB w' v
  end.

(** All bits of a byte slice in the order [readBits] delivers them. *)
Definition streamBits (data : list Z) : list bool := flat_map (bitsMSB 8) data.

(** Appending one bit to the number read so far. *)
Definition bit_step (acc : Z) (b : bool) : Z := Z.lor (Z.shiftl acc 1) (Z.b2z b).

(** The number a run of bits denotes, most significant bit first. *)
Definition bitsValue (bits : list bool) : Z := fold_left bit_step bits 0.

(** The stream positioned [p] bits after its start. *)
Definition at_pos (data : list Z) (p : nat) : bitStream :=
  {| bytes := data;
     byteOffset := Z.of_nat p / 8;
     bitOffset := Z.of_nat p mod 8 |}.

(** [bitStream.available]: the number of bits still to be read. *)
Definition available (bs : bitStream) : Z :=
  if byteOffset bs >=? Z.of_nat (length (bytes bs)) then 0
  else
    let remainingBytes := Z.of_nat (length (bytes bs)) - byteOffset bs - 1 in
    let remainingBitsInCurrentByte := 8 - bitOffset bs in
    remainingBytes * 8 + remainingBitsInCurrentByte.

End DataDecoder.

(** ** qrcode/types: QRExtractor.isFunctionModule *)

Module QRExtractor.

(** [dimension] is [bitMatrix.GetHeight()] and [versionNumber] is
    [version.GetVersionNumber()]; for a detected symbol
    [dimension = 17 + 4 * versionNumber]. *)
Definition isFunctionModule (dimension row col versionNumber : Z) : bool :=
  if ((row <=? 8) && (col <=? 8))
     || ((row <=? 8) && (col >=? dimension - 8))
     || ((row >=? dimension - 8) && (col <=? 8))
  then true
  else if ((row =? 6) && (col >=? 8) && (col <? dimension - 8))
          || ((col =? 6) && (row >=? 8) && (row <? dimension - 8))
  then true
  else if (row =? 4 * versionNumber + 9) && (col =? 8)
  then true
  else if versionNumber >=? 7 then
    if ((row >=? dimension - 11) && (row <? dimension - 8) && (col >=? 0) && (col <=? 5))
       || ((row >=? 0) && (row <=? 5) && (col >=? dimension - 11) && (col <? dimension - 8))
    then true
    else false
  else false.

(** The function modules as the specification words them: three 8x8 corner
    finder regions, the timing row and column, the dark module, and the
    version-information regions of versions 7 and up. *)
Definition spec_isFunctionModule (dimension row col versionNumber : Z) : Prop :=
  (row < 8 /\ col < 8) \/
  (row < 8 /\ dimension - 8 <= col) \/
  (dimension - 8 <= row /\ col < 8) \/
  row = 6 \/ col = 6 \/
  (row = 4 * versionNumber + 9 /\ col = 8) \/
  (7 <= versionNumber /\
   ((dimension - 11 <= row < dimension - 8 /\ 0 <= col <= 5) \/
    (0 <= row <= 5 /\ dimension - 11 <= col < dimension - 8))).

(** The regions the code tests: the corner regions reach one module further
    (rows and columns 0..8 at the top left, rows 0..8 at the top right,
    columns 0..8 at the bottom left), which takes in the separators and the
    format-information strips next to the finder patterns. *)
Definition code_isFunctionModule (dimension row col versionNumber : Z) : Prop :=
  (row <= 8 /\ col <= 8) \/
  (row <= 8 /\ dimension - 8 <= col) \/
  (dimension - 8 <= row /\ col <= 8) \/
  row = 6 \/ col = 6 \/
  (row = 4 * versionNumber + 9 /\ col = 8) \/
  (7 <= versionNumber /\
   ((dimension - 11 <= row < dimension - 8 /\ 0 <= col <= 5) \/
    (0 <= row <= 5 /\ dimension - 11 <= col < dimension - 8))).

End QRExtractor.

(** ** exercises/1-gf: the prime field GF(p) *)

(** Decimal rendering of an integer, as [fmt.Sprintf("%d", v)]. *)
Definition sprintf_d (v : Z) : string := NilZero.string_of_int (Z.to_int v).

Module gf.

Record field : Type := mkField { p : Z }.

Definition NewField (p : Z) : result field :=
  if p <=? 1 then Panic "p must be a prime number greater than 1"
  else Ok {| p := p |}.

Record fieldElement : Type := mkElement {
  value : Z;
  Field : field
}.

(** [field.Element]: Go's [%] truncates toward zero, hence [Z.rem]. *)
Definition Element (f : field) (v : Z) : fieldElement :=
  {| value := Z.rem (Z.rem v (p f) + p f) (p f); Field := f |}.

Definition Elements (f : field) : list fieldElement :=
  map (fun i => {| value := i; Field := f |}) (seqZ 0 (p f)).

(** The four arithmetic methods are left to the reader of the exercise: each
    body is a single [panic("unimplemented")]. *)
Definition Add (a e : fieldElement) : result fieldElement := Panic "unimplemented".
Definition Sub (a e : fieldElement) : result fieldElement := Panic "unimplemented".
Definition Mul (a e : fieldElement) : result fieldElement := Panic "unimplemented".
Definition Div (a e : fieldElement) : result fieldElement := Panic "unimplemented".

(** Modelled from the spec: multiplication in GF(p) is (a · b) mod p
    ([fieldElement.Mul] has no body to translate). *)
Definition spec_mul (p a b : Z) : Z := (a * b) mod p.

(** Modelled from the spec: the multiplicative order of [a] in GF(p), the
    least k >= 1 with a^k = 1, found by repeated multiplication as
    [computeOrder] describes it; [cur] is a^k. *)
Fixpoint spec_order_from (fuel : nat) (p a cur k : Z) : option Z :=
  match fuel with
  | O => None
  | S fuel' =>
    if cur =? 1 then Some k
    else spec_order_from fuel' p a (spec_mul p cur a) (k + 1)
  end.

Definition spec_order (p a : Z) : option Z :=
  spec_order_from (Z.to_nat p) p a (a mod p) 1.

End gf.

(** ** exercises/2-arithpoly: polynomials over GF(p) *)

Module arithpoly.

(** Coefficients from lowest to highest degree. *)
Definition Polynomial : Type := list gf.fieldElement.

Definition PolyMul (field : gf.field) (p1 p2 : Polynomial) : result Polynomial :=
  Panic "not implemented".

Definition PolyDiv (field : gf.field) (dividend divisor : Polynomial)
  : result (Polynomial * Polynomial) :=
  Panic "not implemented".

(** [degree]: the loop [for i := len(p) - 1; i >= 0; i--] with [k] indices
    left to inspect. *)
Fixpoint degree_loop (k : nat) (p : Polynomial) : Z :=
  match k with
  | O => -1
  | S k' =>
    if negb (gf.value (nth k' p (gf.Element {| gf.p := 2 |} 0)) =? 0) then Z.of_nat k'
    else degree_loop k' p
  end.

Definition degree (p : Polynomial) : Z := degree_loop (length p) p.

Definition trimPoly (p : Polynomial) : Polynomial :=
  let deg := degree p in
  if deg <? 0 then [] else take (Z.to_nat (deg + 1)) p.

Fixpoint isZeroPoly (p : Polynomial) : bool :=
  match p with
  | [] => true
  | coeff :: rest => if negb (gf.value coeff =? 0) then false else isZeroPoly rest
  end.

End arithpoly.

(** ** exercises/3-gfpn: the extension field GF(p^n) *)

Module gfpn.

(** The [Field] interface together with the methods of [Element] that its
    users call. [Zero], [One] and [Primitive] return stored elements; the
    arithmetic may panic. *)
Class Field (E : Type) : Type := {
  Zero : E;
  One : E;
  Primitive : E;
  Add : E -> E -> result E;
  Sub : E -> E -> result E;
  Mul : E -> E -> result E;
  Div : E -> E -> result E;
  IsZero : E -> bool;
  String : E -> string
}.

(** The value of an operation that does not panic. *)
Definition valueOf {E : Type} (op : E -> E -> result E) (a b : E) : E :=
  match op a b with
  | Ok c => c
  | Panic _ => a
  end.

(** An implementation of the interface whose Add and Mul always return and
    obey the laws of a semiring with identities [Zero] and [One], as the
    arithmetic of any field does. *)
Class Lawful {E : Type} (F : Field E) : Prop := {
  Add_returns : forall a b, Add a b = Ok (valueOf Add a b);
  Mul_returns : forall a b, Mul a b = Ok (valueOf Mul a b);
  add_assoc : forall a b c,
    valueOf Add a (valueOf Add b c) = valueOf Add (valueOf Add a b) c;
  add_zero_l : forall a, valueOf Add Zero a = a;
  add_zero_r : forall a, valueOf Add a Zero = a;
  mul_assoc : forall a b c,
    valueOf Mul a (valueOf Mul b c) = valueOf Mul (valueOf Mul a b) c;
  mul_one_l : forall a, valueOf Mul One a = a;
  mul_one_r : forall a, valueOf Mul a One = a;
  mul_zero_l : forall a, valueOf Mul Zero a = Zero;
  mul_add_distr_r : forall a b c,
    valueOf Mul (valueOf Add a b) c = valueOf Add (valueOf Mul a c) (valueOf Mul b c)
}.

(** y^k by repeated multiplication, starting from One. *)
Definition powerOf {E : Type} {F : Field E} (y : E) (k : nat) : E :=
  Nat.iter k (fun a => valueOf Mul a y) One.

(** The received word as a polynomial with its first symbol at the highest
    degree: the sum over j of r[j] * y^(n-1-j), n the length of r. *)
Fixpoint evalQR {E : Type} {F : Field E} (r : list E) (y : E) : E :=
  match r with
  | [] => Zero
  | rj :: rest => valueOf Add (valueOf Mul rj (powerOf y (length rest))) (evalQR rest y)
  end.

(** [polyKey]: the coefficient values joined by commas. *)
Definition polyKey (coeffs : list gf.fieldElement) : string :=
  String.concat "," (map (fun c => sprintf_d (gf.value c)) coeffs).

Record element : Type := mkElement {
  power : Z;
  coeffs : list gf.fieldElement
}.

Record field : Type := mkField {
  baseField : gf.field;
  degree : Z;
  order : Z;
  irreducible : arithpoly.Polynomial;
  powerToPoly : list (list gf.fieldElement);
  polyToPower : gmap string Z;
  zeroElement : option element;
  oneElement : option element;
  primitiveElement : option element
}.

(** [copy(current, remainder)] into a fresh slice of [f.degree] elements,
    the rest set to zero. *)
Definition padTo (f : field) (remainder : arithpoly.Polynomial) : arithpoly.Polynomial :=
  let n := Z.to_nat (degree f) in
  take n remainder ++ replicate (n - length remainder) (gf.Element (baseField f) 0).

(** The polynomial 1 of [f.degree] coefficients. *)
Definition onePoly (f : field) : arithpoly.Polynomial :=
  gf.Element (baseField f) 1
  :: replicate (Z.to_nat (degree f) - 1) (gf.Element (baseField f) 0).

(** The loop of [computeOrder], [fuel] iterations left, at loop counter
    [order]. *)
Fixpoint computeOrder_loop (fuel : nat) (f : field)
    (element current one : arithpoly.Polynomial) (order : Z)
  : result (Z * option error) :=
  match fuel with
  | O => Ok (0, Some (Errorf "failed to find order (element may be zero)"))
  | S fuel' =>
    if String.eqb (polyKey current) (polyKey one) then Ok (order, None)
    else
      next ← arithpoly.PolyMul (baseField f) current element;
      qr ← arithpoly.PolyDiv (baseField f) next (irreducible f);
      computeOrder_loop fuel' f element (padTo f (snd qr)) one (order + 1)
  end.

Definition computeOrder (f : field) (element : arithpoly.Polynomial)
  : result (Z * option error) :=
  if degree f <=? 0 then Panic "index out of range"
  else computeOrder_loop (Z.to_nat (order f)) f element element (onePoly f) 1.

(** The candidates after x itself: c0 + c1 x for all c0, c1 in [0, p),
    leaving out x and 0. *)
Definition moreCandidates (f : field) (p : Z) : list arithpoly.Polynomial :=
  flat_map (fun coeff0 =>
    flat_map (fun coeff1 =>
      if (coeff0 =? 0) && (coeff1 =? 1) then []
      else if (coeff0 =? 0) && (coeff1 =? 0) then []
      else [gf.Element (baseField f) coeff0 :: gf.Element (baseField f) coeff1
            :: replicate (Z.to_nat (degree f) - 2) (gf.Element (baseField f) 0)])
      (seqZ 0 p))
    (seqZ 0 p).

(** The final [for _, candidate := range candidates] loop. *)
Fixpoint searchCandidates (f : field) (targetOrder : Z)
    (candidates : list arithpoly.Polynomial)
  : result (arithpoly.Polynomial * option error) :=
  match candidates with
  | [] => Ok ([], Some (Errorf "no primitive element found"))
  | candidate :: rest =>
    r ← computeOrder f candidate;
    match r with
    | (_, Some _) => searchCandidates f targetOrder rest
    | (order, None) =>
      if order =? targetOrder then Ok (candidate, None)
      else searchCandidates f targetOrder rest
    end
  end.

Definition findPrimitiveElement (f : field)
  : result (arithpoly.Polynomial * option error) :=
  let targetOrder := order f - 1 in
  if degree f =? 1 then
    let elem0 :=
      if Z.of_nat (length (gf.Elements (baseField f))) =? 2
      then gf.Element (baseField f) 1
      else gf.Element (baseField f) 2 in
    Ok ([elem0], None)
  else if degree f <? 2 then Panic "index out of range"
  else
    let alpha :=
      gf.Element (baseField f) 0 :: gf.Element (baseField f) 1
      :: replicate (Z.to_nat (degree f) - 2) (gf.Element (baseField f) 0) in
    let p := gf.value (List.last (gf.Elements (baseField f)) (gf.Element (baseField f) 0)) + 1 in
    searchCandidates f targetOrder (alpha :: moreCandidates f p).

(** The field value [f] that [NewField] has built when it calls
    [findPrimitiveElement]: parameters validated, tables still empty. *)
Definition newFieldStruct (p n : Z) (irreducibleCoeffs : list Z) : field :=
  {| baseField := {| gf.p := p |};
     degree := n;
     order := p ^ n;
     irreducible := map (gf.Element {| gf.p := p |}) irreducibleCoeffs;
     powerToPoly := [];
     polyToPower := ∅;
     zeroElement := None;
     oneElement := None;
     primitiveElement := None |}.

(** [NewField] up to the search for the primitive element; what follows
    ([buildTables] and the zero and one elements) is reached only when the
    search returns without error. *)
Definition NewField_search (p n : Z) (irreducibleCoeffs : list Z)
  : result (option arithpoly.Polynomial * option error) :=
  if p <=? 1 then Ok (None, Some (Errorf "p must be a prime greater than 1"))
  else if n <? 1 then Ok (None, Some (Errorf "n must be at least 1"))
  else if negb (Z.of_nat (length irreducibleCoeffs) =? n + 1) then
    Ok (None, Some (Errorf "irreducible polynomial must have degree n (need n+1 coefficients)"))
  else if negb (nth (Z.to_nat n) irreducibleCoeffs 0 =? 1) then
    Ok (None, Some (Errorf "irreducible polynomial must be monic (leading coefficient must be 1)"))
  else
    r ← findPrimitiveElement (newFieldStruct p n irreducibleCoeffs);
    match r with
    | (_, Some err) => Ok (None, Some (ErrorfWrap "failed to find primitive element: %w" err))
    | (prim, None) => Ok (Some prim, None)
    end.

(** The element methods, as shipped: each body is [panic("not implemented")]. *)
Definition element_Add (e other : element) : result element := Panic "not implemented".
Definition element_Sub (e other : element) : result element := Panic "not implemented".
Definition element_Mul (e other : element) : result element := Panic "not implemented".
Definition element_Div (e other : element) : result element := Panic "not implemented".

Definition element_IsZero (e : element) : bool := power e =? -1.

Definition element_String (e : element) : string :=
  if element_IsZero e then "0"
  else String.concat "" (map (fun c => sprintf_d (gf.value c)) (rev (coeffs e))).

(** The implementation of the interface that the package ships, for a field
    whose three distinguished elements are [zero], [one] and [primitive]. *)
Definition shipped (zero one primitive : element) : Field element :=
  {| Zero := zero; One := one; Primitive := primitive;
     Add := element_Add; Sub := element_Sub;
     Mul := element_Mul; Div := element_Div;
     IsZero := element_IsZero; String := element_String |}.

End gfpn.

(** ** Loops and slices *)

(** A loop over [l] threading a state, stopping at the first panic. *)
Fixpoint foldM {A S} (f : S -> A -> result S) (l : list A) (s : S) : result S :=
  match l with
  | [] => Ok s
  | x :: xs => s' ← f s x; foldM f xs s'
  end.

(** [s[i]]: indexing outside the slice panics. *)
Definition index {A} (s : list A) (i : Z) : result A :=
  if (i <? 0) || (i >=? Z.of_nat (length s)) then Panic "index out of range"
  else match s !! Z.to_nat i with
       | Some x => Ok x
       | None => Panic "index out of range"
       end.

(** [s[i] = x] *)
Definition setIndex {A} (s : list A) (i : Z) (x : A) : result (list A) :=
  if (i <? 0) || (i >=? Z.of_nat (length s)) then Panic "index out of range"
  else Ok (<[Z.to_nat i := x]> s).

(** [s[:n]] on a slice whose capacity is its length. *)
Definition sliceTo {A} (s : list A) (n : Z) : result (list A) :=
  if (n <? 0) || (n >? Z.of_nat (length s)) then Panic "slice bounds out of range"
  else Ok (take (Z.to_nat n) s).

(** [make([]T, n)] filled with [zero]. *)
Definition make {A} (zero : A) (n : Z) : result (list A) :=
  if n <? 0 then Panic "makeslice: len out of range"
  else Ok (replicate (Z.to_nat n) zero).

Definition len {A} (s : list A) : Z := Z.of_nat (length s).

(** ** exercises/4-gfpoly: polynomials over GF(p^n) *)

Module gfpoly.
Section WithField.
Context {E : Type} {F : gfpn.Field E}.

(** [normalize]: drop the zero coefficients at the high end. *)
Fixpoint normalize (coeffs : list E) : list E :=
  match coeffs with
  | [] => []
  | c :: cs =>
    match normalize cs with
    | [] => if gfpn.IsZero c then [] else [c]
    | cs' => c :: cs'
    end
  end.

(** A polynomial value is its normalized coefficient slice. *)
Definition NewPolynomial (coeffs : list E) : list E := normalize coeffs.

Definition Degree (p : list E) : Z :=
  if len p =? 0 then -1 else len p - 1.

(** The loop of [findDegree] (and of [normalize]) over the indices below
    [k], from the highest down. *)
Fixpoint findDegree_loop (k : nat) (coeffs : list E) : Z :=
  match k with
  | O => -1
  | S k' =>
    if negb (gfpn.IsZero (nth k' coeffs gfpn.Zero)) then Z.of_nat k'
    else findDegree_loop k' coeffs
  end.

Definition findDegree (coeffs : list E) : Z := findDegree_loop (length coeffs) coeffs.

Definition IsZero (p : list E) : bool := len p =? 0.

(** [Evaluate]: Horner's rule from the highest coefficient down. *)
Definition Evaluate (p : list E) (x : E) : result E :=
  if len p =? 0 then Ok gfpn.Zero
  else
    top ← index p (len p - 1);
    foldM (fun result i =>
             m ← gfpn.Mul result x;
             c ← index p i;
             gfpn.Add m c)
          (rev (seqZ 0 (len p - 1))) top.

(** [Multiply], for two polynomials over the one field [F]. *)
Definition Multiply (p1 p2 : list E) : result (list E) :=
  if IsZero p1 || IsZero p2 then Ok (NewPolynomial [])
  else
    let resultLen := len p1 + len p2 - 1 in
    result0 ← make gfpn.Zero resultLen;
    result ← foldM (fun result i =>
                foldM (fun result j =>
                         a ← index p1 i;
                         b ← index p2 j;
                         product ← gfpn.Mul a b;
                         r ← index result (i + j);
                         s ← gfpn.Add r product;
                         setIndex result (i + j) s)
                      (seqZ 0 (len p2)) result)
              (seqZ 0 (len p1)) result0;
    Ok (NewPolynomial result).

Definition ScalarMultiply (scalar : E) (p : list E) : result (list E) :=
  result ← mapM (fun c => gfpn.Mul scalar c) p;
  Ok (NewPolynomial result).

Definition FormalDerivative (p : list E) : result (list E) :=
  if len p =? 0 then Ok (NewPolynomial [])
  else if len p =? 1 then Ok (NewPolynomial [])
  else
    result ← mapM (fun i =>
                     foldM (fun coeff (_ : Z) => c ← index p i; gfpn.Add coeff c)
                           (seqZ 0 i) gfpn.Zero)
                  (seqZ 1 (len p - 1));
    Ok (NewPolynomial result).

End WithField.
End gfpoly.

(** ** exercises/6-berlekamp, 7-chien, 8-forney: the decoding stages *)

(** The four stage functions that [correctBlock] calls, for one field. *)
Record Stages (E : Type) : Type := mkStages {
  BerlekampMassey : list E -> result (list E);
  ComputeOmega : list E -> list E -> result (list E);
  ChienSearch : list E -> Z -> result (list Z);
  ComputeErrorMagnitudes : list E -> list E -> list Z -> result (list E)
}.
Arguments mkStages {E}.
Arguments BerlekampMassey {E}.
Arguments ComputeOmega {E}.
Arguments ChienSearch {E}.
Arguments ComputeErrorMagnitudes {E}.

(** The stage functions as the packages ship them: each body is a panic. *)
Definition shippedStages (E : Type) : Stages E :=
  {| BerlekampMassey := fun _ => Panic "TODO: implement BerlekampMassey";
     ComputeOmega := fun _ _ => Panic "TODO: implement ComputeOmega";
     ChienSearch := fun _ _ => Panic "not implemented";
     ComputeErrorMagnitudes := fun _ _ _ => Panic "TODO: implement ComputeErrorMagnitudes" |}.

(** ** qrcode/correction: ApplyCorrections *)

Module correction.
Section WithField.
Context {E : Type} {F : gfpn.Field E}.

(** One iteration of the correction loop on the array at address
    [corrected]; [n] is [len(received)]. *)
Definition applyOne (n : Z) (corrected : nat) (σ : gmap nat (list E))
    (pm : Z * E) : result (gmap nat (list E)) :=
  let '(pos, magnitude) := pm in
  if (pos <? 0) || (pos >=? n) then Panic "error position %d out of bounds [0, %d)"
  else
    match σ !! corrected with
    | None => Panic "nil slice"
    | Some arr =>
      old ← index arr pos;
      new ← gfpn.Sub old magnitude;
      arr' ← setIndex arr pos new;
      Ok (<[corrected := arr']> σ)
    end.

(** [ApplyCorrections] on a store of arrays. [received] is the address of
    the received codeword; the result is the address of the corrected one
    and the store after the call. *)
Definition ApplyCorrections (received : nat) (errorPositions : list Z)
    (errorMagnitudes : list E) (σ : gmap nat (list E))
  : result (nat * gmap nat (list E)) :=
  if negb (len errorPositions =? len errorMagnitudes)
  then Panic "position count (%d) must match magnitude count (%d)"
  else
    match σ !! received with
    | None => Panic "nil slice"
    | Some recv =>
      let corrected := fresh (dom σ) in
      let σ1 := <[corrected := recv]> σ in
      σ2 ← foldM (applyOne (len recv) corrected) (zip errorPositions errorMagnitudes) σ1;
      Ok (corrected, σ2)
    end.

(** The call as [correctBlock] makes it: [received] is a local slice, the
    result is read back from the returned slice. *)
Definition ApplyCorrections_slice (received : list E) (errorPositions : list Z)
    (errorMagnitudes : list E) : result (list E) :=
  r ← ApplyCorrections 0%nat errorPositions errorMagnitudes {[ 0%nat := received ]};
  match snd r !! fst r with
  | Some corrected => Ok corrected
  | None => Panic "nil slice"
  end.

End WithField.
Section Verify.
Context {E : Type} {F : gfpn.Field E}.

(** The Horner loop of [VerifyCorrection], [for j := len(codeword) - 1;
    j >= 0; j--], at the point [y]. *)
Definition hornerDescending (codeword : list E) (y : E) : result E :=
  foldM (fun syndrome j =>
           s ← gfpn.Mul syndrome y;
           c ← index codeword j;
           gfpn.Add s c)
        (rev (seqZ 0 (len codeword))) gfpn.Zero.

Definition VerifyCorrection (codeword : list E) (numSyndromes : Z)
  : result (list E * bool) :=
  if numSyndromes <? 0 then Panic "makeslice: len out of range"
  else
    syndromes ←
      mapM (fun i =>
              alphaToI ← foldM (fun a (_ : Z) => gfpn.Mul a gfpn.Primitive)
                               (seqZ 0 i) gfpn.One;
              hornerDescending codeword alphaToI)
           (seqZ 0 numSyndromes);
    Ok (syndromes, forallb gfpn.IsZero syndromes).

(** [ExtractMessage]; [copy] fills the whole of [message], the source slice
    having [messageLength] elements in both branches. *)
Definition ExtractMessage (codeword : list E) (messageLength : Z)
    (parityAtBeginning : bool) : result (list E) :=
  if (messageLength <=? 0) || (messageLength >? len codeword)
  then Panic "invalid message length %d for codeword length %d"
  else if parityAtBeginning then
    let parityLength := len codeword - messageLength in
    Ok (take (Z.to_nat messageLength) (drop (Z.to_nat parityLength) codeword))
  else Ok (take (Z.to_nat messageLength) (take (Z.to_nat messageLength) codeword)).

End Verify.

End correction.

(** ** qrcode/decoder: ErrorCorrector and Decoder *)

Module decoder.

Record BlockResult : Type := mkBlockResult {
  BlockIndex : Z;
  NumDataCodewords : Z;
  NumECCodewords : Z;
  ErrorsFound : Z;
  ErrorPositions : list Z;
  CorrectionSucceeded : bool
}.

(** The field [ErrorPositions] of [DecodeResult] is [AllErrorPositions]
    here, the name being taken by [BlockResult]. *)
Record DecodeResult : Type := mkDecodeResult {
  Message : string;
  CorrectionSuccessful : bool;
  NumErrorsCorrected : Z;
  AllErrorPositions : list Z;
  BlockResults : list BlockResult
}.

(** What the corrector reads of gozxing's [ECBlocks]: the number of EC
    codewords per block and the groups of [count] blocks of [dataCodewords]
    data codewords each. *)
Record ECB : Type := mkECB { count : Z; dataCodewords : Z }.
Record ECBlocks : Type := mkECBlocks {
  ecCodewordsPerBlock : Z;
  ecBlocks : list ECB
}.

(** What the decoder reads of [types.QRCodeData]: the block schedule that
    [Version.GetECBlocksForLevel(ECLevel)] yields, and the raw codewords. *)
Record QRCodeData : Type := mkQRCodeData {
  ECBlocksForLevel : ECBlocks;
  RawCodewords : list Z
}.

Section WithField.
Context {E : Type} {F : gfpn.Field E}.

(** The loop of [NewErrorCorrector] that fills [alphaPowers]. *)
Definition precomputeAlphaPowers : result (list E) :=
  foldM (fun powers _ =>
           prev ← index powers (len powers - 1);
           next ← gfpn.Mul prev gfpn.Primitive;
           Ok (powers ++ [next]))
        (seqZ 1 7) [gfpn.One].

(** The [alphaPowers] field of the corrector; the [field] field is [F]. *)
Variable alphaPowers : list E.

Definition byteToElement (b : Z) : result E :=
  foldM (fun result i =>
           if negb (Z.land b (Z.shiftl 1 i) =? 0) then
             a ← index alphaPowers i;
             gfpn.Add result a
           else Ok result)
        (seqZ 0 8) gfpn.Zero.

(** The search loop of [elementToByte] from byte [b], [fuel] candidates left;
    the Go loop starts at 1 and ends when [b++] wraps to 0. *)
Fixpoint elementToByte_loop (fuel : nat) (b : Z) (elem : E) : result Z :=
  match fuel with
  | O => Ok 0
  | S fuel' =>
    e ← byteToElement b;
    if String.eqb (gfpn.String e) (gfpn.String elem) then Ok b
    else elementToByte_loop fuel' ((b + 1) mod 256) elem
  end.

Definition elementToByte (elem : E) : result Z :=
  if gfpn.IsZero elem then Ok 0
  else elementToByte_loop 255 1 elem.

(** The inner loop of [computeSyndromes] that builds alpha^i. *)
Definition alphaTo (i : Z) : result E :=
  foldM (fun alphaToI _ => gfpn.Mul alphaToI gfpn.Primitive) (seqZ 0 i) gfpn.One.

(** The Horner loop of [computeSyndromes] at the point [y]. *)
Definition hornerQR (received : list E) (y : E) : result E :=
  foldM (fun syndrome r => s ← gfpn.Mul syndrome y; gfpn.Add s r) received gfpn.Zero.

Definition computeSyndromes (received : list E) (numSyndromes : Z) : result (list E) :=
  if numSyndromes <? 0 then Panic "makeslice: len out of range"
  else mapM (fun i => alphaToI ← alphaTo i; hornerQR received alphaToI)
            (seqZ 0 numSyndromes).

(** [hasErrors] / [!isValid]: some syndrome is not zero. *)
Definition anyNonZero (syndromes : list E) : bool :=
  existsb (fun s => negb (gfpn.IsZero s)) syndromes.

Variable stages : Stages E.

Definition correctBlock (block : list Z) (numECCodewords blockIndex : Z)
  : result (list Z * BlockResult * option error) :=
  let numDataCodewords := len block - numECCodewords in
  let codewordLength := len block in
  received ← mapM byteToElement block;
  syndromes ← computeSyndromes received numECCodewords;
  if negb (anyNonZero syndromes) then
    data ← sliceTo block numDataCodewords;
    Ok (data,
        {| BlockIndex := blockIndex;
           NumDataCodewords := numDataCodewords;
           NumECCodewords := numECCodewords;
           ErrorsFound := 0;
           ErrorPositions := [];
           CorrectionSucceeded := true |},
        None)
  else
    lambda ← BerlekampMassey stages syndromes;
    omega ← ComputeOmega stages syndromes lambda;
    standardPositions ← ChienSearch stages lambda codewordLength;
    let found := {| BlockIndex := blockIndex;
                    NumDataCodewords := numDataCodewords;
                    NumECCodewords := numECCodewords;
                    ErrorsFound := len standardPositions;
                    ErrorPositions := standardPositions;
                    CorrectionSucceeded := false |} in
    let maxCorrectableErrors := Z.quot numECCodewords 2 in
    if len standardPositions >? maxCorrectableErrors then
      Ok ([], found,
          Some (ErrorfInts "too many errors: found %d, can correct %d"
                  [len standardPositions; maxCorrectableErrors]))
    else
      magnitudes ← ComputeErrorMagnitudes stages lambda omega standardPositions;
      let qrPositions := map (fun pos => codewordLength - 1 - pos) standardPositions in
      corrected ← correction.ApplyCorrections_slice received qrPositions magnitudes;
      verifySyndromes ← computeSyndromes corrected numECCodewords;
      if anyNonZero verifySyndromes then
        Ok ([], found, Some (Errorf "correction verification failed"))
      else
        _ ← make 0 numDataCodewords;
        correctedBytes ←
          mapM (fun i => c ← index corrected i; elementToByte c) (seqZ 0 numDataCodewords);
        Ok (correctedBytes,
            {| BlockIndex := blockIndex;
               NumDataCodewords := numDataCodewords;
               NumECCodewords := numECCodewords;
               ErrorsFound := len standardPositions;
               ErrorPositions := standardPositions;
               CorrectionSucceeded := true |},
            None).

(** [blocks[j][i] = x] *)
Definition setCell (blocks : list (list Z)) (j i x : Z) : result (list (list Z)) :=
  row ← index blocks j;
  row' ← setIndex row i x;
  setIndex blocks j row'.

Definition deinterleaveBlocks (rawCodewords : list Z) (ecb : ECBlocks)
  : result (list (list Z)) :=
  let ec := ecCodewordsPerBlock ecb in
  let numBlocks := fold_left (fun n g => n + count g) (ecBlocks ecb) 0 in
  blocks0 ← make [] numBlocks;
  alloc ← foldM (fun st g =>
             foldM (fun '(blocks, blockIndex) _ =>
                      blk ← make 0 (dataCodewords g + ec);
                      blocks' ← setIndex blocks blockIndex blk;
                      Ok (blocks', blockIndex + 1))
                   (seqZ 0 (count g)) st)
           (ecBlocks ecb) (blocks0, 0);
  let blocks := fst alloc in
  let maxDataCodewords :=
    fold_left (fun m block => if len block - ec >? m then len block - ec else m) blocks 0 in
  st ← foldM (fun st i =>
          foldM (fun '(blocks, rawIndex) j =>
                   row ← index blocks j;
                   if i <? len row - ec then
                     x ← index rawCodewords rawIndex;
                     blocks' ← setCell blocks j i x;
                     Ok (blocks', rawIndex + 1)
                   else Ok (blocks, rawIndex))
                (seqZ 0 (len blocks)) st)
        (seqZ 0 maxDataCodewords) (blocks, 0);
  st' ← foldM (fun st i =>
          foldM (fun '(blocks, rawIndex) j =>
                   row ← index blocks j;
                   x ← index rawCodewords rawIndex;
                   blocks' ← setCell blocks j (len row - ec + i) x;
                   Ok (blocks', rawIndex + 1))
                (seqZ 0 (len (fst st))) st)
        (seqZ 0 ec) st;
  Ok (fst st').

Definition reinterleaveBlocks (blocks : list (list Z)) : list Z :=
  let maxBlockSize :=
    fold_left (fun m block => if len block >? m then len block else m) blocks 0 in
  flat_map (fun i =>
              flat_map (fun block =>
                          match block !! Z.to_nat i with
                          | Some x => [x]
                          | None => []
                          end) blocks)
           (seqZ 0 maxBlockSize).

(** The loop of [CorrectCodewords] over the blocks from index [i] on;
    [correctedBlocks] and [blockResults] hold what the earlier blocks gave. *)
Fixpoint correctBlocks (ec : Z) (blocks : list (list Z)) (i : Z)
    (correctedBlocks : list (list Z)) (blockResults : list BlockResult)
  : result (list (list Z) * list BlockResult * option error) :=
  match blocks with
  | [] => Ok (correctedBlocks, blockResults, None)
  | block :: rest =>
    r ← correctBlock block ec i;
    match r with
    | (_, _, Some err) =>
      Ok ([], [], Some (ErrorfIntWrap "failed to correct block %d: %w" i err))
    | (corrected, result, None) =>
      correctBlocks ec rest (i + 1) (correctedBlocks ++ [corrected]) (blockResults ++ [result])
    end
  end.

Definition CorrectCodewords (qrData : QRCodeData)
  : result (list Z * list BlockResult * option error) :=
  let ecb := ECBlocksForLevel qrData in
  blocks ← deinterleaveBlocks (RawCodewords qrData) ecb;
  r ← correctBlocks (ecCodewordsPerBlock ecb) blocks 0 [] [];
  match r with
  | (_, _, Some err) => Ok ([], [], Some err)
  | (correctedBlocks, blockResults, None) =>
    Ok (reinterleaveBlocks correctedBlocks, blockResults, None)
  end.

Definition Decode (qrData : QRCodeData) : result (option DecodeResult * option error) :=
  r ← CorrectCodewords qrData;
  match r with
  | (_, _, Some err) => Ok (None, Some (ErrorfWrap "error correction failed: %w" err))
  | (correctedData, blockResults, None) =>
    let totalErrors := fold_left (fun t b => t + ErrorsFound b) blockResults 0 in
    let allErrorPositions := flat_map ErrorPositions blockResults in
    let allBlocksSucceeded := forallb CorrectionSucceeded blockResults in
    if negb allBlocksSucceeded then
      Ok (Some {| Message := "";
                  CorrectionSuccessful := false;
                  NumErrorsCorrected := 0;
                  AllErrorPositions := allErrorPositions;
                  BlockResults := blockResults |},
          Some (Errorf "error correction failed for one or more blocks"))
    else
      match DataDecoder.Decode correctedData with
      | (_, Some err) => Ok (None, Some (ErrorfWrap "data decoding failed: %w" err))
      | (message, None) =>
        Ok (Some {| Message := message;
                    CorrectionSuccessful := allBlocksSucceeded;
                    NumErrorsCorrected := totalErrors;
                    AllErrorPositions := allErrorPositions;
                    BlockResults := blockResults |},
            None)
      end
  end.

End WithField.
End decoder.

(** ** A reference GF(2^8) *)

(** Modelled from the spec: the element arithmetic of exercises/3-gfpn has
    no body to translate, so the field GF(2^8) = GF(2)[x] / (x^8 + x^4 + x^3
    + x^2 + 1) in which the corrector is meant to run is written here from
    the specification: an element is a polynomial of degree < 8 over GF(2),
    held as the byte of its coefficients; Add and Sub are coefficient-wise
    (exclusive or); alpha = x is the primitive element; Mul and Div go
    through the logarithm to base alpha, alpha^((k1 + k2) mod 255) and
    alpha^((k1 - k2) mod 255); Div by zero fails; String lists the
    coefficients from the highest to the lowest, zero is "0". *)
Module GF256.

Definition toN (b : Byte.byte) : N := Byte.to_N b.
Definition ofN (n : N) : byte := default Byte.x00 (Byte.of_N n).

(** Multiplication by x modulo x^8 + x^4 + x^3 + x^2 + 1 (0x11D). *)
Definition xtimeN (a : N) : N :=
  let s := N.shiftl a 1 in
  if N.testbit s 8 then N.lxor s 285 else s.

Definition xtime (b : byte) : byte := ofN (xtimeN (toN b)).

Definition add (a b : byte) : byte := ofN (N.lxor (toN a) (toN b)).

(** alpha^k *)
Definition exp (k : nat) : byte := Nat.iter k xtime Byte.x01.

Fixpoint log_from (fuel : nat) (cur : byte) (k : nat) (a : byte) : nat :=
  match fuel with
  | O => 0%nat
  | S fuel' => if Byte.eqb cur a then k else log_from fuel' (xtime cur) (S k) a
  end.

(** The k in [0, 254] with alpha^k = a, for a not zero. *)
Definition log (a : byte) : nat := log_from 255 Byte.x01 0 a.

Definition isZero (a : byte) : bool := Byte.eqb a Byte.x00.

Definition mul (a b : byte) : byte :=
  if isZero a || isZero b then Byte.x00
  else exp ((log a + log b) mod 255)%nat.

Definition div (a b : byte) : result byte :=
  if isZero b then Panic "division by zero"
  else if isZero a then Ok Byte.x00
  else Ok (exp ((log a + (255 - log b)) mod 255)%nat).

Definition toString (a : byte) : string :=
  if isZero a then "0"
  else string_of_list_ascii
         (map (fun i => if N.testbit (toN a) i then "1"%char else "0"%char)
              [7; 6; 5; 4; 3; 2; 1; 0]%N).

Definition Field : gfpn.Field byte :=
  {| gfpn.Zero := Byte.x00;
     gfpn.One := Byte.x01;
     gfpn.Primitive := Byte.x02;
     gfpn.Add := fun a b => Ok (add a b);
     gfpn.Sub := fun a b => Ok (add a b);
     gfpn.Mul := fun a b => Ok (mul a b);
     gfpn.Div := div;
     gfpn.IsZero := isZero;
     gfpn.String := toString |}.

(** [alphaPowers] as [NewErrorCorrector] computes it over this field. *)
Definition alphaPowers : list byte :=
  match decoder.precomputeAlphaPowers (F := Field) with
  | Ok l => l
  | Panic _ => []
  end.

End GF256.

(** Every byte, for checks by enumeration. *)
Definition all_bytes : list Byte.byte :=
  map (fun k => GF256.ofN (N.of_nat k)) (seq 0 256).

(** ** Blocks for the worked examples *)

(** The words that differ from [block] in at most one symbol. *)
Definition oneSymbolChanges (block : list Z) : list (list Z) :=
  flat_map (fun i => map (fun v => <[i := v]> block) (seqZ 0 256))
           (seq 0 (length block)).

(** The test that opens [correctBlock], over GF(2^8): the bytes become
    elements, the syndromes are computed, and none of them is non-zero. *)
Definition zeroSyndromes (block : list Z) (numECCodewords : Z) : bool :=
  match (received ← mapM (decoder.byteToElement (F := GF256.Field) GF256.alphaPowers) block;
         decoder.computeSyndromes (F := GF256.Field) received numECCodewords) with
  | Ok syndromes => negb (decoder.anyNonZero (F := GF256.Field) syndromes)
  | Panic _ => false
  end.

(** Two blocks of one data and two EC codewords each, interleaved: the first
    block reads 1, 3, 2, a codeword, and the second 0, 1, 1, the zero
    codeword with two symbols changed. *)
Definition damagedBlocks : decoder.QRCodeData :=
  {| decoder.ECBlocksForLevel :=
       {| decoder.ecCodewordsPerBlock := 2;
          decoder.ecBlocks := [{| decoder.count := 2; decoder.dataCodewords := 1 |}] |};
     decoder.RawCodewords := [1; 0; 3; 1; 2; 1] |}.

(** What a block and its result look like when [correctBlock] returns
    without error. *)
Definition corrected_block (ec : Z) (block : list Z) (idx : Z) (data : list Z)
    (br : decoder.BlockResult) : Prop :=
  decoder.BlockIndex br = idx
  /\ decoder.NumDataCodewords br = len block - ec
  /\ decoder.NumECCodewords br = ec
  /\ decoder.ErrorsFound br = len (decoder.ErrorPositions br)
  /\ decoder.ErrorsFound br <= Z.quot ec 2
  /\ decoder.CorrectionSucceeded br = true
  /\ len data = len block - ec.

(** Two blocks of one data and two EC codewords each, all codewords zero. *)
Definition zeroBlocks : decoder.QRCodeData :=
  {| decoder.ECBlocksForLevel :=
       {| decoder.ecCodewordsPerBlock := 2;
          decoder.ecBlocks := [{| decoder.count := 2; decoder.dataCodewords := 1 |}] |};
     decoder.RawCodewords := [0; 0; 0; 0; 0; 0] |}.

(** The result of a block of one data and two EC codewords found free of
    errors. *)
Definition cleanResult (blockIndex : Z) : decoder.BlockResult :=
  {| decoder.BlockIndex := blockIndex;
     decoder.NumDataCodewords := 1;
     decoder.NumECCodewords := 2;
     decoder.ErrorsFound := 0;
     decoder.ErrorPositions := [];
     decoder.CorrectionSucceeded := true |}.

(** ** The value of a polynomial *)

(** The sum over i of coeffs[i] * x^i. *)
Definition evalPoly {E : Type} {F : gfpn.Field E} (coeffs : list E) (x : E) : E :=
  gfpn.evalQR (rev coeffs) x.

(** The derivative in characteristic 2: of a1 + 2 a2 x + 3 a3 x^2 + ... the
    terms with an odd factor stay, the others vanish. *)
Definition oddTerms {E : Type} {F : gfpn.Field E} (coeffs : list E) : list E :=
  imap (fun k c => if Nat.even k then c else gfpn.Zero) (tail coeffs).

(** ** De-interleaving, cell by cell *)

(** The data codewords and the EC codewords of a block. *)
Definition dataPart (ec : Z) (block : list Z) : list Z :=
  take (Z.to_nat (len block - ec)) block.
Definition ecPart (ec : Z) (block : list Z) : list Z :=
  drop (Z.to_nat (len block - ec)) block.

(** The block lengths that a block schedule asks for, and their sum. *)
Definition blockSizes (ecb : decoder.ECBlocks) : list Z :=
  flat_map (fun g => replicate (Z.to_nat (decoder.count g))
                       (decoder.dataCodewords g + decoder.ecCodewordsPerBlock ecb))
           (decoder.ecBlocks ecb).
Definition totalCodewords (ecb : decoder.ECBlocks) : Z :=
  foldr Z.add 0 (blockSizes ecb).

(** The cell [blocks[j][p]], for c = (j, p). *)
Definition getCell (blocks : list (list Z)) (c : nat * nat) : option Z :=
  match blocks !! c.1 with
  | Some row => row !! c.2
  | None => None
  end.

(** One step of the two copying loops of [deinterleaveBlocks], at the loop
    counters (i, j): [act i (len blocks[j])] is the index in block j that
    the step writes, if it writes. *)
Definition writeCell (raw : list Z) (act : Z -> Z -> option Z)
    (st : list (list Z) * Z) (ij : Z * Z) : result (list (list Z) * Z) :=
  row ← index st.1 ij.2;
  match act ij.1 (len row) with
  | Some p =>
    x ← index raw st.2;
    blocks' ← decoder.setCell st.1 ij.2 p x;
    Ok (blocks', st.2 + 1)
  | None => Ok st
  end.

(** The data loop writes [blocks[j][i]] when i < numData; the EC loop
    writes [blocks[j][numData + i]]. *)
Definition dataCell (ec i n : Z) : option Z := if i <? n - ec then Some i else None.
Definition ecCell (ec i n : Z) : option Z := Some (n - ec + i).

(** The cells written at the loop counters [cs], in the order of writing,
    for blocks of the lengths [shape]. *)
Definition cellsOf (act : Z -> Z -> option Z) (shape : list Z) (cs : list (Z * Z))
  : list (nat * nat) :=
  flat_map (fun ij =>
              match shape !! Z.to_nat ij.2 with
              | Some n =>
                match act ij.1 n with
                | Some p => [(Z.to_nat ij.2, Z.to_nat p)]
                | None => []
                end
              | None => []
              end) cs.

(** The loop counters of [for i < m { for j < n { ... } }], in order. *)
Definition counters (m n : Z) : list (Z * Z) :=
  flat_map (fun i => map (pair i) (seqZ 0 n)) (seqZ 0 m).

(** A schedule of two blocks of two data and two EC codewords each. *)
Definition twoByTwo : decoder.ECBlocks :=
  {| decoder.ecCodewordsPerBlock := 2;
     decoder.ecBlocks := [{| decoder.count := 2; decoder.dataCodewords := 2 |}] |}.

(** The number of data codewords of a block schedule. *)
Definition totalDataCodewords (ecb : decoder.ECBlocks) : Z :=
  foldr Z.add 0 (map (fun n => n - decoder.ecCodewordsPerBlock ecb) (blockSizes ecb)).

(** ** qrcode/types: QRExtractor.readCodewords and splitCodewords *)

(** A loop body that may return from the enclosing function. *)
Inductive flow (R S : Type) : Type :=
| Return (r : R)
| Next (s : S).
Arguments Return {R S} r.
Arguments Next {R S} s.

(** A loop over [l] threading a state, left at the first return or panic. *)
Fixpoint foldF {A R S} (f : S -> A -> result (flow R S)) (l : list A) (s : S)
  : result (flow R S) :=
  match l with
  | [] => Ok (Next s)
  | x :: xs =>
    r ← f s x;
    match r with
    | Return v => Ok (Return v)
    | Next s' => foldF f xs s'
    end
  end.

Module types.

(** The local variables of [readCodewords]. *)
Record readState : Type := mkReadState {
  codewords : list Z;
  codewordIndex : Z;
  currentByte : Z;
  bitsRead : Z
}.

Section WithMatrix.
(** [get x y] is [bitMatrix.Get(x, y)], [dimension] is
    [bitMatrix.GetHeight()], [versionNumber] and [totalCodewords] are what
    [version] reports. *)
Variable get : Z -> Z -> bool.
Variables dimension versionNumber totalCodewords : Z.

(** The body of the innermost loop, at the module ([row], [currentCol]). *)
Definition readModule (st : readState) (row currentCol : Z)
  : result (flow (list Z) readState) :=
  if negb (QRExtractor.isFunctionModule dimension row currentCol versionNumber) then
    let nread := bitsRead st + 1 in
    let shifted := Z.shiftl (currentByte st) 1 in
    let current := if get currentCol row then Z.lor shifted 1 else shifted in
    if nread =? 8 then
      written ← setIndex (codewords st) (codewordIndex st) (current mod 256);
      let next := codewordIndex st + 1 in
      if next >=? totalCodewords then Ok (Return written)
      else Ok (Next {| codewords := written; codewordIndex := next;
                       currentByte := 0; bitsRead := 0 |})
    else Ok (Next {| codewords := codewords st; codewordIndex := codewordIndex st;
                     currentByte := current; bitsRead := nread |})
  else Ok (Next st).

(** The loop over [counter] with its loop over [colOffset], for the column
    pair at [col]. *)
Definition readColumnPair (col : Z) (readingUp : bool) (st : readState)
  : result (flow (list Z) readState) :=
  foldF (fun st counter =>
           let row := if readingUp then dimension - 1 - counter else counter in
           foldF (fun st colOffset => readModule st row (col - colOffset))
                 (seqZ 0 2) st)
        (seqZ 0 dimension) st.

(** The loop [for col := ...; col > 0; col -= 2], at most [fuel] rounds. *)
Fixpoint readColumns (fuel : nat) (col : Z) (readingUp : bool) (st : readState)
  : result (flow (list Z) readState) :=
  match fuel with
  | O => Ok (Next st)
  | S fuel' =>
    if col >? 0 then
      let col := if col =? 6 then col - 1 else col in
      r ← readColumnPair col readingUp st;
      match r with
      | Return v => Ok (Return v)
      | Next st' => readColumns fuel' (col - 2) (negb readingUp) st'
      end
    else Ok (Next st)
  end.

(** [col] starts at [dimension - 1] and falls by at least 2 a round, so
    [dimension] rounds are never used up. *)
Definition readCodewords : result (list Z * option error) :=
  empty ← make 0 totalCodewords;
  r ← readColumns (Z.to_nat dimension) (dimension - 1) true
        {| codewords := empty; codewordIndex := 0; currentByte := 0; bitsRead := 0 |};
  match r with
  | Return v => Ok (v, None)
  | Next st =>
    if negb (codewordIndex st =? totalCodewords) then
      Ok ([], Some (ErrorfInts "read %d codewords but expected %d"
                      [codewordIndex st; totalCodewords]))
    else Ok (codewords st, None)
  end.

(** The modules in the order in which [readCodewords] visits them. *)
Fixpoint zigzag (fuel : nat) (col : Z) (readingUp : bool) : list (Z * Z) :=
  match fuel with
  | O => []
  | S fuel' =>
    if col >? 0 then
      let col := if col =? 6 then col - 1 else col in
      flat_map (fun counter =>
                  let row := if readingUp then dimension - 1 - counter else counter in
                  map (fun colOffset => (row, col - colOffset)) (seqZ 0 2))
               (seqZ 0 dimension)
      ++ zigzag fuel' (col - 2) (negb readingUp)
    else []
  end.

(** The bits of the modules that are not function modules, in that order. *)
Definition dataBits : list bool :=
  map (fun rc => get rc.2 rc.1)
      (List.filter (fun rc => negb (QRExtractor.isFunctionModule dimension rc.1 rc.2 versionNumber))
              (zigzag (Z.to_nat dimension) (dimension - 1) true)).

End WithMatrix.

(** [splitCodewords]; [totalCodewords] and [totalECCodewords] are what
    [version] and its [ECBlocks] report. A slice is taken to have no
    capacity beyond its length. *)
Definition splitCodewords (rawCodewords : list Z) (totalCodewords totalECCodewords : Z)
  : result (list Z * list Z) :=
  let totalDataCodewords := totalCodewords - totalECCodewords in
  dataCodewords ← make 0 totalDataCodewords;
  ecCodewords ← make 0 totalECCodewords;
  head ← sliceTo rawCodewords totalDataCodewords;
  let dataCodewords := take (length dataCodewords) head
                       ++ drop (length head) dataCodewords in
  let tail := drop (Z.to_nat totalDataCodewords) rawCodewords in
  let ecCodewords := take (length ecCodewords) tail ++ drop (length tail) ecCodewords in
  Ok (dataCodewords, ecCodewords).

End types.

(** The state of [readCodewords] after the complete codewords [chunks] and
    the bits [partial] of the next one. *)
Definition readStateOf (totalCodewords : Z) (chunks : list (list bool))
    (partial : list bool) : types.readState :=
  {| types.codewords :=
       map DataDecoder.bitsValue chunks
       ++ replicate (Z.to_nat totalCodewords - length chunks) 0;
     types.codewordIndex := len chunks;
     types.currentByte := DataDecoder.bitsValue partial;
     types.bitsRead := len partial |}.

(** * Properties *)

(** ** The vectors of the package's tests *)

(** TestDataDecoder_ByteMode *)
Example test_data_decoder_byte_mode :
  DataDecoder.Decode [0x40; 0x54; 0x86; 0x56; 0xC6; 0xC6; 0xF0] = ("Hello", None).
Proof. reflexivity. Qed.

(** TestDecoder_EmptyMessage *)
Example test_decoder_empty_message : DataDecoder.Decode [0x40; 0x00] = ("", None).
Proof. reflexivity. Qed.

(** TestBitStream: 1011 0011 0101 0101, then nothing left. *)
Example test_bit_stream :
  let s0 := DataDecoder.newBitStream [0xB3; 0x55] in
  let '(r1, s1) := DataDecoder.readBits s0 4 in
  let '(r2, s2) := DataDecoder.readBits s1 4 in
  let '(r3, s3) := DataDecoder.readBits s2 4 in
  let '(r4, s4) := DataDecoder.readBits s3 4 in
  let '(r5, _) := DataDecoder.readBits s4 1 in
  [r1; r2; r3; r4] = [(11, None); (3, None); (5, None); (5, None)]
  /\ r5 = (0, Some (ErrorfInts "not enough bits available (requested %d, read %d)" [1; 0])).
Proof. vm_compute. split; reflexivity. Qed.

(** TestBitStream_CrossByte *)
Example test_bit_stream_cross_byte :
  fst (DataDecoder.readBits (DataDecoder.newBitStream [0xF0; 0xAA]) 12) = (0xF0A, None).
Proof. vm_compute. reflexivity. Qed.

(** A version-1 symbol has 26 codewords: 208 modules are not skipped. *)
Example version_1_data_modules :
  length (filter (fun rc => negb (QRExtractor.isFunctionModule 21 (fst rc) (snd rc) 1))
            (list_prod (seqZ 0 21) (seqZ 0 21))) = 208%nat.
Proof. vm_compute. reflexivity. Qed.

(** ** DataDecoder: reading the stream bit by bit *)

Section DataDecoderFacts.
Import DataDecoder.

Ltac Zify.zify_post_hook ::= Z.to_euclidean_division_equations.

Lemma length_bitsMSB w v : length (bitsMSB w v) = w.
Proof. induction w; simpl; congruence. Qed.

Lemma length_streamBits data : length (streamBits data) = (8 * length data)%nat.
Proof.
  induction data as [|x xs IH]; [reflexivity|].
  unfold streamBits in *. cbn [flat_map]. rewrite length_app, length_bitsMSB, IH.
  cbn [length]. lia.
Qed.

Lemma streamBits_lookup data q r :
  (r < 8)%nat -> (q < length data)%nat ->
  streamBits data !! (8 * q + r)%nat = Some (Z.testbit (nth q data 0) (7 - Z.of_nat r)).
Proof.
  revert q. induction data as [|x xs IH]; intros q Hr Hq; [simpl in Hq; lia|].
  unfold streamBits in *. cbn [flat_map]. destruct q as [|q].
  - rewrite lookup_app_l by (rewrite length_bitsMSB; lia).
    do 8 (destruct r as [|r]; [reflexivity|]). lia.
  - rewrite lookup_app_r by (rewrite length_bitsMSB; lia).
    rewrite length_bitsMSB.
    replace (8 * S q + r - 8)%nat with (8 * q + r)%nat by lia.
    cbn [nth]. apply IH; [done|]. simpl in Hq. lia.
Qed.

Lemma land_shiftr_1 c s : 0 <= s -> Z.land (Z.shiftr c s) 1 = Z.b2z (Z.testbit c s).
Proof.
  intros Hs. change 1 with (Z.ones 1). rewrite Z.land_ones by lia.
  change (2 ^ 1) with 2. rewrite <- Z.bit0_mod, Z.shiftr_spec by lia.
  by rewrite Z.add_0_l.
Qed.

Lemma lor_shiftl_bit acc b :
  0 <= acc -> Z.lor (Z.shiftl acc 1) (Z.b2z b) = 2 * acc + Z.b2z b.
Proof.
  intros Hacc. rewrite Z.shiftl_mul_pow2 by lia. change (2 ^ 1) with 2.
  rewrite (Z.mul_comm acc 2).
  destruct b; cbn [Z.b2z]; [|rewrite Z.lor_0_r; lia].
  destruct acc as [|a|a]; [reflexivity|reflexivity|lia].
Qed.

Lemma bit_step_nonneg acc b : 0 <= acc -> 0 <= bit_step acc b.
Proof. intros H. unfold bit_step. rewrite lor_shiftl_bit by done. destruct b; simpl; lia. Qed.

(** Reading [k] bits that are there: the loop returns their value and leaves
    the stream [k] bits further. *)
Lemma readBits_loop_ok k : forall data p n i acc bits,
  take k (drop p (streamBits data)) = bits -> length bits = k ->
  readBits_loop k n i acc (at_pos data p)
  = ((fold_left bit_step bits acc, None), at_pos data (p + k)).
Proof.
  induction k as [|k IH]; intros data p n i acc bits Hbits Hlen.
  - destruct bits; [|done]. simpl. by rewrite Nat.add_0_r.
  - assert (Hp : (p < 8 * length data)%nat).
    { rewrite <- length_streamBits. subst bits. rewrite length_take, length_drop in Hlen.
      revert Hlen. generalize (length (streamBits data)). lia. }
    cbn [readBits_loop at_pos bytes byteOffset bitOffset].
    destruct (Z.geb_spec (Z.of_nat p / 8) (Z.of_nat (length data))) as [Hge|_]; [exfalso; lia|].
    pose proof (streamBits_lookup data (Z.to_nat (Z.of_nat p / 8)) (Z.to_nat (Z.of_nat p mod 8))) as Hl.
    replace (8 * Z.to_nat (Z.of_nat p / 8) + Z.to_nat (Z.of_nat p mod 8))%nat with p in Hl by lia.
    specialize (Hl ltac:(lia) ltac:(lia)).
    rewrite Z2Nat.id in Hl by lia.
    destruct bits as [|b bits]; [done|].
    assert (Hb : b = Z.testbit (nth (Z.to_nat (Z.of_nat p / 8)) data 0) (7 - Z.of_nat p mod 8)).
    { rewrite (drop_S _ _ _ Hl) in Hbits. cbn in Hbits. congruence. }
    assert (Hrest : take k (drop (S p) (streamBits data)) = bits).
    { rewrite (drop_S _ _ _ Hl) in Hbits. cbn in Hbits. congruence. }
    rewrite land_shiftr_1 by lia. rewrite <- Hb.
    cbn [fold_left]. fold (bit_step acc b).
    replace (p + S k)%nat with (S p + k)%nat by lia.
    rewrite <- (IH data (S p) n (i + 1) (bit_step acc b) bits Hrest ltac:(simpl in Hlen; lia)).
    f_equal. unfold at_pos.
    destruct (Z.eqb_spec (Z.of_nat p mod 8 + 1) 8) as [He|He]; f_equal; lia.
Qed.

Lemma readBits_ok data p n bits :
  0 <= n <= 32 ->
  take (Z.to_nat n) (drop p (streamBits data)) = bits -> length bits = Z.to_nat n ->
  readBits (at_pos data p) n = ((bitsValue bits, None), at_pos data (p + Z.to_nat n)).
Proof.
  intros Hn Hb Hl. unfold readBits.
  destruct (Z.ltb_spec n 0); [exfalso; lia|]. destruct (Z.gtb_spec n 32); [exfalso; lia|].
  cbn [orb]. by apply readBits_loop_ok.
Qed.

Lemma fold_bit_step_bitsMSB w : forall v acc,
  0 <= acc ->
  fold_left bit_step (bitsMSB w v) acc = acc * 2 ^ Z.of_nat w + v mod 2 ^ Z.of_nat w.
Proof.
  induction w as [|w IH]; intros v acc Hacc.
  - simpl. rewrite Z.mod_1_r. lia.
  - cbn [bitsMSB fold_left]. rewrite IH by (by apply bit_step_nonneg).
    unfold bit_step. rewrite lor_shiftl_bit by done.
    rewrite Nat2Z.inj_succ, Z.pow_succ_r by lia.
    rewrite (Z.testbit_spec' v (Z.of_nat w)) by lia.
    pose proof (Z.pow_pos_nonneg 2 (Z.of_nat w) ltac:(lia) ltac:(lia)) as Hpos.
    rewrite (Z.mul_comm 2 (2 ^ Z.of_nat w)).
    rewrite (Z.rem_mul_r v (2 ^ Z.of_nat w) 2) by lia. lia.
Qed.

Lemma bitsValue_bitsMSB w v :
  0 <= v < 2 ^ Z.of_nat w -> bitsValue (bitsMSB w v) = v.
Proof.
  intros Hv. unfold bitsValue.
  rewrite fold_bit_step_bitsMSB by lia. rewrite Z.mod_small by lia. lia.
Qed.

End DataDecoderFacts.

Section DataDecoderClaims.
Import DataDecoder.

Lemma drop_app_split {A} (l : list A) p a b :
  drop p l = a ++ b -> take (length a) (drop p l) = a /\ drop (p + length a) l = b.
Proof.
  intros H. split.
  - rewrite H. by rewrite take_app_length.
  - rewrite <- drop_drop, H. by rewrite drop_app_length.
Qed.

Lemma newBitStream_at_pos data : newBitStream data = at_pos data 0.
Proof. reflexivity. Qed.

(** The data-byte loop of byte mode on a stream that holds the payload. *)
Lemma decodeByteMode_loop_ok payload : forall data p i acc rest,
  drop p (streamBits data) = flat_map (bitsMSB 8) payload ++ rest ->
  Forall (fun b => 0 <= b < 256) payload ->
  decodeByteMode_loop (length payload) i acc (at_pos data p)
  = (string_of_bytes (acc ++ payload), None).
Proof.
  induction payload as [|b payload IH]; intros data p i acc rest Hdrop Hrange.
  - simpl. by rewrite app_nil_r.
  - cbn [length decodeByteMode_loop]. cbn [flat_map] in Hdrop.
    rewrite <- app_assoc in Hdrop.
    apply drop_app_split in Hdrop as [Htake Hdrop]. rewrite length_bitsMSB in *.
    rewrite (readBits_ok data p 8 (bitsMSB 8 b)); [|lia|done|by rewrite length_bitsMSB].
    apply Forall_cons in Hrange as [Hb Hrange].
    rewrite bitsValue_bitsMSB by (change (2 ^ Z.of_nat 8) with 256; lia).
    rewrite Z.mod_small by lia.
    change (Z.to_nat 8) with 8%nat.
    rewrite (IH data (p + 8)%nat (i + 1) (acc ++ [b]) rest Hdrop Hrange).
    by rewrite <- app_assoc.
Qed.

(** Byte mode on a stream that holds the count and the payload. *)
Lemma decodeByteMode_ok data p count payload rest :
  0 <= count < 256 -> Z.of_nat (length payload) = count ->
  Forall (fun b => 0 <= b < 256) payload ->
  drop p (streamBits data) = bitsMSB 8 count ++ flat_map (bitsMSB 8) payload ++ rest ->
  decodeByteMode (at_pos data p) = (string_of_bytes payload, None).
Proof.
  intros Hc Hlen Hrange Hdrop. unfold decodeByteMode.
  apply drop_app_split in Hdrop as [Htake Hdrop]. rewrite length_bitsMSB in *.
  rewrite (readBits_ok data p 8 (bitsMSB 8 count)); [|lia|done|by rewrite length_bitsMSB].
  rewrite bitsValue_bitsMSB by (change (2 ^ Z.of_nat 8) with 256; lia).
  change (Z.to_nat 8) with 8%nat.
  destruct (Z.eqb_spec count 0) as [H0|H0].
  - destruct payload; [reflexivity|simpl in Hlen; lia].
  - replace (Z.to_nat count) with (length payload) by lia.
    by rewrite (decodeByteMode_loop_ok payload data (p + 8)%nat 0 [] rest Hdrop Hrange).
Qed.

(** C8. The first four bits of a non-empty stream, most significant first,
    are the mode indicator: 0000 gives the empty message and no error; 0001,
    0010 and 1000 give the empty message and an unsupported-mode error; 0100
    followed by an 8-bit count and that many 8-bit bytes gives those bytes as
    the message and no error. *)
Theorem Decode_mode_indicator (data : list Z) (m : Z) (rest : list bool) :
  0 <= m < 16 ->
  streamBits data = bitsMSB 4 m ++ rest ->
  (m = 0 -> Decode data = ("", None)) /\
  (m = 1 -> Decode data =
     ("", Some (Errorf "numeric mode not yet supported (educational focus is on byte mode)"))) /\
  (m = 2 -> Decode data =
     ("", Some (Errorf "alphanumeric mode not yet supported (educational focus is on byte mode)"))) /\
  (m = 8 -> Decode data =
     ("", Some (Errorf "kanji mode not yet supported (educational focus is on byte mode)"))) /\
  (m = 4 -> forall (count : Z) (payload : list Z) (rest' : list bool),
     0 <= count < 256 -> Z.of_nat (length payload) = count ->
     Forall (fun b => 0 <= b < 256) payload ->
     rest = bitsMSB 8 count ++ flat_map (bitsMSB 8) payload ++ rest' ->
     Decode data = (string_of_bytes payload, None)).
Proof.
  intros Hm Hbits.
  assert (Hne : (Z.of_nat (length data) =? 0) = false).
  { apply Z.eqb_neq. intros H0. destruct data; [discriminate Hbits|simpl in H0; lia]. }
  assert (Hdrop : drop 0 (streamBits data) = bitsMSB 4 m ++ rest) by done.
  apply drop_app_split in Hdrop as [Htake Hdrop]. rewrite length_bitsMSB in *.
  assert (Hread : readBits (newBitStream data) 4 = ((m, None), at_pos data 4)).
  { rewrite newBitStream_at_pos.
    rewrite (readBits_ok data 0 4 (bitsMSB 4 m)); [|lia|done|by rewrite length_bitsMSB].
    rewrite bitsValue_bitsMSB by (change (2 ^ Z.of_nat 4) with 16; lia). done. }
  unfold Decode. rewrite Hne. cbv zeta. rewrite Hread.
  repeat split; intros ->; try reflexivity.
  intros count payload rest' Hc Hlen Hrange ->.
  cbn [Z.eqb Pos.eqb]. by apply (decodeByteMode_ok data 4 count payload rest').
Qed.

Lemma Decode_mode_indicator_witness :
  Decode [0x40; 0x54; 0x86; 0x56; 0xC6; 0xC6; 0xF0] = ("Hello", None).
Proof.
  refine (proj2 (proj2 (proj2 (proj2
    (Decode_mode_indicator [0x40; 0x54; 0x86; 0x56; 0xC6; 0xC6; 0xF0] 4
       (skipn 4 (streamBits [0x40; 0x54; 0x86; 0x56; 0xC6; 0xC6; 0xF0])) _ _))))
    eq_refl 5 [0x48; 0x65; 0x6C; 0x6C; 0x6F] [false; false; false; false] _ _ _ _).
  - lia.
  - reflexivity.
  - lia.
  - reflexivity.
  - repeat constructor; lia.
  - reflexivity.
Defined.

(** C10. An empty byte slice is rejected by the length guard at the top of
    Decode with the guard's own error, not with the empty message; the
    error is not the one a read of the mode indicator from the empty stream
    gives (not enough bits), so nothing was read. *)
Theorem Decode_empty :
  Decode [] = ("", Some (Errorf "no data to decode")) /\
  Decode [] <> ("", None) /\
  fst (readBits (newBitStream []) 4)
  = (0, Some (ErrorfInts "not enough bits available (requested %d, read %d)" [4; 0])).
Proof. repeat split. discriminate. Qed.

End DataDecoderClaims.

(** ** QRExtractor.isFunctionModule *)

Section FunctionModuleClaims.
Import QRExtractor.

(** The chain of early returns as one disjunction. *)
Lemma isFunctionModule_orb d row col v :
  isFunctionModule d row col v =
  ((row <=? 8) && (col <=? 8)) || ((row <=? 8) && (col >=? d - 8))
  || ((row >=? d - 8) && (col <=? 8))
  || (((row =? 6) && (col >=? 8) && (col <? d - 8))
      || ((col =? 6) && (row >=? 8) && (row <? d - 8)))
  || ((row =? 4 * v + 9) && (col =? 8))
  || ((v >=? 7)
      && (((row >=? d - 11) && (row <? d - 8) && (col >=? 0) && (col <=? 5))
          || ((row >=? 0) && (row <=? 5) && (col >=? d - 11) && (col <? d - 8)))).
Proof.
  unfold isFunctionModule.
  repeat match goal with
  | |- context [if ?c then _ else _] => destruct c
  end; cbn [orb andb]; rewrite ?orb_true_r; reflexivity.
Qed.

(** C7, as stated, fails: in a version-1 symbol the module at row 8, column 8
    is skipped as a function module although it lies in no 8x8 corner region,
    not on a timing line, and is not the dark module (13, 8). *)
Lemma isFunctionModule_not_8x8 :
  ~ (forall V row col : Z,
       1 <= V <= 40 -> 0 <= row < 17 + 4 * V -> 0 <= col < 17 + 4 * V ->
       isFunctionModule (17 + 4 * V) row col V = true
       <-> spec_isFunctionModule (17 + 4 * V) row col V).
Proof.
  intros H. specialize (H 1 8 8 ltac:(lia) ltac:(lia) ltac:(lia)).
  assert (Hc : isFunctionModule (17 + 4 * 1) 8 8 1 = true) by reflexivity.
  apply H in Hc. unfold spec_isFunctionModule in Hc. lia.
Qed.

(** C7, amended. For every version and every position of its matrix, the
    position is skipped exactly when it lies in one of the three corner
    regions as the code bounds them (rows 0..8 by columns 0..8, rows 0..8 by
    the last 8 columns, the last 8 rows by columns 0..8), on the timing row or
    column, on the dark module, or, from version 7 on, in a
    version-information region. *)
Theorem isFunctionModule_regions (V row col : Z) :
  1 <= V <= 40 -> 0 <= row < 17 + 4 * V -> 0 <= col < 17 + 4 * V ->
  isFunctionModule (17 + 4 * V) row col V = true
  <-> code_isFunctionModule (17 + 4 * V) row col V.
Proof.
  intros HV Hrow Hcol. rewrite isFunctionModule_orb.
  unfold code_isFunctionModule.
  rewrite !orb_true_iff, !andb_true_iff, !orb_true_iff, !andb_true_iff.
  rewrite !Z.leb_le, !Z.ltb_lt, !Z.geb_le, !Z.eqb_eq. lia.
Qed.

Lemma isFunctionModule_regions_witness :
  isFunctionModule (17 + 4 * 7) 36 3 7 = true
  <-> code_isFunctionModule (17 + 4 * 7) 36 3 7.
Proof. apply (isFunctionModule_regions 7 36 3); lia. Defined.

End FunctionModuleClaims.

(** ** GF(p): division, and the primitive element of GF(p^1) *)

(** C5. [Div] as shipped panics on every pair of elements, also when the
    divisor is not zero: 3 / 5 in GF(7) does not return 2. *)
Theorem Div_unimplemented :
  (forall a b : gf.fieldElement, gf.Div a b = Panic "unimplemented") /\
  gf.NewField 7 = Ok {| gf.p := 7 |} /\
  gf.value (gf.Element {| gf.p := 7 |} 5) <> 0 /\
  gf.Div (gf.Element {| gf.p := 7 |} 3) (gf.Element {| gf.p := 7 |} 5)
  <> Ok (gf.Element {| gf.p := 7 |} 2).
Proof. repeat split; discriminate. Qed.

Section PrimitiveElementClaims.

Lemma Element_small (f : gf.field) (v : Z) :
  0 <= v < gf.p f -> gf.value (gf.Element f v) = v.
Proof.
  intros Hv. unfold gf.Element. cbn [gf.value].
  rewrite (Z.rem_small v) by lia.
  rewrite Z.rem_mod_nonneg by lia.
  rewrite <- (Z.mul_1_l (gf.p f)) at 1. rewrite Z.mod_add by lia.
  apply Z.mod_small; lia.
Qed.

Lemma length_Elements (f : gf.field) :
  0 <= gf.p f -> Z.of_nat (length (gf.Elements f)) = gf.p f.
Proof.
  intros Hp. unfold gf.Elements. rewrite length_map, length_seqZ. lia.
Qed.

(** For degree 1 the search is a constant: 1 in GF(2), 2 in every other
    GF(p); no order is computed. *)
Lemma findPrimitiveElement_degree_1 (p : Z) (irr : list Z) :
  1 < p ->
  gfpn.findPrimitiveElement (gfpn.newFieldStruct p 1 irr)
  = Ok ([{| gf.value := if p =? 2 then 1 else 2; gf.Field := {| gf.p := p |} |}], None).
Proof.
  intros Hp. unfold gfpn.findPrimitiveElement.
  cbn [gfpn.degree gfpn.baseField gfpn.newFieldStruct Z.eqb Pos.eqb].
  rewrite length_Elements by (simpl; lia). cbn [gf.p].
  destruct (Z.eqb_spec p 2) as [->|Hne]; [reflexivity|].
  do 3 f_equal. unfold gf.Element. f_equal.
  change (gf.value (gf.Element {| gf.p := p |} 2) = 2).
  apply Element_small. simpl. lia.
Qed.

(** [spec_order_from] started at a^k0 returns the first exponent k >= k0
    at which the power is 1. *)
Lemma spec_order_from_sound fuel : forall p a cur k0 k,
  0 < p -> 1 <= k0 -> cur = a ^ k0 mod p ->
  gf.spec_order_from fuel p a cur k0 = Some k ->
  k0 <= k /\ a ^ k mod p = 1 /\ forall j, k0 <= j < k -> a ^ j mod p <> 1.
Proof.
  induction fuel as [|fuel IH]; intros p a cur k0 k Hp Hk0 Hcur Hres; [discriminate|].
  cbn [gf.spec_order_from] in Hres.
  destruct (Z.eqb_spec cur 1) as [H1|H1].
  - injection Hres as <-. split; [lia|]. split; [congruence|]. intros j Hj. lia.
  - apply IH in Hres; [|lia|lia|].
    + destruct Hres as (Hle & Hone & Hmin). split; [lia|]. split; [done|].
      intros j Hj. destruct (Z.eq_dec j k0) as [->|Hne]; [congruence|].
      apply Hmin. lia.
    + unfold gf.spec_mul. rewrite Hcur, Z.pow_add_r, Z.pow_1_r by lia.
      by rewrite Z.mul_mod_idemp_l by lia.
Qed.

Lemma spec_order_sound p a k :
  0 < p -> gf.spec_order p a = Some k ->
  1 <= k /\ a ^ k mod p = 1 /\ forall j, 1 <= j < k -> a ^ j mod p <> 1.
Proof.
  intros Hp Hres.
  apply (spec_order_from_sound (Z.to_nat p) p a (a mod p) 1 k); try done.
  by rewrite Z.pow_1_r.
Qed.

Lemma prime_7 : prime 7.
Proof.
  apply prime_intro; [lia|]. intros n Hn.
  assert (Hg : Z.gcd 7 n = 1).
  { assert (Hc : n = 1 \/ n = 2 \/ n = 3 \/ n = 4 \/ n = 5 \/ n = 6) by lia.
    destruct Hc as [->|[->|[->|[->|[->| ->]]]]]; reflexivity. }
  constructor; [apply Z.divide_1_l|apply Z.divide_1_l|].
  intros x H7 Hx. rewrite <- Hg. by apply Z.gcd_greatest.
Qed.

(** C6. The search at p = 7, n = 1, as [NewField(7, 1, [0, 1])] runs it.
    7 is prime and the multiplicative group of GF(7) has order 6; the
    degree-1 branch returns the constant 2 without computing an order, and
    the order of 2 in GF(7) is 3 (2^3 = 8 = 1 mod 7): the element returned
    as primitive does not generate the group, its powers being 2, 4 and 1
    only. *)
Theorem findPrimitiveElement_GF7_not_primitive :
  prime 7
  /\ gfpn.findPrimitiveElement (gfpn.newFieldStruct 7 1 [0; 1])
     = Ok ([{| gf.value := 2; gf.Field := {| gf.p := 7 |} |}], None)
  /\ gfpn.NewField_search 7 1 [0; 1]
     = Ok (Some [{| gf.value := 2; gf.Field := {| gf.p := 7 |} |}], None)
  /\ gfpn.order (gfpn.newFieldStruct 7 1 [0; 1]) - 1 = 6
  /\ gf.spec_order 7 2 = Some 3
  /\ map (fun k => 2 ^ k mod 7) (seqZ 1 6) = [2; 4; 1; 2; 4; 1].
Proof.
  split; [exact prime_7|].
  split; [exact (findPrimitiveElement_degree_1 7 [0; 1] ltac:(lia))|].
  repeat split; reflexivity.
Qed.

End PrimitiveElementClaims.

(** ** computeSyndromes over a lawful field *)

Section SyndromeClaims.
Context {E : Type} {F : gfpn.Field E} {L : gfpn.Lawful F}.
Import gfpn.

Local Notation "a ⊕ b" := (valueOf Add a b) (at level 50, left associativity).
Local Notation "a ⊗ b" := (valueOf Mul a b) (at level 40, left associativity).

Lemma powerOf_S (y : E) (k : nat) : powerOf y (S k) = powerOf y k ⊗ y.
Proof. reflexivity. Qed.

(** y commutes with its own powers. *)
Lemma powerOf_comm (y : E) (k : nat) : y ⊗ powerOf y k = powerOf y k ⊗ y.
Proof.
  induction k as [|k IH].
  - cbn. by rewrite mul_one_l, mul_one_r.
  - rewrite powerOf_S, mul_assoc, IH. reflexivity.
Qed.

(** The Horner loop started from [acc] on the word [r]. *)
Lemma hornerQR_from (r : list E) (y : E) : forall acc : E,
  foldM (fun syndrome rj => s ← Mul syndrome y; Add s rj) r acc
  = Ok ((acc ⊗ powerOf y (length r)) ⊕ evalQR r y).
Proof.
  induction r as [|rj r IH]; intros acc.
  - cbn. by rewrite mul_one_r, add_zero_r.
  - cbn [foldM]. rewrite Mul_returns. cbn [mbind result_bind].
    rewrite Add_returns. cbn [mbind result_bind]. rewrite IH. f_equal.
    cbn [evalQR length]. rewrite powerOf_S.
    rewrite mul_add_distr_r, <- (mul_assoc acc), powerOf_comm.
    by rewrite add_assoc.
Qed.

Lemma hornerQR_evalQR (r : list E) (y : E) :
  decoder.hornerQR r y = Ok (evalQR r y).
Proof.
  unfold decoder.hornerQR. rewrite hornerQR_from.
  by rewrite mul_zero_l, add_zero_l.
Qed.

(** The α^i loop: i multiplications by the primitive element. *)
Lemma alphaTo_power_nat (k : nat) : forall (l : list Z) (acc : E),
  length l = k ->
  foldM (fun alphaToI (_ : Z) => Mul alphaToI Primitive) l acc
  = Ok (Nat.iter k (fun a => a ⊗ Primitive) acc).
Proof.
  induction k as [|k IH]; intros l acc Hl.
  - by destruct l.
  - destruct l as [|x l]; [done|]. cbn [foldM]. rewrite Mul_returns.
    cbn [mbind result_bind]. rewrite (IH l) by (simpl in Hl; lia).
    f_equal. by rewrite Nat.iter_succ_r.
Qed.

Lemma alphaTo_power (i : Z) :
  decoder.alphaTo i = Ok (powerOf Primitive (Z.to_nat i)).
Proof.
  unfold decoder.alphaTo. apply alphaTo_power_nat. by rewrite length_seqZ.
Qed.

Lemma mapM_ok {A B} (f : A -> result B) (g : A -> B) (l : list A) :
  (forall x, x ∈ l -> f x = Ok (g x)) -> mapM f l = Ok (map g l).
Proof.
  induction l as [|x l IH]; intros Hf; [done|].
  cbn [mapM]. rewrite Hf by set_solver. cbn [mbind result_bind].
  rewrite IH by (intros; apply Hf; set_solver). reflexivity.
Qed.

Lemma computeSyndromes_map (received : list E) (numSyndromes : Z) :
  0 <= numSyndromes ->
  decoder.computeSyndromes received numSyndromes
  = Ok (map (fun i => evalQR received (powerOf Primitive (Z.to_nat i))) (seqZ 0 numSyndromes)).
Proof.
  intros Hn. unfold decoder.computeSyndromes.
  destruct (Z.ltb_spec numSyndromes 0); [lia|].
  apply mapM_ok. intros i _. rewrite alphaTo_power. cbn [mbind result_bind].
  apply hornerQR_evalQR.
Qed.

(** C4. Over a lawful field, for every received word r of length n and
    every numSyndromes >= 0, computeSyndromes returns numSyndromes values,
    the i-th being the sum over j of r[j] * (alpha^i)^(n-1-j), where alpha
    is the primitive element and alpha^i is i multiplications of One by
    alpha. *)
Theorem computeSyndromes_evalQR (received : list E) (numSyndromes : Z) :
  0 <= numSyndromes ->
  exists syndromes : list E,
    decoder.computeSyndromes received numSyndromes = Ok syndromes /\
    len syndromes = numSyndromes /\
    forall i : Z, 0 <= i < numSyndromes ->
      syndromes !! Z.to_nat i
      = Some (evalQR received (powerOf Primitive (Z.to_nat i))).
Proof.
  intros Hn. eexists. split; [by apply computeSyndromes_map|].
  split.
  - unfold len. rewrite length_map, length_seqZ. lia.
  - intros i Hi. rewrite list_lookup_fmap.
    rewrite (lookup_seqZ_lt 0 numSyndromes (Z.to_nat i)) by lia.
    cbn. do 3 f_equal. lia.
Qed.

End SyndromeClaims.

(** ** The reference GF(2^8) is a lawful field *)

Section GF256Laws.
Import GF256.

Lemma ofN_toN (b : Byte.byte) : ofN (toN b) = b.
Proof. unfold ofN, toN. by rewrite Byte.of_to_N. Qed.

Lemma toN_lt (b : Byte.byte) : (toN b < 256)%N.
Proof. pose proof (Byte.to_N_bounded b). unfold toN. lia. Qed.

Lemma toN_ofN (n : N) : (n < 256)%N -> toN (ofN n) = n.
Proof.
  intros Hn. unfold ofN, toN. destruct (Byte.of_N n) as [b|] eqn:Hb.
  - by apply Byte.to_of_N.
  - apply Byte.of_N_None_iff in Hb. lia.
Qed.

Lemma In_all_bytes (b : Byte.byte) : In b all_bytes.
Proof.
  rewrite <- (ofN_toN b). unfold all_bytes. apply in_map_iff.
  exists (N.to_nat (toN b)). split; [by rewrite N2Nat.id|].
  apply in_seq. pose proof (toN_lt b). lia.
Qed.

Lemma byte_forallb (P : Byte.byte -> bool) :
  forallb P all_bytes = true -> forall b, P b = true.
Proof. intros H b. rewrite forallb_forall in H. apply H, In_all_bytes. Qed.

Lemma byte_forallb2 (P : Byte.byte -> Byte.byte -> bool) :
  forallb (fun a => forallb (P a) all_bytes) all_bytes = true ->
  forall a b, P a b = true.
Proof.
  intros H a b. apply (byte_forallb (P a)). revert a. by apply byte_forallb.
Qed.

Lemma isZero_true (a : Byte.byte) : isZero a = true -> a = Byte.x00.
Proof. apply Byte.byte_dec_bl. Qed.

Lemma gf256_lxor_lt (a b : Byte.byte) : (N.lxor (toN a) (toN b) < 256)%N.
Proof.
  apply N.ltb_lt.
  apply (byte_forallb2 (fun a b => (N.lxor (toN a) (toN b) <? 256)%N)).
  vm_compute. reflexivity.
Qed.

Lemma gf256_toN_add (a b : Byte.byte) : toN (add a b) = N.lxor (toN a) (toN b).
Proof. unfold add. apply toN_ofN, gf256_lxor_lt. Qed.

Lemma gf256_add_assoc (a b c : Byte.byte) : add a (add b c) = add (add a b) c.
Proof.
  unfold add at 1 3. rewrite !gf256_toN_add. by rewrite N.lxor_assoc.
Qed.

Lemma gf256_add_zero_l (a : Byte.byte) : add Byte.x00 a = a.
Proof. unfold add. change (toN Byte.x00) with 0%N. by rewrite N.lxor_0_l, ofN_toN. Qed.

Lemma gf256_add_zero_r (a : Byte.byte) : add a Byte.x00 = a.
Proof. unfold add. change (toN Byte.x00) with 0%N. by rewrite N.lxor_0_r, ofN_toN. Qed.

(** Multiplication by x is additive. *)
Lemma gf256_xtime_add (a b : Byte.byte) : xtime (add a b) = add (xtime a) (xtime b).
Proof.
  apply Byte.byte_dec_bl.
  apply (byte_forallb2 (fun a b => Byte.eqb (xtime (add a b)) (add (xtime a) (xtime b)))).
  vm_compute. reflexivity.
Qed.

Lemma gf256_iter_xtime_add (k : nat) (a b : Byte.byte) :
  Nat.iter k xtime (add a b) = add (Nat.iter k xtime a) (Nat.iter k xtime b).
Proof.
  induction k as [|k IH]; [done|]. rewrite !Nat.iter_succ. by rewrite IH, gf256_xtime_add.
Qed.

Lemma gf256_iter_xtime_zero (k : nat) : Nat.iter k xtime Byte.x00 = Byte.x00.
Proof. induction k as [|k IH]; [done|]. rewrite Nat.iter_succ. by rewrite IH. Qed.

Lemma gf256_exp_add (a b : nat) : exp (a + b) = Nat.iter a xtime (exp b).
Proof. unfold exp. apply Nat.iter_add. Qed.

Lemma gf256_exp_255 : exp 255 = Byte.x01.
Proof. vm_compute. reflexivity. Qed.

Lemma gf256_exp_period_mul (q r : nat) : exp (255 * q + r) = exp r.
Proof.
  induction q as [|q IH]; [done|].
  replace (255 * S q + r)%nat with (255 + (255 * q + r))%nat by lia.
  rewrite gf256_exp_add, IH, <- gf256_exp_add, Nat.add_comm, gf256_exp_add, gf256_exp_255. done.
Qed.

Lemma gf256_exp_mod (n : nat) : exp (n mod 255) = exp n.
Proof.
  rewrite (Nat.div_mod_eq n 255) at 2. by rewrite gf256_exp_period_mul.
Qed.

(** Every non-zero element is the power of alpha that [log] names. *)
Lemma gf256_exp_log (a : Byte.byte) :
  isZero a = false -> exp (log a) = a /\ (log a < 255)%nat.
Proof.
  intros Ha.
  pose proof (byte_forallb
    (fun a => isZero a || (Byte.eqb (exp (log a)) a && (log a <? 255)%nat))
    ltac:(vm_compute; reflexivity) a) as H.
  cbv beta in H. rewrite Ha in H. cbn [orb] in H. apply andb_true_iff in H as [H1 H2].
  split; [by apply Byte.byte_dec_bl|by apply Nat.ltb_lt].
Qed.

Lemma gf256_log_exp (k : nat) :
  (k < 255)%nat -> log (exp k) = k /\ isZero (exp k) = false.
Proof.
  intros Hk.
  assert (H : forallb (fun k => (log (exp k) =? k)%nat && negb (isZero (exp k)))
                      (seq 0 255) = true) by (vm_compute; reflexivity).
  rewrite forallb_forall in H. specialize (H k ltac:(apply in_seq; lia)).
  cbv beta in H.
  apply andb_true_iff in H as [H1 H2].
  split; [by apply Nat.eqb_eq|by apply negb_true_iff].
Qed.

Lemma gf256_mul_zero_l (a : Byte.byte) : mul Byte.x00 a = Byte.x00.
Proof. reflexivity. Qed.

Lemma gf256_mul_zero_r (a : Byte.byte) : mul a Byte.x00 = Byte.x00.
Proof. unfold mul. by rewrite orb_true_r. Qed.

(** Multiplying by a non-zero y is multiplying log y times by x. *)
Lemma gf256_mul_iter (a y : Byte.byte) :
  isZero y = false -> mul a y = Nat.iter (log y) xtime a.
Proof.
  intros Hy. unfold mul. rewrite Hy, orb_false_r.
  destruct (isZero a) eqn:Ha.
  - apply isZero_true in Ha as ->. by rewrite gf256_iter_xtime_zero.
  - rewrite gf256_exp_mod, Nat.add_comm, gf256_exp_add.
    by destruct (gf256_exp_log a Ha) as [-> _].
Qed.

Lemma gf256_mul_add_distr_r (a b c : Byte.byte) :
  mul (add a b) c = add (mul a c) (mul b c).
Proof.
  destruct (isZero c) eqn:Hc.
  - apply isZero_true in Hc as ->. by rewrite !gf256_mul_zero_r.
  - rewrite !gf256_mul_iter by done. apply gf256_iter_xtime_add.
Qed.

Lemma gf256_mul_one_r (a : Byte.byte) : mul a Byte.x01 = a.
Proof. by rewrite gf256_mul_iter. Qed.

Lemma gf256_mul_one_l (a : Byte.byte) : mul Byte.x01 a = a.
Proof.
  unfold mul. destruct (isZero a) eqn:Ha.
  - apply isZero_true in Ha. by subst.
  - cbn [isZero Byte.eqb orb]. change (log Byte.x01) with 0%nat.
    rewrite Nat.add_0_l, gf256_exp_mod. by destruct (gf256_exp_log a Ha).
Qed.

Lemma gf256_mul_nonzero (a b : Byte.byte) :
  isZero a = false -> isZero b = false ->
  mul a b = exp ((log a + log b) mod 255) /\
  isZero (mul a b) = false /\
  log (mul a b) = ((log a + log b) mod 255)%nat.
Proof.
  intros Ha Hb. unfold mul. rewrite Ha, Hb. cbn [orb].
  assert (Hlt : ((log a + log b) mod 255 < 255)%nat)
    by (apply Nat.mod_upper_bound; lia).
  destruct (gf256_log_exp _ Hlt) as [H1 H2]. done.
Qed.

Lemma gf256_mul_assoc (a b c : Byte.byte) : mul a (mul b c) = mul (mul a b) c.
Proof.
  destruct (isZero a) eqn:Ha; [apply isZero_true in Ha as ->; done|].
  destruct (isZero b) eqn:Hb.
  { apply isZero_true in Hb as ->. rewrite !gf256_mul_zero_r. reflexivity. }
  destruct (isZero c) eqn:Hc.
  { apply isZero_true in Hc as ->. by rewrite !gf256_mul_zero_r. }
  destruct (gf256_mul_nonzero b c Hb Hc) as (_ & Hbc0 & Hbcl).
  destruct (gf256_mul_nonzero a b Ha Hb) as (_ & Hab0 & Habl).
  destruct (gf256_mul_nonzero a (mul b c) Ha Hbc0) as (-> & _ & _).
  destruct (gf256_mul_nonzero (mul a b) c Hab0 Hc) as (-> & _ & _).
  rewrite Hbcl, Habl.
  rewrite Nat.Div0.add_mod_idemp_r, Nat.Div0.add_mod_idemp_l.
  by rewrite Nat.add_assoc.
Qed.

#[local] Instance GF256_lawful : gfpn.Lawful GF256.Field.
Proof.
  split; unfold gfpn.valueOf; cbn.
  - done.
  - done.
  - apply gf256_add_assoc.
  - apply gf256_add_zero_l.
  - apply gf256_add_zero_r.
  - apply gf256_mul_assoc.
  - apply gf256_mul_one_l.
  - apply gf256_mul_one_r.
  - done.
  - apply gf256_mul_add_distr_r.
Qed.

End GF256Laws.

Lemma computeSyndromes_evalQR_witness :
  exists syndromes : list Byte.byte,
    decoder.computeSyndromes (F := GF256.Field) [Byte.x01; Byte.x02; Byte.x01] 2
    = Ok syndromes /\
    len syndromes = 2 /\
    forall i : Z, 0 <= i < 2 ->
      syndromes !! Z.to_nat i
      = Some (gfpn.evalQR (F := GF256.Field) [Byte.x01; Byte.x02; Byte.x01]
                (gfpn.powerOf (F := GF256.Field) Byte.x02 (Z.to_nat i))).
Proof.
  apply (computeSyndromes_evalQR (L := GF256_lawful)
           [Byte.x01; Byte.x02; Byte.x01] 2). lia.
Defined.

(** The received word 1, alpha, 1 (first symbol highest): S_0 = r(1) = alpha
    and S_1 = r(alpha) = alpha^2 + alpha^2 + 1 = 1. *)
Example computeSyndromes_1_alpha_1 :
  decoder.computeSyndromes (F := GF256.Field) [Byte.x01; Byte.x02; Byte.x01] 2
  = Ok [Byte.x02; Byte.x01].
Proof. reflexivity. Qed.

(** ** ApplyCorrections on the store *)

Section ApplyCorrectionsClaims.
Context {E : Type} {F : gfpn.Field E}.
Import correction.

Hypothesis Sub_returns : forall a b : E, is_ok (gfpn.Sub a b) = true.

Lemma index_ok {A} (s : list A) (i : Z) :
  0 <= i < len s -> exists x, index s i = Ok x /\ s !! Z.to_nat i = Some x.
Proof.
  intros Hi. unfold index, len in *.
  destruct (Z.ltb_spec i 0); [lia|]. destruct (Z.geb_spec i (Z.of_nat (length s))); [lia|].
  cbn [orb]. destruct (s !! Z.to_nat i) as [x|] eqn:Hx; [by exists x|].
  apply lookup_ge_None in Hx. lia.
Qed.

Lemma setIndex_ok {A} (s : list A) (i : Z) (x : A) :
  0 <= i < len s -> setIndex s i x = Ok (<[Z.to_nat i := x]> s).
Proof.
  intros Hi. unfold setIndex, len in *.
  destruct (Z.ltb_spec i 0); [lia|].
  by destruct (Z.geb_spec i (Z.of_nat (length s))); [lia|].
Qed.

(** The correction loop writes only to the array at [corrected], and in it
    only at the listed positions. *)
Lemma foldM_applyOne (corrected : nat) (σ : gmap nat (list E)) (n : Z)
    (pms : list (Z * E)) : forall arr : list E,
  len arr = n ->
  Forall (fun pm => 0 <= fst pm < n) pms ->
  exists arr' : list E,
    foldM (applyOne n corrected) pms (<[corrected := arr]> σ)
    = Ok (<[corrected := arr']> σ) /\
    len arr' = n /\
    forall i : nat, Z.of_nat i ∉ (fst <$> pms) -> arr' !! i = arr !! i.
Proof.
  induction pms as [|[pos mag] pms IH]; intros arr Hlen Hrange.
  - exists arr. by repeat split.
  - apply Forall_cons in Hrange as [Hpos Hrange]. cbn [fst] in Hpos.
    cbn [foldM applyOne].
    destruct (Z.ltb_spec pos 0); [lia|]. destruct (Z.geb_spec pos n); [lia|].
    cbn [orb]. rewrite lookup_insert_eq.
    destruct (index_ok arr pos ltac:(lia)) as (old & -> & _).
    cbn [mbind result_bind].
    pose proof (Sub_returns old mag) as Hsub.
    destruct (gfpn.Sub old mag) as [new|]; [|done].
    cbn [mbind result_bind]. rewrite setIndex_ok by lia.
    cbn [mbind result_bind]. rewrite insert_insert_eq.
    destruct (IH (<[Z.to_nat pos := new]> arr)) as (arr' & Hrun & Hlen' & Hoff).
    { unfold len in *. by rewrite length_insert. }
    { done. }
    exists arr'. split; [done|]. split; [done|].
    intros i Hi. rewrite fmap_cons in Hi. cbn [fst] in Hi.
    apply not_elem_of_cons in Hi as [Hne Hi].
    rewrite Hoff by done. apply list_lookup_insert_ne. lia.
Qed.

(** C9. With positions and magnitudes of equal length and every position in
    range, ApplyCorrections returns the address of an array that did not
    exist before the call; every array of the store it was called on, the
    received codeword among them, is unchanged; the new array has the length
    of the received codeword and agrees with it at every index that is not
    in the position list. *)
Theorem ApplyCorrections_fresh_copy (received : nat) (errorPositions : list Z)
    (errorMagnitudes : list E) (σ : gmap nat (list E)) (recv : list E) :
  σ !! received = Some recv ->
  length errorPositions = length errorMagnitudes ->
  Forall (fun pos => 0 <= pos < len recv) errorPositions ->
  exists (corrected : nat) (σ' : gmap nat (list E)) (arr : list E),
    ApplyCorrections received errorPositions errorMagnitudes σ = Ok (corrected, σ') /\
    (corrected ∉ dom σ) /\
    (forall l : nat, l ∈ dom σ -> σ' !! l = σ !! l) /\
    σ' !! received = Some recv /\
    σ' !! corrected = Some arr /\
    length arr = length recv /\
    forall i : nat, Z.of_nat i ∉ errorPositions -> arr !! i = recv !! i.
Proof.
  intros Hrecv Hlen Hrange. unfold ApplyCorrections.
  replace (len errorPositions =? len errorMagnitudes) with true
    by (symmetry; apply Z.eqb_eq; unfold len; lia).
  cbn [negb]. rewrite Hrecv.
  set (c := fresh (dom σ)).
  assert (Hfresh : c ∉ dom σ) by apply is_fresh.
  destruct (foldM_applyOne c σ (len recv) (zip errorPositions errorMagnitudes) recv)
    as (arr & Hrun & Hlen' & Hoff); [done| |].
  { apply Forall_forall. intros [pos mag] Hin. cbn [fst].
    apply elem_of_zip_l in Hin. by apply (proj1 (Forall_forall _ _) Hrange). }
  rewrite Hrun. cbn [mbind result_bind].
  exists c, (<[c := arr]> σ), arr.
  assert (Hne : forall l, l ∈ dom σ -> c ≠ l) by (intros l Hl ->; done).
  repeat split.
  - done.
  - intros l Hl. apply lookup_insert_ne. by apply Hne.
  - rewrite lookup_insert_ne; [done|]. apply Hne. apply elem_of_dom. by eexists.
  - apply lookup_insert_eq.
  - unfold len in Hlen'. lia.
  - intros i Hi. apply Hoff. by rewrite fst_zip by lia.
Qed.

End ApplyCorrectionsClaims.

Lemma ApplyCorrections_fresh_copy_witness :
  exists (corrected : nat) (σ' : gmap nat (list Byte.byte)) (arr : list Byte.byte),
    correction.ApplyCorrections (F := GF256.Field) 0%nat [0] [Byte.x08]
      {[ 0%nat := [Byte.x08; Byte.x00; Byte.x00] ]} = Ok (corrected, σ') /\
    (corrected ∉ dom ({[ 0%nat := [Byte.x08; Byte.x00; Byte.x00] ]} : gmap nat (list Byte.byte))) /\
    (forall l : nat,
       l ∈ dom ({[ 0%nat := [Byte.x08; Byte.x00; Byte.x00] ]} : gmap nat (list Byte.byte)) ->
       σ' !! l = ({[ 0%nat := [Byte.x08; Byte.x00; Byte.x00] ]} : gmap nat (list Byte.byte)) !! l) /\
    σ' !! 0%nat = Some [Byte.x08; Byte.x00; Byte.x00] /\
    σ' !! corrected = Some arr /\
    length arr = length [Byte.x08; Byte.x00; Byte.x00] /\
    forall i : nat, Z.of_nat i ∉ [0] -> arr !! i = [Byte.x08; Byte.x00; Byte.x00] !! i.
Proof.
  apply (ApplyCorrections_fresh_copy (F := GF256.Field)).
  - intros a b. reflexivity.
  - reflexivity.
  - reflexivity.
  - repeat constructor; cbn; lia.
Defined.

(** The example of the doc comment: an error of magnitude alpha^3 at
    position 0 of the word alpha^3, 0, 0, 0, 0, 0, 0 is cancelled. *)
Example ApplyCorrections_doc_example :
  correction.ApplyCorrections_slice (F := GF256.Field)
    [Byte.x08; Byte.x00; Byte.x00; Byte.x00; Byte.x00; Byte.x00; Byte.x00] [0] [Byte.x08]
  = Ok [Byte.x00; Byte.x00; Byte.x00; Byte.x00; Byte.x00; Byte.x00; Byte.x00].
Proof. vm_compute. reflexivity. Qed.

(** ** correctBlock: the capacity check *)

Section CorrectBlockClaims.
Context {E : Type} {F : gfpn.Field E}.
Variable alphaPowers : list E.



End CorrectBlockClaims.

(** The block 0, 1, 1 with two EC codewords is the zero codeword with two
    symbols changed, and no word that differs from it in at most one symbol
    has all its syndromes zero: it is more than t = 1 symbols away from
    every codeword. *)
Lemma block_011_beyond_capacity :
  zeroSyndromes [0; 0; 0] 2 = true
  /\ length (oneSymbolChanges [0; 1; 1]) = 768%nat
  /\ forallb (fun w => negb (zeroSyndromes w 2)) (oneSymbolChanges [0; 1; 1]) = true.
Proof. vm_compute. done. Qed.

(** ** correctBlock on a block with too many errors *)


(** ** correctBlock on a corrupted block *)

(** C1. The block 0, 0, 0 with two EC codewords is a codeword and is
    returned as it is; with its first symbol corrupted (one error, t = 1)
    correctBlock does not return: the Berlekamp-Massey stage it calls is the
    shipped panic, and with the element arithmetic as shipped it panics
    before that; the field of the corrector cannot be built either. *)
Theorem correctBlock_corrupted_block_panics :
  decoder.computeSyndromes (F := GF256.Field) [Byte.x00; Byte.x00; Byte.x00] 2
  = Ok [Byte.x00; Byte.x00]
  /\ decoder.correctBlock (F := GF256.Field) GF256.alphaPowers
       (shippedStages Byte.byte) [0; 0; 0] 2 0
     = Ok ([0],
           {| decoder.BlockIndex := 0;
              decoder.NumDataCodewords := 1;
              decoder.NumECCodewords := 2;
              decoder.ErrorsFound := 0;
              decoder.ErrorPositions := [];
              decoder.CorrectionSucceeded := true |},
           None)
  /\ decoder.correctBlock (F := GF256.Field) GF256.alphaPowers
       (shippedStages Byte.byte) [1; 0; 0] 2 0
     = Panic "TODO: implement BerlekampMassey"
  /\ (forall (zero one primitive : gfpn.element) (alphaPowers : list gfpn.element),
        is_ok (decoder.correctBlock (F := gfpn.shipped zero one primitive) alphaPowers
                 (shippedStages gfpn.element) [1; 0; 0] 2 0) = false)
  /\ gfpn.NewField_search 2 8 [1; 0; 1; 1; 1; 0; 0; 0; 1] = Panic "not implemented".
Proof.
  split; [reflexivity|]. split; [reflexivity|]. split; [reflexivity|].
  split; [|reflexivity].
  intros zero one primitive [|a alphaPowers]; reflexivity.
Qed.

(** ** CorrectCodewords and Decode when a block fails *)

(** C2. [damagedBlocks] has two blocks: 1, 3, 2, a codeword, whose
    correction succeeds with the result of a clean block, and 0, 1, 1,
    which carries more errors than t = 1. CorrectCodewords and Decode
    return neither the result of the first block nor an error: they panic
    in the Berlekamp-Massey stage at the second block, and with the element
    arithmetic as shipped they panic before that. *)
Theorem Decode_damaged_block_panics :
  decoder.deinterleaveBlocks (decoder.RawCodewords damagedBlocks)
    (decoder.ECBlocksForLevel damagedBlocks)
  = Ok [[1; 3; 2]; [0; 1; 1]]
  /\ decoder.correctBlock (F := GF256.Field) GF256.alphaPowers
       (shippedStages Byte.byte) [1; 3; 2] 2 0
     = Ok ([1], cleanResult 0, None)
  /\ forallb (fun w => negb (zeroSyndromes w 2)) (oneSymbolChanges [0; 1; 1]) = true
  /\ decoder.CorrectCodewords (F := GF256.Field) GF256.alphaPowers
       (shippedStages Byte.byte) damagedBlocks
     = Panic "TODO: implement BerlekampMassey"
  /\ decoder.Decode (F := GF256.Field) GF256.alphaPowers
       (shippedStages Byte.byte) damagedBlocks
     = Panic "TODO: implement BerlekampMassey"
  /\ (forall (zero one primitive : gfpn.element) (alphaPowers : list gfpn.element),
        is_ok (decoder.Decode (F := gfpn.shipped zero one primitive) alphaPowers
                 (shippedStages gfpn.element) damagedBlocks) = false).
Proof.
  split; [reflexivity|]. split; [reflexivity|].
  split; [apply block_011_beyond_capacity|].
  split; [reflexivity|]. split; [reflexivity|].
  intros zero one primitive [|a alphaPowers]; reflexivity.
Qed.

(** * Further properties of the code *)

Ltac Zify.zify_post_hook ::= Z.to_euclidean_division_equations.

(** ** exercises/1-gf: field.Element and field.Elements *)

Section PrimeFieldElements.

(** X1. [field.Element] maps every integer, negative ones included, to its
    residue modulo p: the value lies in [0, p) and is congruent to the
    argument. *)
Theorem Element_value_mod (f : gf.field) (v : Z) :
  0 < gf.p f ->
  gf.value (gf.Element f v) = v mod gf.p f
  /\ 0 <= gf.value (gf.Element f v) < gf.p f.
Proof.
  intros Hp. unfold gf.Element. cbn [gf.value].
  assert (H : Z.rem (Z.rem v (gf.p f) + gf.p f) (gf.p f) = v mod gf.p f).
  { pose proof (Z.rem_bound_abs v (gf.p f) ltac:(lia)) as Hb.
    rewrite Z.rem_mod_nonneg by lia.
    rewrite <- (Z.mul_1_l (gf.p f)) at 2. rewrite Z.mod_add by lia.
    pose proof (Z.quot_rem' v (gf.p f)) as Hq.
    rewrite Hq at 2. rewrite Z.add_comm, Z.mul_comm, Z.mod_add by lia. done. }
  rewrite H. split; [done|]. apply Z.mod_pos_bound. lia.
Qed.

Lemma Element_value_mod_witness :
  gf.value (gf.Element {| gf.p := 7 |} (-3)) = (-3) mod 7
  /\ 0 <= gf.value (gf.Element {| gf.p := 7 |} (-3)) < 7.
Proof. apply (Element_value_mod {| gf.p := 7 |} (-3)). cbn. lia. Defined.

(** Go's remainder, shifted by the modulus and taken again, is the residue. *)
Lemma rem_add_rem (v p : Z) : 0 < p -> Z.rem (Z.rem v p + p) p = v mod p.
Proof.
  intros Hp. pose proof (Z.rem_bound_abs v p ltac:(lia)) as Hb.
  rewrite Z.rem_mod_nonneg by lia.
  rewrite <- (Z.mul_1_l p) at 2. rewrite Z.mod_add by lia.
  pose proof (Z.quot_rem' v p) as Hq.
  rewrite Hq at 2. rewrite Z.add_comm, Z.mul_comm, Z.mod_add by lia. done.
Qed.

Lemma Element_eq (f : gf.field) (v : Z) :
  0 < gf.p f -> gf.Element f v = {| gf.value := v mod gf.p f; gf.Field := f |}.
Proof. intros Hp. unfold gf.Element. by rewrite rem_add_rem. Qed.

(** X2. [field.Elements] lists the p elements of the field once each, in
    increasing order of value, and every element that [field.Element] builds
    is in the list. *)
Theorem Elements_complete (f : gf.field) :
  0 < gf.p f ->
  Z.of_nat (length (gf.Elements f)) = gf.p f
  /\ map gf.value (gf.Elements f) = seqZ 0 (gf.p f)
  /\ NoDup (gf.Elements f)
  /\ forall v : Z, gf.Element f v ∈ gf.Elements f.
Proof.
  intros Hp. unfold gf.Elements. repeat split.
  - rewrite length_map, length_seqZ. lia.
  - rewrite map_map. cbn [gf.value]. apply map_id.
  - apply NoDup_fmap_2; [|apply NoDup_seqZ]. intros i j Hij. by injection Hij.
  - intros v. rewrite (Element_eq f v Hp).
    apply (list_elem_of_fmap_2 (fun i => {| gf.value := i; gf.Field := f |})).
    apply elem_of_seqZ. pose proof (Z.mod_pos_bound v (gf.p f) Hp). lia.
Qed.

Lemma Elements_complete_witness :
  Z.of_nat (length (gf.Elements {| gf.p := 5 |})) = 5
  /\ map gf.value (gf.Elements {| gf.p := 5 |}) = seqZ 0 5
  /\ NoDup (gf.Elements {| gf.p := 5 |})
  /\ forall v : Z, gf.Element {| gf.p := 5 |} v ∈ gf.Elements {| gf.p := 5 |}.
Proof. apply (Elements_complete {| gf.p := 5 |}). cbn. lia. Defined.

End PrimeFieldElements.

(** ** exercises/2-arithpoly: degree, trimPoly, isZeroPoly *)

Section ArithpolyHelpers.
Import arithpoly.

Local Abbreviation d0 := (gf.Element {| gf.p := 2 |} 0).

Lemma degree_loop_spec (p : Polynomial) (k : nat) :
  -1 <= degree_loop k p < Z.of_nat k
  /\ (0 <= degree_loop k p ->
      gf.value (nth (Z.to_nat (degree_loop k p)) p d0) <> 0)
  /\ (forall i : nat, degree_loop k p < Z.of_nat i -> (i < k)%nat ->
      gf.value (nth i p d0) = 0).
Proof.
  induction k as [|k IH]; cbn [degree_loop].
  - split; [lia|]. split; [lia|]. intros i _ Hi. lia.
  - destruct (Z.eqb_spec (gf.value (nth k p d0)) 0) as [Hz|Hnz]; cbn [negb].
    + destruct IH as (Hb & Hnon & Hzero). split; [lia|]. split; [done|].
      intros i Hi Hik. destruct (decide (i = k)) as [->|Hne]; [done|].
      apply Hzero; lia.
    + split; [lia|]. split; [by rewrite Nat2Z.id|]. intros i Hi Hik. lia.
Qed.

Lemma isZeroPoly_spec (p : Polynomial) :
  isZeroPoly p = true <-> forall i : nat, (i < length p)%nat -> gf.value (nth i p d0) = 0.
Proof.
  induction p as [|c p IH]; cbn [isZeroPoly].
  - split; [|done]. intros _ i Hi. simpl in Hi. lia.
  - destruct (Z.eqb_spec (gf.value c) 0) as [Hz|Hnz]; cbn [negb].
    + rewrite IH. split.
      * intros H [|i] Hi; [done|]. apply H. simpl in Hi. lia.
      * intros H i Hi. apply (H (S i)). simpl. lia.
    + split; [done|]. intros H. specialize (H 0%nat ltac:(simpl; lia)). done.
Qed.

(** X3. [degree] returns the index of the highest coefficient whose value is
    not zero, and -1 exactly for the polynomials that [isZeroPoly] accepts
    (the empty one among them). *)
Theorem degree_highest_nonzero (p : Polynomial) :
  -1 <= degree p < Z.of_nat (length p)
  /\ (0 <= degree p -> gf.value (nth (Z.to_nat (degree p)) p d0) <> 0)
  /\ (forall i : nat, degree p < Z.of_nat i -> (i < length p)%nat ->
      gf.value (nth i p d0) = 0)
  /\ (degree p = -1 <-> isZeroPoly p = true).
Proof.
  destruct (degree_loop_spec p (length p)) as (Hb & Hnon & Hzero).
  fold (degree p) in *. repeat split; try done; try lia.
  - intros Hd. apply isZeroPoly_spec. intros i Hi. apply Hzero; lia.
  - intros Hz. rewrite isZeroPoly_spec in Hz.
    destruct (Z.eq_dec (degree p) (-1)) as [|Hne]; [done|].
    exfalso. apply Hnon; [lia|]. apply Hz. lia.
Qed.

Lemma degree_unique (q : Polynomial) (d : Z) :
  -1 <= d < Z.of_nat (length q) ->
  (0 <= d -> gf.value (nth (Z.to_nat d) q d0) <> 0) ->
  (forall i : nat, d < Z.of_nat i -> (i < length q)%nat -> gf.value (nth i q d0) = 0) ->
  degree q = d.
Proof.
  intros Hb Hnon Hzero.
  destruct (degree_loop_spec q (length q)) as (Hb' & Hnon' & Hzero').
  fold (degree q) in *.
  destruct (Z.lt_trichotomy (degree q) d) as [Hlt|[Heq|Hgt]]; [|done|]; exfalso.
  - apply Hnon; [lia|]. apply (Hzero' (Z.to_nat d)); lia.
  - apply Hnon'; [lia|]. apply (Hzero (Z.to_nat (degree q))); lia.
Qed.

Lemma trimPoly_take (p : Polynomial) :
  trimPoly p = take (Z.to_nat (degree p + 1)) p.
Proof.
  unfold trimPoly. destruct (Z.ltb_spec (degree p) 0) as [Hneg|_]; [|done].
  destruct (degree_loop_spec p (length p)) as (Hb & _). fold (degree p) in Hb.
  by replace (degree p) with (-1) by lia.
Qed.

(** X4. [trimPoly] keeps the coefficients up to the degree and drops the
    zeros above it: the result has degree + 1 coefficients, the same degree,
    is empty or ends in a coefficient that is not zero, and trimming it again
    changes nothing. *)
Theorem trimPoly_trimmed (p : Polynomial) :
  trimPoly p = take (Z.to_nat (degree p + 1)) p
  /\ Z.of_nat (length (trimPoly p)) = degree p + 1
  /\ degree (trimPoly p) = degree p
  /\ (trimPoly p = []
      \/ gf.value (nth (length (trimPoly p) - 1) (trimPoly p) d0) <> 0)
  /\ trimPoly (trimPoly p) = trimPoly p.
Proof.
  destruct (degree_loop_spec p (length p)) as (Hb & Hnon & Hzero).
  fold (degree p) in *.
  assert (Hlen : Z.of_nat (length (trimPoly p)) = degree p + 1).
  { rewrite trimPoly_take, length_take. lia. }
  assert (Hnth : forall i : nat, (i < length (trimPoly p))%nat ->
                   nth i (trimPoly p) d0 = nth i p d0).
  { intros i Hi. rewrite !nth_lookup, trimPoly_take.
    rewrite lookup_take_lt; [done|]. lia. }
  assert (Hdeg : degree (trimPoly p) = degree p).
  { apply degree_unique.
    - lia.
    - intros Hd. rewrite Hnth by lia. by apply Hnon.
    - intros i Hi Hlt. lia. }
  split; [apply trimPoly_take|]. split; [done|]. split; [done|]. split.
  - destruct (Z.eq_dec (degree p) (-1)) as [Hm|Hm].
    + left. apply nil_length_inv. lia.
    + right. rewrite Hnth by lia.
      replace (length (trimPoly p) - 1)%nat with (Z.to_nat (degree p)) by lia.
      apply Hnon. lia.
  - rewrite (trimPoly_take (trimPoly p)), Hdeg. apply take_ge. lia.
Qed.

End ArithpolyHelpers.

(** ** bitStream and DataDecoder: exhaustion, composition, other modes *)

Section BitStreamProperties.
Import DataDecoder.

Lemma streamBits_lookup_pos (data : list Z) (p : nat) :
  (p < 8 * length data)%nat ->
  streamBits data !! p
  = Some (Z.testbit (nth (Z.to_nat (Z.of_nat p / 8)) data 0) (7 - Z.of_nat p mod 8)).
Proof.
  intros Hp.
  pose proof (streamBits_lookup data (Z.to_nat (Z.of_nat p / 8))
                (Z.to_nat (Z.of_nat p mod 8)) ltac:(lia) ltac:(lia)) as Hl.
  replace (8 * Z.to_nat (Z.of_nat p / 8) + Z.to_nat (Z.of_nat p mod 8))%nat with p in Hl by lia.
  by rewrite Z2Nat.id in Hl by lia.
Qed.

(** One turn of the loop of [readBits] on a stream that is not exhausted. *)
Lemma readBits_loop_step (k : nat) (data : list Z) (p : nat) (n i acc : Z) (b : bool) :
  streamBits data !! p = Some b ->
  readBits_loop (S k) n i acc (at_pos data p)
  = readBits_loop k n (i + 1) (bit_step acc b) (at_pos data (S p)).
Proof.
  intros Hb.
  assert (Hp : (p < 8 * length data)%nat).
  { rewrite <- length_streamBits. by eapply lookup_lt_Some. }
  rewrite (streamBits_lookup_pos data p Hp) in Hb. injection Hb as Hb.
  cbn [readBits_loop at_pos bytes byteOffset bitOffset].
  destruct (Z.geb_spec (Z.of_nat p / 8) (Z.of_nat (length data))) as [Hge|_]; [exfalso; lia|].
  rewrite land_shiftr_1 by lia. rewrite Hb. fold (bit_step acc b).
  f_equal. unfold at_pos.
  destruct (Z.eqb_spec (Z.of_nat p mod 8 + 1) 8) as [He|He]; f_equal; lia.
Qed.

(** Asking for more bits than are left: the loop reads what is there and
    fails, leaving the stream at its end. *)
Lemma readBits_loop_short (k : nat) : forall (data : list Z) (p : nat) (n i acc : Z),
  (p <= 8 * length data)%nat -> (8 * length data - p < k)%nat ->
  readBits_loop k n i acc (at_pos data p)
  = ((0, Some (ErrorfInts "not enough bits available (requested %d, read %d)"
                 [n; i + Z.of_nat (8 * length data - p)])),
     at_pos data (8 * length data)).
Proof.
  induction k as [|k IH]; intros data p n i acc Hp Hk; [lia|].
  destruct (decide (p = 8 * length data)%nat) as [->|Hne].
  - cbn [readBits_loop at_pos bytes byteOffset bitOffset].
    destruct (Z.geb_spec (Z.of_nat (8 * length data) / 8) (Z.of_nat (length data)))
      as [_|Hlt]; [|exfalso; lia].
    rewrite Nat.sub_diag, Z.add_0_r. reflexivity.
  - destruct (streamBits data !! p) as [b|] eqn:Hb.
    + rewrite (readBits_loop_step k data p n i acc b Hb).
      rewrite IH by lia.
      by replace (i + 1 + Z.of_nat (8 * length data - S p))
        with (i + Z.of_nat (8 * length data - p)) by lia.
    + apply lookup_ge_None in Hb. rewrite length_streamBits in Hb. lia.
Qed.

Lemma available_at_pos (data : list Z) (p : nat) :
  (p <= 8 * length data)%nat ->
  available (at_pos data p) = Z.of_nat (8 * length data - p).
Proof.
  intros Hp. unfold available, at_pos. cbn [bytes byteOffset bitOffset].
  destruct (Z.geb_spec (Z.of_nat p / 8) (Z.of_nat (length data))); lia.
Qed.

Lemma fold_bit_step_bound (bits : list bool) : forall acc : Z,
  0 <= acc ->
  acc * 2 ^ Z.of_nat (length bits) <= fold_left bit_step bits acc
  < (acc + 1) * 2 ^ Z.of_nat (length bits).
Proof.
  induction bits as [|b bits IH]; intros acc Hacc.
  - cbn. lia.
  - cbn [fold_left length]. rewrite Nat2Z.inj_succ, Z.pow_succ_r by lia.
    pose proof (IH (bit_step acc b) (bit_step_nonneg acc b Hacc)) as H.
    assert (Hs : bit_step acc b = 2 * acc + Z.b2z b)
      by (unfold bit_step; by apply lor_shiftl_bit).
    revert H. generalize (fold_left bit_step bits (bit_step acc b)). intros w H.
    rewrite Hs in H.
    pose proof (Z.pow_pos_nonneg 2 (Z.of_nat (length bits)) ltac:(lia) ltac:(lia)).
    destruct b; cbn [Z.b2z] in H; nia.
Qed.

Lemma fold_bit_step_shift (bits : list bool) : forall acc : Z,
  0 <= acc ->
  fold_left bit_step bits acc
  = acc * 2 ^ Z.of_nat (length bits) + fold_left bit_step bits 0.
Proof.
  induction bits as [|b bits IH]; intros acc Hacc.
  - cbn. lia.
  - cbn [fold_left length]. rewrite Nat2Z.inj_succ, Z.pow_succ_r by lia.
    rewrite (IH (bit_step acc b)) by (by apply bit_step_nonneg).
    rewrite (IH (bit_step 0 b)) by (by apply bit_step_nonneg).
    unfold bit_step. rewrite !lor_shiftl_bit by lia. lia.
Qed.

Lemma bitsValue_app (xs ys : list bool) :
  bitsValue (xs ++ ys) = bitsValue xs * 2 ^ Z.of_nat (length ys) + bitsValue ys.
Proof.
  unfold bitsValue. rewrite fold_left_app.
  apply fold_bit_step_shift.
  pose proof (fold_bit_step_bound xs 0 ltac:(lia)). lia.
Qed.

Lemma take_drop_length {A} (l : list A) (p n : nat) :
  (p + n <= length l)%nat -> length (take n (drop p l)) = n.
Proof. intros H. rewrite length_take, length_drop. lia. Qed.

(** A read of more bits than are left fails, and exhausts the stream. *)
Lemma readBits_short (data : list Z) (p : nat) (n : Z) :
  (p <= 8 * length data)%nat -> 0 <= n <= 32 ->
  available (at_pos data p) < n ->
  readBits (at_pos data p) n
  = ((0, Some (ErrorfInts "not enough bits available (requested %d, read %d)"
                 [n; available (at_pos data p)])),
     at_pos data (8 * length data)).
Proof.
  intros Hp Hn. rewrite (available_at_pos data p Hp). intros Hav.
  unfold readBits.
  destruct (Z.ltb_spec n 0); [exfalso; lia|].
  destruct (Z.gtb_spec n 32); [exfalso; lia|]. cbn [orb].
  rewrite readBits_loop_short by lia. by rewrite Z.add_0_l.
Qed.

(** X5. On a stream [p] bits into its data, [available] is the number of
    bits left; a read of 0 to 32 bits succeeds exactly when that many are
    left: it then returns a value below 2^n and leaves n bits fewer, and
    otherwise it returns 0 with the not-enough-bits error that counts the
    bits that were there, and the stream is exhausted. *)
Theorem readBits_available (data : list Z) (p : nat) (n : Z) :
  (p <= 8 * length data)%nat -> 0 <= n <= 32 ->
  available (at_pos data p) = Z.of_nat (8 * length data - p)
  /\ (n <= available (at_pos data p) ->
      exists v : Z,
        readBits (at_pos data p) n = ((v, None), at_pos data (p + Z.to_nat n))
        /\ 0 <= v < 2 ^ n
        /\ available (at_pos data (p + Z.to_nat n)) = available (at_pos data p) - n)
  /\ (available (at_pos data p) < n ->
      readBits (at_pos data p) n
      = ((0, Some (ErrorfInts "not enough bits available (requested %d, read %d)"
                     [n; available (at_pos data p)])),
         at_pos data (8 * length data))
      /\ available (at_pos data (8 * length data)) = 0).
Proof.
  intros Hp Hn. rewrite (available_at_pos data p Hp).
  split; [done|]. split.
  - intros Hav.
    exists (bitsValue (take (Z.to_nat n) (drop p (streamBits data)))).
    assert (Hlen : length (take (Z.to_nat n) (drop p (streamBits data))) = Z.to_nat n).
    { apply take_drop_length. rewrite length_streamBits. lia. }
    split; [by apply readBits_ok|]. split.
    + unfold bitsValue.
      pose proof (fold_bit_step_bound (take (Z.to_nat n) (drop p (streamBits data))) 0
                    ltac:(lia)) as Hb.
      rewrite Hlen, Z2Nat.id in Hb by lia. lia.
    + rewrite available_at_pos by lia. lia.
  - intros Hav. split; [|rewrite available_at_pos by lia; lia].
    unfold readBits.
    destruct (Z.ltb_spec n 0); [exfalso; lia|].
    destruct (Z.gtb_spec n 32); [exfalso; lia|]. cbn [orb].
    rewrite readBits_loop_short by lia. by rewrite Z.add_0_l.
Qed.

Lemma readBits_available_witness :
  available (at_pos [0xB3; 0x55] 12) = 4
  /\ (exists v : Z,
        readBits (at_pos [0xB3; 0x55] 12) 4 = ((v, None), at_pos [0xB3; 0x55] 16)
        /\ 0 <= v < 16
        /\ available (at_pos [0xB3; 0x55] 16) = 0)
  /\ readBits (at_pos [0xB3; 0x55] 12) 5
     = ((0, Some (ErrorfInts "not enough bits available (requested %d, read %d)" [5; 4])),
        at_pos [0xB3; 0x55] 16).
Proof.
  destruct (readBits_available [0xB3; 0x55] 12 4 ltac:(simpl; lia) ltac:(lia))
    as (H1 & H2 & _).
  destruct (readBits_available [0xB3; 0x55] 12 5 ltac:(simpl; lia) ltac:(lia))
    as (_ & _ & H3).
  split; [exact H1|]. split.
  - apply H2. rewrite H1. cbn. lia.
  - apply H3. rewrite H1. cbn. lia.
Defined.

(** X6. Two reads in a row deliver what one read of both lengths delivers:
    the value of the long read is the first value shifted left by the second
    length plus the second value, and the stream ends at the same place. *)
Theorem readBits_compose (data : list Z) (p : nat) (a b : Z) :
  0 <= a -> 0 <= b -> a + b <= 32 ->
  (p + Z.to_nat a + Z.to_nat b <= 8 * length data)%nat ->
  exists va vb : Z,
    readBits (at_pos data p) a = ((va, None), at_pos data (p + Z.to_nat a))
    /\ readBits (at_pos data (p + Z.to_nat a)) b
       = ((vb, None), at_pos data (p + Z.to_nat a + Z.to_nat b))
    /\ readBits (at_pos data p) (a + b)
       = ((va * 2 ^ b + vb, None), at_pos data (p + Z.to_nat a + Z.to_nat b)).
Proof.
  intros Ha Hb Hab Hfit.
  set (bits := streamBits data).
  assert (Hla : length (take (Z.to_nat a) (drop p bits)) = Z.to_nat a).
  { apply take_drop_length. unfold bits. rewrite length_streamBits. lia. }
  assert (Hlb : length (take (Z.to_nat b) (drop (p + Z.to_nat a) bits)) = Z.to_nat b).
  { apply take_drop_length. unfold bits. rewrite length_streamBits. lia. }
  exists (bitsValue (take (Z.to_nat a) (drop p bits))),
         (bitsValue (take (Z.to_nat b) (drop (p + Z.to_nat a) bits))).
  split; [apply readBits_ok; [lia|done|done]|].
  split; [apply readBits_ok; [lia|done|done]|].
  assert (Hsplit : take (Z.to_nat (a + b)) (drop p bits)
                   = take (Z.to_nat a) (drop p bits)
                     ++ take (Z.to_nat b) (drop (p + Z.to_nat a) bits)).
  { rewrite Z2Nat.inj_add by lia. rewrite <- (drop_drop bits).
    symmetry. apply take_take_drop. }
  subst bits.
  rewrite (readBits_ok data p (a + b) _ ltac:(lia) eq_refl).
  - rewrite Hsplit, bitsValue_app, Hlb, Z2Nat.id by lia.
    do 2 f_equal. lia.
  - rewrite Hsplit, length_app, Hla, Hlb. lia.
Qed.

Lemma readBits_compose_witness :
  exists va vb : Z,
    readBits (at_pos [0xF0; 0xAA] 0) 4 = ((va, None), at_pos [0xF0; 0xAA] 4)
    /\ readBits (at_pos [0xF0; 0xAA] 4) 8 = ((vb, None), at_pos [0xF0; 0xAA] 12)
    /\ readBits (at_pos [0xF0; 0xAA] 0) 12
       = ((va * 2 ^ 8 + vb, None), at_pos [0xF0; 0xAA] 12).
Proof.
  apply (readBits_compose [0xF0; 0xAA] 0 4 8); [lia|lia|lia|simpl; lia].
Defined.

End BitStreamProperties.

Section DataDecoderModes.
Import DataDecoder.

(** The bits of a byte start with the bits of its high nibble. *)
Lemma bitsMSB_high_nibble (x : Z) :
  bitsMSB 8 x = bitsMSB 4 ((x / 16) mod 16) ++ bitsMSB 4 x.
Proof.
  cbn [bitsMSB app Z.of_nat Pos.of_succ_nat Pos.succ].
  change 16 with (2 ^ 4).
  rewrite !Z.mod_pow2_bits_low by lia.
  rewrite !Z.div_pow2_bits by lia. reflexivity.
Qed.

Lemma readBits_mode (data : list Z) (m : Z) (rest : list bool) :
  0 <= m < 16 -> streamBits data = bitsMSB 4 m ++ rest ->
  (Z.of_nat (length data) =? 0) = false
  /\ readBits (newBitStream data) 4 = ((m, None), at_pos data 4)
  /\ drop 4 (streamBits data) = rest.
Proof.
  intros Hm Hbits. split; [|split].
  - apply Z.eqb_neq. intros H0. destruct data; [discriminate Hbits|simpl in H0; lia].
  - change (newBitStream data) with (at_pos data 0).
    rewrite (readBits_ok data 0 4 (bitsMSB 4 m)); [| lia | by rewrite Hbits | done].
    by rewrite bitsValue_bitsMSB by (change (2 ^ Z.of_nat 4) with 16; lia).
  - by rewrite Hbits.
Qed.

(** X7. The mode indicator is the high nibble of the first byte. An
    indicator other than 0000, 0001, 0010, 0100 and 1000 gives the
    unknown-mode error, and Decode returns a message without an error only
    for 0100 and for 0000, where the message is empty: no other mode is ever
    decoded. *)
Theorem Decode_indicator_exhaustive (x : Z) (xs : list Z) :
  (~ In ((x / 16) mod 16) [0; 1; 2; 4; 8] ->
   Decode (x :: xs)
   = ("", Some (ErrorfInts "unknown mode indicator: %04b" [(x / 16) mod 16])))
  /\ (forall msg : string, Decode (x :: xs) = (msg, None) ->
      ((x / 16) mod 16 = 0 /\ msg = "") \/ (x / 16) mod 16 = 4).
Proof.
  set (m := (x / 16) mod 16).
  assert (Hm : 0 <= m < 16) by (apply Z.mod_pos_bound; lia).
  assert (Hbits : streamBits (x :: xs) = bitsMSB 4 m ++ (bitsMSB 4 x ++ streamBits xs)).
  { unfold streamBits. cbn [flat_map]. rewrite bitsMSB_high_nibble.
    by rewrite <- app_assoc. }
  destruct (readBits_mode (x :: xs) m _ Hm Hbits) as (Hne & Hread & _).
  clearbody m.
  unfold Decode. rewrite Hne. cbv zeta. rewrite Hread.
  destruct (Z.eqb_spec m 4) as [H4|H4].
  { split; [intros Hin; exfalso; apply Hin; cbn; lia|]. intros msg _. by right. }
  destruct (Z.eqb_spec m 1) as [H1|H1].
  { split; [intros Hin; exfalso; apply Hin; cbn; lia|]. intros msg [=]. }
  destruct (Z.eqb_spec m 2) as [H2|H2].
  { split; [intros Hin; exfalso; apply Hin; cbn; lia|]. intros msg [=]. }
  destruct (Z.eqb_spec m 8) as [H8|H8].
  { split; [intros Hin; exfalso; apply Hin; cbn; lia|]. intros msg [=]. }
  destruct (Z.eqb_spec m 0) as [H0|H0].
  { split; [intros Hin; exfalso; apply Hin; cbn; lia|]. intros msg [= <-]. by left. }
  split; [reflexivity|]. intros msg [=].
Qed.

Lemma Decode_indicator_exhaustive_witness :
  Decode [0x30; 0x00]
  = ("", Some (ErrorfInts "unknown mode indicator: %04b" [3])).
Proof.
  apply (proj1 (Decode_indicator_exhaustive 0x30 [0x00])).
  cbn. intros [H|[H|[H|[H|[H|[]]]]]]; discriminate H.
Defined.

(** The data-byte loop on a stream that holds fewer bytes than the count
    says: it fails at the first byte that is not all there. *)
Lemma decodeByteMode_loop_short (payload : list Z) :
  forall (k : nat) (data : list Z) (p : nat) (i : Z) (acc : list Z) (tail : list bool),
  drop p (streamBits data) = flat_map (bitsMSB 8) payload ++ tail ->
  (p <= 8 * length data)%nat ->
  (length tail < 8)%nat -> (length payload < k)%nat ->
  decodeByteMode_loop k i acc (at_pos data p)
  = ("", Some (ErrorfIntWrap "failed to read data byte %d: %w" (i + Z.of_nat (length payload))
                 (ErrorfInts "not enough bits available (requested %d, read %d)"
                    [8; Z.of_nat (length tail)]))).
Proof.
  induction payload as [|b payload IH]; intros k data p i acc tail Hdrop Hp Htail Hk.
  - destruct k as [|k]; [simpl in Hk; lia|]. cbn [decodeByteMode_loop flat_map app] in *.
    assert (Hlen : (8 * length data - p = length tail)%nat).
    { rewrite <- Hdrop, length_drop, length_streamBits. done. }
    pose proof (available_at_pos data p Hp) as Hav.
    rewrite (readBits_short data p 8 Hp) by (rewrite ?Hav; lia). rewrite Hav, Hlen.
    cbn [length]. by rewrite Z.add_0_r.
  - destruct k as [|k]; [simpl in Hk; lia|]. cbn [decodeByteMode_loop].
    cbn [flat_map] in Hdrop. rewrite <- app_assoc in Hdrop.
    apply drop_app_split in Hdrop as [Htake Hdrop]. rewrite length_bitsMSB in *.
    assert (Hp' : (p + 8 <= 8 * length data)%nat).
    { assert (Hl : length (take 8 (drop p (streamBits data))) = 8%nat)
        by (by rewrite Htake, length_bitsMSB).
      rewrite length_take, length_drop, length_streamBits in Hl. lia. }
    rewrite (readBits_ok data p 8 (bitsMSB 8 b)); [|lia|done|by rewrite length_bitsMSB].
    change (Z.to_nat 8) with 8%nat.
    rewrite (IH k data (p + 8)%nat (i + 1) _ tail Hdrop Hp' Htail ltac:(simpl in Hk; lia)).
    cbn [length]. do 3 f_equal. lia.
Qed.

(** X8. Byte mode on a stream that is too short: when the count announces
    more bytes than the stream holds, Decode returns no message and the
    failed-to-read-data-byte error for the index of the first byte that is
    not complete, wrapping the not-enough-bits error with the number of bits
    of that byte that were there. *)
Theorem Decode_byte_mode_truncated (data : list Z) (count : Z) (payload : list Z)
    (tail : list bool) :
  0 <= count < 256 ->
  Z.of_nat (length payload) < count ->
  (length tail < 8)%nat ->
  streamBits data = bitsMSB 4 4 ++ bitsMSB 8 count ++ flat_map (bitsMSB 8) payload ++ tail ->
  Decode data
  = ("", Some (ErrorfIntWrap "failed to read data byte %d: %w" (Z.of_nat (length payload))
                 (ErrorfInts "not enough bits available (requested %d, read %d)"
                    [8; Z.of_nat (length tail)]))).
Proof.
  intros Hc Hshort Htail Hbits.
  destruct (readBits_mode data 4 _ ltac:(lia) Hbits) as (Hne & Hread & Hdrop).
  unfold Decode. rewrite Hne. cbv zeta. rewrite Hread. cbn [Z.eqb Pos.eqb].
  unfold decodeByteMode.
  apply drop_app_split in Hdrop as [Htake Hdrop]. rewrite length_bitsMSB in *.
  rewrite (readBits_ok data 4 8 (bitsMSB 8 count)); [|lia|done|by rewrite length_bitsMSB].
  rewrite bitsValue_bitsMSB by (change (2 ^ Z.of_nat 8) with 256; lia).
  change (Z.to_nat 8) with 8%nat.
  destruct (Z.eqb_spec count 0) as [H0|H0]; [lia|].
  assert (Hp : (4 + 8 <= 8 * length data)%nat).
  { rewrite <- length_streamBits, Hbits, !length_app, !length_bitsMSB. lia. }
  rewrite (decodeByteMode_loop_short payload (Z.to_nat count) data (4 + 8) 0 [] tail
             Hdrop Hp Htail ltac:(lia)).
  by rewrite Z.add_0_l.
Qed.

Lemma Decode_byte_mode_truncated_witness :
  Decode [0x40; 0x54; 0x86]
  = ("", Some (ErrorfIntWrap "failed to read data byte %d: %w" 1
                 (ErrorfInts "not enough bits available (requested %d, read %d)" [8; 4]))).
Proof.
  apply (Decode_byte_mode_truncated [0x40; 0x54; 0x86] 5 [0x48]
           [false; true; true; false]).
  - lia.
  - cbn. lia.
  - cbn. lia.
  - reflexivity.
Defined.

End DataDecoderModes.

(** ** qrcode/correction: ApplyCorrections, VerifyCorrection, ExtractMessage *)

Section CorrectionProperties.
Context {E : Type} {F : gfpn.Field E}.
Import correction.

(** A position outside the received codeword stops the loop with a panic,
    wherever it stands in the list. *)
Lemma foldM_applyOne_out_of_range (corrected : nat) (n : Z) (pms : list (Z * E)) :
  forall σ : gmap nat (list E),
  Exists (fun pm => fst pm < 0 \/ n <= fst pm) pms ->
  is_ok (foldM (applyOne n corrected) pms σ) = false.
Proof.
  induction pms as [|[pos mag] pms IH]; intros σ Hex; [by apply Exists_nil in Hex|].
  cbn [foldM]. apply Exists_cons in Hex as [Hhd|Htl].
  - cbn [fst] in Hhd. unfold applyOne.
    replace ((pos <? 0) || (pos >=? n)) with true; [done|].
    symmetry. apply orb_true_iff.
    destruct Hhd; [left; by apply Z.ltb_lt|right; apply Z.geb_le; lia].
  - destruct (applyOne n corrected σ (pos, mag)) as [σ'|]; [|done].
    cbn [mbind result_bind]. by apply IH.
Qed.

(** X9. ApplyCorrections panics, and so returns no codeword, when the
    numbers of positions and magnitudes differ and when any position lies
    outside the received codeword; no field operation can prevent it. *)
Theorem ApplyCorrections_panics (received : nat) (errorPositions : list Z)
    (errorMagnitudes : list E) (σ : gmap nat (list E)) (recv : list E) :
  σ !! received = Some recv ->
  length errorPositions <> length errorMagnitudes
  \/ Exists (fun pos => pos < 0 \/ len recv <= pos) errorPositions ->
  is_ok (ApplyCorrections received errorPositions errorMagnitudes σ) = false.
Proof.
  intros Hrecv Hbad. unfold ApplyCorrections.
  destruct (Z.eqb_spec (len errorPositions) (len errorMagnitudes)) as [Heq|Hne];
    cbn [negb]; [|done].
  destruct Hbad as [Hlen|Hex]; [unfold len in Heq; lia|].
  rewrite Hrecv.
  pose proof (foldM_applyOne_out_of_range (fresh (dom σ)) (len recv)
                (zip errorPositions errorMagnitudes)
                (<[fresh (dom σ) := recv]> σ)) as Hpanic.
  destruct (foldM _ _ _) as [σ2|]; [|done].
  exfalso. enough (is_ok (Ok σ2) = false) by done. apply Hpanic.
  apply Exists_exists in Hex as (pos & Hin & Hpos).
  apply list_elem_of_lookup in Hin as [k Hk].
  destruct (errorMagnitudes !! k) as [mag|] eqn:Hmag.
  - apply Exists_exists. exists (pos, mag). split; [|done].
    apply list_elem_of_lookup. exists k. by apply lookup_zip_with_Some; eauto.
  - apply lookup_ge_None in Hmag. apply lookup_lt_Some in Hk. unfold len in Heq. lia.
Qed.

Hypothesis Sub_returns : forall a b : E, gfpn.Sub a b = Ok (gfpn.valueOf gfpn.Sub a b).

(** The correction loop with distinct positions: each listed position ends
    up holding the old symbol minus its magnitude, every other index is
    untouched. *)
Lemma foldM_applyOne_distinct (corrected : nat) (σ : gmap nat (list E)) (n : Z)
    (pms : list (Z * E)) : forall arr : list E,
  len arr = n ->
  Forall (fun pm => 0 <= fst pm < n) pms ->
  NoDup (fst <$> pms) ->
  exists arr' : list E,
    foldM (applyOne n corrected) pms (<[corrected := arr]> σ)
    = Ok (<[corrected := arr']> σ)
    /\ len arr' = n
    /\ (forall i : nat, Z.of_nat i ∉ (fst <$> pms) -> arr' !! i = arr !! i)
    /\ (forall (pos : Z) (mag old : E), (pos, mag) ∈ pms ->
        arr !! Z.to_nat pos = Some old ->
        arr' !! Z.to_nat pos = Some (gfpn.valueOf gfpn.Sub old mag)).
Proof.
  induction pms as [|[pos mag] pms IH]; intros arr Hlen Hrange Hnd.
  - exists arr. repeat split; [done|]. intros pos mag old Hin. by apply elem_of_nil in Hin.
  - apply Forall_cons in Hrange as [Hpos Hrange]. cbn [fst] in Hpos.
    rewrite fmap_cons in Hnd. cbn [fst] in Hnd. apply NoDup_cons in Hnd as [Hnotin Hnd].
    cbn [foldM applyOne].
    destruct (Z.ltb_spec pos 0); [exfalso; lia|].
    destruct (Z.geb_spec pos n); [exfalso; lia|].
    cbn [orb]. rewrite lookup_insert_eq.
    destruct (index_ok arr pos ltac:(lia)) as (old0 & -> & Hold0).
    cbn [mbind result_bind]. rewrite Sub_returns. cbn [mbind result_bind].
    rewrite setIndex_ok by lia. cbn [mbind result_bind]. rewrite insert_insert_eq.
    destruct (IH (<[Z.to_nat pos := gfpn.valueOf gfpn.Sub old0 mag]> arr))
      as (arr' & Hrun & Hlen' & Hoff & Hat).
    { unfold len in *. by rewrite length_insert. }
    { done. }
    { done. }
    exists arr'. split; [done|]. split; [done|]. split.
    + intros i Hi. rewrite fmap_cons in Hi. cbn [fst] in Hi.
      apply not_elem_of_cons in Hi as [Hne Hi].
      rewrite Hoff by done. apply list_lookup_insert_ne. lia.
    + intros pos' mag' old Hin Hold. apply elem_of_cons in Hin as [[= -> ->]|Hin].
      * rewrite Hoff by (by rewrite Z2Nat.id by lia).
        rewrite list_lookup_insert_eq by (unfold len in *; lia).
        congruence.
      * assert (Hne : pos' <> pos).
        { intros ->. apply Hnotin.
          by apply (list_elem_of_fmap_2 fst) in Hin. }
        assert (Hpos' : 0 <= pos' < n).
        { by apply (proj1 (Forall_forall _ _) Hrange) in Hin. }
        apply (Hat pos' mag' old Hin).
        rewrite list_lookup_insert_ne by lia. done.
Qed.

(** X10. With distinct positions in range, the corrected codeword holds at
    each listed position the received symbol minus the magnitude given for
    that position. *)
Theorem ApplyCorrections_at_positions (received : nat) (errorPositions : list Z)
    (errorMagnitudes : list E) (σ : gmap nat (list E)) (recv : list E) :
  σ !! received = Some recv ->
  length errorPositions = length errorMagnitudes ->
  Forall (fun pos => 0 <= pos < len recv) errorPositions ->
  NoDup errorPositions ->
  exists (corrected : nat) (σ' : gmap nat (list E)) (arr : list E),
    ApplyCorrections received errorPositions errorMagnitudes σ = Ok (corrected, σ')
    /\ σ' !! corrected = Some arr
    /\ forall (k : nat) (pos : Z) (mag old : E),
         errorPositions !! k = Some pos -> errorMagnitudes !! k = Some mag ->
         recv !! Z.to_nat pos = Some old ->
         arr !! Z.to_nat pos = Some (gfpn.valueOf gfpn.Sub old mag).
Proof.
  intros Hrecv Hlen Hrange Hnd. unfold ApplyCorrections.
  replace (len errorPositions =? len errorMagnitudes) with true
    by (symmetry; apply Z.eqb_eq; unfold len; lia).
  cbn [negb]. rewrite Hrecv.
  set (c := fresh (dom σ)).
  destruct (foldM_applyOne_distinct c σ (len recv) (zip errorPositions errorMagnitudes) recv)
    as (arr & Hrun & _ & _ & Hat); [done| | |].
  { apply Forall_forall. intros [pos mag] Hin. cbn [fst].
    apply elem_of_zip_l in Hin. by apply (proj1 (Forall_forall _ _) Hrange). }
  { by rewrite fst_zip by lia. }
  rewrite Hrun. cbn [mbind result_bind].
  exists c, (<[c := arr]> σ), arr. split; [done|]. split; [apply lookup_insert_eq|].
  intros k pos mag old Hk Hm Hold. apply (Hat pos mag old); [|done].
  apply list_elem_of_lookup. exists k. by apply lookup_zip_with_Some; eauto.
Qed.

End CorrectionProperties.

Lemma ApplyCorrections_panics_witness :
  is_ok (correction.ApplyCorrections (F := GF256.Field) 0%nat [3] [Byte.x08]
           {[ 0%nat := [Byte.x08; Byte.x00; Byte.x00] ]}) = false.
Proof.
  apply (ApplyCorrections_panics (F := GF256.Field) 0%nat [3] [Byte.x08]
           {[ 0%nat := [Byte.x08; Byte.x00; Byte.x00] ]} [Byte.x08; Byte.x00; Byte.x00]).
  - reflexivity.
  - right. apply Exists_cons. left. right. unfold len. cbn. lia.
Defined.

Lemma ApplyCorrections_at_positions_witness :
  exists (corrected : nat) (σ' : gmap nat (list Byte.byte)) (arr : list Byte.byte),
    correction.ApplyCorrections (F := GF256.Field) 0%nat [2; 0] [Byte.x05; Byte.x08]
      {[ 0%nat := [Byte.x08; Byte.x00; Byte.x07] ]} = Ok (corrected, σ')
    /\ σ' !! corrected = Some arr
    /\ forall (k : nat) (pos : Z) (mag old : Byte.byte),
         [2; 0] !! k = Some pos -> [Byte.x05; Byte.x08] !! k = Some mag ->
         [Byte.x08; Byte.x00; Byte.x07] !! Z.to_nat pos = Some old ->
         arr !! Z.to_nat pos
         = Some (gfpn.valueOf (gfpn.Sub (Field := GF256.Field)) old mag).
Proof.
  apply (ApplyCorrections_at_positions (F := GF256.Field)).
  - intros a b. reflexivity.
  - reflexivity.
  - reflexivity.
  - repeat constructor; cbn; lia.
  - apply NoDup_cons. split; [|apply NoDup_singleton].
    apply not_elem_of_cons. split; [lia|apply not_elem_of_nil].
Defined.


(** ** qrcode/correction: VerifyCorrection and ExtractMessage *)

Section VerifyProperties.
Context {E : Type} {F : gfpn.Field E}.

Lemma mapM_ext {A B} (f g : A -> result B) (l : list A) :
  (forall x, f x = g x) -> mapM f l = mapM g l.
Proof.
  intros Hfg. induction l as [|x l IH]; [done|].
  cbn [mapM]. by rewrite Hfg, IH.
Qed.

Lemma forallb_IsZero_anyNonZero (syndromes : list E) :
  forallb gfpn.IsZero syndromes = negb (decoder.anyNonZero syndromes).
Proof.
  unfold decoder.anyNonZero. induction syndromes as [|s l IH]; [done|].
  cbn [forallb existsb]. rewrite IH. by destruct (gfpn.IsZero s).
Qed.

(** A Horner loop that fetches its coefficients by index is the Horner loop
    over the fetched coefficients. *)
Lemma horner_indices (c : list E) (y : E) (l : list Z) :
  Forall (fun j => 0 <= j < len c) l ->
  forall acc : E,
    foldM (fun syndrome j => s ← gfpn.Mul syndrome y; x ← index c j; gfpn.Add s x) l acc
    = foldM (fun syndrome r => s ← gfpn.Mul syndrome y; gfpn.Add s r)
            (map (fun j => nth (Z.to_nat j) c gfpn.Zero) l) acc.
Proof.
  induction 1 as [|j l Hj Hl IH]; intros acc; [done|].
  cbn [foldM map]. destruct (gfpn.Mul acc y) as [s|msg]; [|done].
  cbn [mbind result_bind].
  destruct (index_ok c j Hj) as (x & -> & Hx).
  cbn [mbind result_bind]. rewrite nth_lookup, Hx. cbn [default id].
  destruct (gfpn.Add s x) as [s'|msg]; [|done].
  cbn [mbind result_bind]. apply IH.
Qed.

Lemma map_nth_seqZ (c : list E) (d : E) :
  map (fun j => nth (Z.to_nat j) c d) (seqZ 0 (len c)) = c.
Proof.
  apply list_eq. intros i. unfold len.
  change (map ?f ?l) with (f <$> l). rewrite list_lookup_fmap.
  destruct (c !! i) as [x|] eqn:Hi.
  - rewrite (lookup_seqZ_lt _ _ i) by (apply lookup_lt_Some in Hi; lia).
    cbn [fmap option_fmap option_map]. f_equal.
    replace (Z.to_nat (0 + Z.of_nat i)) with i by lia.
    by rewrite nth_lookup, Hi.
  - rewrite lookup_seqZ_ge by (apply lookup_ge_None in Hi; lia). done.
Qed.

Lemma hornerDescending_rev (codeword : list E) (y : E) :
  correction.hornerDescending codeword y = decoder.hornerQR (rev codeword) y.
Proof.
  unfold correction.hornerDescending, decoder.hornerQR.
  rewrite horner_indices.
  - by rewrite map_rev, map_nth_seqZ.
  - apply Forall_forall. intros j Hj. apply list_elem_of_In, in_rev, list_elem_of_In in Hj.
    apply elem_of_seqZ in Hj. lia.
Qed.

(** X11. Whatever the field implementation does, VerifyCorrection on a
    codeword is the corrector's computeSyndromes on the reversed codeword
    (the same field calls in the same order, so also the same panics), and
    its flag is true exactly when no syndrome is non-zero: the two packages
    differ only in which end of the slice holds the highest coefficient. *)
Theorem VerifyCorrection_computeSyndromes_rev (codeword : list E) (numSyndromes : Z) :
  correction.VerifyCorrection codeword numSyndromes
  = (syndromes ← decoder.computeSyndromes (rev codeword) numSyndromes;
     Ok (syndromes, negb (decoder.anyNonZero syndromes))).
Proof.
  unfold correction.VerifyCorrection, decoder.computeSyndromes.
  destruct (numSyndromes <? 0); [done|].
  rewrite (mapM_ext _ (fun i => alphaToI ← decoder.alphaTo i;
                                 decoder.hornerQR (rev codeword) alphaToI)).
  - destruct (mapM _ _) as [syndromes|msg]; [|done].
    cbn [mbind result_bind]. by rewrite forallb_IsZero_anyNonZero.
  - intros i. unfold decoder.alphaTo.
    destruct (foldM _ _ _) as [a|msg]; [|done].
    cbn [mbind result_bind]. apply hornerDescending_rev.
Qed.

(** X12. ExtractMessage recovers a non-empty message from a systematic
    codeword, with the parity symbols in front of the message or behind
    it, whatever the parity symbols are. *)
Theorem ExtractMessage_systematic (parity message : list E) :
  message <> [] ->
  correction.ExtractMessage (parity ++ message) (len message) true = Ok message
  /\ correction.ExtractMessage (message ++ parity) (len message) false = Ok message.
Proof.
  intros Hne. unfold correction.ExtractMessage, len.
  assert (0 < length message)%nat by (destruct message; [done|cbn; lia]).
  rewrite !length_app.
  destruct (Z.leb_spec (Z.of_nat (length message)) 0); [exfalso; lia|].
  split.
  - destruct (Z.gtb_spec (Z.of_nat (length message))
                (Z.of_nat (length parity + length message))); [exfalso; lia|].
    cbn [orb]. f_equal.
    replace (Z.to_nat (Z.of_nat (length parity + length message)
                       - Z.of_nat (length message))) with (length parity) by lia.
    rewrite drop_app_length, Nat2Z.id. apply firstn_all.
  - destruct (Z.gtb_spec (Z.of_nat (length message))
                (Z.of_nat (length message + length parity))); [exfalso; lia|].
    cbn [orb]. f_equal. rewrite Nat2Z.id, take_take, Nat.min_id.
    by rewrite take_app_length.
Qed.

(** X13. ExtractMessage returns exactly when 0 < messageLength <= the
    codeword length, and what it returns then has messageLength symbols and
    occurs in the codeword as its end (parity in front) or as its
    beginning. *)
Theorem ExtractMessage_returns (codeword : list E) (messageLength : Z)
    (parityAtBeginning : bool) :
  (0 < messageLength <= len codeword ->
   exists (message rest : list E),
     correction.ExtractMessage codeword messageLength parityAtBeginning = Ok message
     /\ len message = messageLength
     /\ codeword = if parityAtBeginning then rest ++ message else message ++ rest)
  /\ (~ 0 < messageLength <= len codeword ->
      is_ok (correction.ExtractMessage codeword messageLength parityAtBeginning) = false).
Proof.
  unfold correction.ExtractMessage, len. split; intros Hk.
  - destruct (Z.leb_spec messageLength 0); [exfalso; lia|].
    destruct (Z.gtb_spec messageLength (Z.of_nat (length codeword))); [exfalso; lia|].
    cbn [orb]. destruct parityAtBeginning.
    + set (pl := Z.to_nat (Z.of_nat (length codeword) - messageLength)).
      exists (take (Z.to_nat messageLength) (drop pl codeword)), (take pl codeword).
      assert (Hall : take (Z.to_nat messageLength) (drop pl codeword) = drop pl codeword).
      { apply take_ge. rewrite length_drop. lia. }
      split; [done|]. rewrite Hall. split.
      * rewrite length_drop. lia.
      * by rewrite take_drop.
    + exists (take (Z.to_nat messageLength) codeword), (drop (Z.to_nat messageLength) codeword).
      rewrite take_take, Nat.min_id. split; [done|]. split.
      * rewrite length_take. lia.
      * by rewrite take_drop.
  - destruct (Z.leb_spec messageLength 0); [done|].
    destruct (Z.gtb_spec messageLength (Z.of_nat (length codeword))); [done|].
    exfalso. lia.
Qed.

End VerifyProperties.

Lemma ExtractMessage_returns_witness :
  exists (message rest : list Byte.byte),
    correction.ExtractMessage [Byte.x0a; Byte.x0b; Byte.x01; Byte.x02; Byte.x03] 3 true
    = Ok message
    /\ len message = 3
    /\ [Byte.x0a; Byte.x0b; Byte.x01; Byte.x02; Byte.x03] = rest ++ message.
Proof.
  apply (proj1 (ExtractMessage_returns
                  [Byte.x0a; Byte.x0b; Byte.x01; Byte.x02; Byte.x03] 3 true)).
  unfold len. cbn. lia.
Defined.

Lemma ExtractMessage_systematic_witness :
  correction.ExtractMessage ([Byte.x0a; Byte.x0b] ++ [Byte.x01; Byte.x02; Byte.x03])
    (len [Byte.x01; Byte.x02; Byte.x03]) true = Ok [Byte.x01; Byte.x02; Byte.x03]
  /\ correction.ExtractMessage ([Byte.x01; Byte.x02; Byte.x03] ++ [Byte.x0a; Byte.x0b])
       (len [Byte.x01; Byte.x02; Byte.x03]) false = Ok [Byte.x01; Byte.x02; Byte.x03].
Proof.
  apply (ExtractMessage_systematic [Byte.x0a; Byte.x0b] [Byte.x01; Byte.x02; Byte.x03]).
  discriminate.
Defined.


(** ** qrcode/decoder: reinterleaveBlocks *)

Section Reinterleave.

Lemma flat_map_fmap {A B C} (g : A -> B) (f : B -> list C) (l : list A) :
  flat_map f (g <$> l) = flat_map (fun a => f (g a)) l.
Proof. induction l as [|a l IH]; [done|]. cbn. by rewrite IH. Qed.

Lemma flat_map_seqZ_nat {A} (f : Z -> list A) (n : nat) :
  flat_map f (seqZ 0 (Z.of_nat n)) = flat_map (fun i => f (Z.of_nat i)) (seq 0 n).
Proof.
  unfold seqZ. rewrite Nat2Z.id, flat_map_fmap.
  apply flat_map_ext. intros i. f_equal. lia.
Qed.

Lemma flat_map_nil_const {A B} (l : list A) : flat_map (fun _ => @nil B) l = [].
Proof. by induction l. Qed.

Lemma flat_map_app_Permutation {A B} (f g : A -> list B) (l : list A) :
  flat_map (fun a => f a ++ g a) l ≡ₚ flat_map f l ++ flat_map g l.
Proof.
  induction l as [|a l IH]; [done|]. cbn. rewrite IH.
  rewrite <- !app_assoc. apply Permutation_app_head.
  rewrite !app_assoc. apply Permutation_app_tail, Permutation_app_comm.
Qed.

(** Reading a block index by index gives the block back. *)
Lemma flat_map_lookup_take {A} (b : list A) (n : nat) :
  flat_map (fun i => match b !! i with Some x => [x] | None => [] end) (seq 0 n)
  = take n b.
Proof.
  induction n as [|n IH]; [done|].
  rewrite seq_S, flat_map_app, IH. cbn [flat_map]. rewrite app_nil_r, Nat.add_0_l.
  destruct (b !! n) as [x|] eqn:Hn.
  - by rewrite (take_S_r _ _ x).
  - apply lookup_ge_None in Hn. rewrite app_nil_r, !take_ge by lia. done.
Qed.

(** The running maximum of [reinterleaveBlocks] bounds every block. *)
Lemma maxBlockSize_bound (blocks : list (list Z)) : forall m : Z,
  let M := fold_left (fun m block => if len block >? m then len block else m) blocks m in
  m <= M /\ Forall (fun block => len block <= M) blocks.
Proof.
  induction blocks as [|b bs IH]; intros m; cbn [fold_left].
  - split; [lia|constructor].
  - destruct (IH (if len b >? m then len b else m)) as [Hm Hbs].
    assert (m <= (if len b >? m then len b else m)
            /\ len b <= (if len b >? m then len b else m))
      by (destruct (Z.gtb_spec (len b) m); lia).
    split; [lia|]. constructor; [lia|done].
Qed.

Lemma columns_Permutation (blocks : list (list Z)) (n : nat) :
  Forall (fun block => (length block <= n)%nat) blocks ->
  flat_map (fun i =>
              flat_map (fun block : list Z =>
                          match block !! i with Some x => [x] | None => [] end) blocks)
           (seq 0 n)
  ≡ₚ concat blocks.
Proof.
  induction 1 as [|b bs Hb Hbs IH]; cbn [flat_map concat].
  - by rewrite flat_map_nil_const.
  - rewrite flat_map_app_Permutation, IH, flat_map_lookup_take, take_ge by lia. done.
Qed.

Lemma reinterleaveBlocks_Permutation_concat (blocks : list (list Z)) :
  decoder.reinterleaveBlocks blocks ≡ₚ concat blocks.
Proof.
  unfold decoder.reinterleaveBlocks.
  destruct (maxBlockSize_bound blocks 0) as [H0 Hall]. cbv zeta in H0, Hall.
  set (M := fold_left _ blocks 0) in *.
  rewrite <- (Z2Nat.id M) by done. rewrite flat_map_seqZ_nat.
  erewrite flat_map_ext; [apply columns_Permutation|].
  - eapply Forall_impl; [exact Hall|]. intros b Hb. unfold len in Hb. cbv beta in Hb. lia.
  - intros i. cbv beta. by rewrite Nat2Z.id.
Qed.

(** X14. reinterleaveBlocks neither drops nor repeats a codeword: its
    output is a rearrangement of the blocks laid end to end, whatever the
    block lengths. *)
Theorem reinterleaveBlocks_Permutation (blocks : list (list Z)) :
  decoder.reinterleaveBlocks blocks ≡ₚ concat blocks.
Proof. apply reinterleaveBlocks_Permutation_concat. Qed.

End Reinterleave.


(** ** qrcode/decoder: what correctBlock, CorrectCodewords and Decode return *)

Section DecoderInvariants.
Context {E : Type} {F : gfpn.Field E}.
Variable alphaPowers : list E.
Variable stages : Stages E.

Lemma mapM_length {A B} (f : A -> result B) (l : list A) : forall l' : list B,
  mapM f l = Ok l' -> length l' = length l.
Proof.
  induction l as [|x l IH]; intros l' Hl'; cbn [mapM] in Hl'.
  - by injection Hl' as <-.
  - destruct (f x) as [y|]; [|done]. cbn [mbind result_bind] in Hl'.
    destruct (mapM f l) as [ys|]; [|done]. cbn [mbind result_bind] in Hl'.
    injection Hl' as <-. cbn [length]. by rewrite (IH ys).
Qed.

Lemma correctBlock_cases (block : list Z) (ec idx : Z) (data : list Z)
    (br : decoder.BlockResult) (err : option error) :
  decoder.correctBlock alphaPowers stages block ec idx = Ok (data, br, err) ->
  match err with
  | None => corrected_block ec block idx data br
  | Some e =>
    decoder.BlockIndex br = idx
    /\ decoder.NumDataCodewords br = len block - ec
    /\ decoder.NumECCodewords br = ec
    /\ decoder.ErrorsFound br = len (decoder.ErrorPositions br)
    /\ decoder.CorrectionSucceeded br = false
    /\ data = []
    /\ (e = ErrorfInts "too many errors: found %d, can correct %d"
              [decoder.ErrorsFound br; Z.quot ec 2]
        /\ decoder.ErrorsFound br > Z.quot ec 2
        \/ e = Errorf "correction verification failed"
           /\ decoder.ErrorsFound br <= Z.quot ec 2)
  end.
Proof.
  unfold decoder.correctBlock, corrected_block. intros H.
  destruct (mapM _ block) as [received|]; [|done]. cbn [mbind result_bind] in H.
  destruct (decoder.computeSyndromes received ec) as [syndromes|] eqn:Hsyn; [|done].
  cbn [mbind result_bind] in H.
  assert (Hec : 0 <= ec).
  { unfold decoder.computeSyndromes in Hsyn.
    destruct (Z.ltb_spec ec 0); [done|lia]. }
  assert (Hq : 0 <= Z.quot ec 2) by (apply Z.quot_pos; lia).
  destruct (decoder.anyNonZero syndromes); cbn [negb] in H.
  - destruct (BerlekampMassey stages syndromes) as [lambda|]; [|done].
    cbn [mbind result_bind] in H.
    destruct (ComputeOmega stages syndromes lambda) as [omega|]; [|done].
    cbn [mbind result_bind] in H.
    destruct (ChienSearch stages lambda (len block)) as [positions|]; [|done].
    cbn [mbind result_bind] in H.
    destruct (Z.gtb_spec (len positions) (Z.quot ec 2)) as [Hmany|Hfew].
    { injection H as <- <- <-. cbn. repeat split; try done. left. split; [done|lia]. }
    destruct (ComputeErrorMagnitudes stages lambda omega positions) as [magnitudes|];
      [|done].
    cbn [mbind result_bind] in H.
    destruct (correction.ApplyCorrections_slice _ _ _) as [corrected|]; [|done].
    cbn [mbind result_bind] in H.
    destruct (decoder.computeSyndromes corrected ec) as [verify|]; [|done].
    cbn [mbind result_bind] in H.
    destruct (decoder.anyNonZero verify).
    { injection H as <- <- <-. cbn. repeat split; try done. by right. }
    destruct (make 0 (len block - ec)) as [buf|] eqn:Hbuf; [|done].
    cbn [mbind result_bind] in H.
    destruct (mapM _ (seqZ 0 (len block - ec))) as [bytes|] eqn:Hbytes; [|done].
    cbn [mbind result_bind] in H. injection H as <- <- <-. cbn.
    repeat split; try done.
    apply mapM_length in Hbytes. rewrite length_seqZ in Hbytes.
    unfold make in Hbuf. destruct (Z.ltb_spec (len block - ec) 0); [done|].
    unfold len in *. lia.
  - destruct (sliceTo block (len block - ec)) as [d|] eqn:Hslice; [|done].
    cbn [mbind result_bind] in H. injection H as <- <- <-. cbn.
    repeat split; try done.
    unfold sliceTo in Hslice.
    destruct (Z.ltb_spec (len block - ec) 0); [done|].
    destruct (Z.gtb_spec (len block - ec) (Z.of_nat (length block))); [done|].
    cbn [orb] in Hslice. injection Hslice as <-.
    unfold len in *. rewrite length_take. lia.
Qed.

(** X15. Whatever the four stage functions and the field do, a return of
    correctBlock is of one of two shapes. Without error: the result is
    marked as succeeded, the data has [len block - numECCodewords] bytes,
    and at most [numECCodewords / 2] errors are reported. With an error: no
    data, the result is marked as failed, and the error is either "too many
    errors" (more positions than [numECCodewords / 2]) or "correction
    verification failed". In both, the result carries the block index and
    the two counts, and ErrorsFound is the number of listed positions. *)
Theorem correctBlock_result_shape (block : list Z) (ec idx : Z) (data : list Z)
    (br : decoder.BlockResult) (err : option error) :
  decoder.correctBlock alphaPowers stages block ec idx = Ok (data, br, err) ->
  decoder.BlockIndex br = idx
  /\ decoder.NumDataCodewords br = len block - ec
  /\ decoder.NumECCodewords br = ec
  /\ decoder.ErrorsFound br = len (decoder.ErrorPositions br)
  /\ match err with
     | None =>
       decoder.CorrectionSucceeded br = true
       /\ len data = len block - ec
       /\ decoder.ErrorsFound br <= Z.quot ec 2
     | Some e =>
       decoder.CorrectionSucceeded br = false
       /\ data = []
       /\ (e = ErrorfInts "too many errors: found %d, can correct %d"
                 [decoder.ErrorsFound br; Z.quot ec 2]
           /\ decoder.ErrorsFound br > Z.quot ec 2
           \/ e = Errorf "correction verification failed"
              /\ decoder.ErrorsFound br <= Z.quot ec 2)
     end.
Proof.
  intros H. apply correctBlock_cases in H. destruct err as [e|].
  - tauto.
  - unfold corrected_block in H. tauto.
Qed.

(** The loop over the blocks: with an error nothing is returned; without,
    one corrected block and one result were appended per block. *)
Lemma correctBlocks_cases (ec : Z) (blocks : list (list Z)) :
  forall (i : Z) (cbs : list (list Z)) (brs : list decoder.BlockResult)
         (cbs' : list (list Z)) (brs' : list decoder.BlockResult) (err : option error),
  decoder.correctBlocks alphaPowers stages ec blocks i cbs brs = Ok (cbs', brs', err) ->
  match err with
  | Some _ => cbs' = [] /\ brs' = []
  | None =>
    exists (newc : list (list Z)) (newr : list decoder.BlockResult),
      cbs' = cbs ++ newc /\ brs' = brs ++ newr
      /\ length newc = length blocks /\ length newr = length blocks
      /\ forall (k : nat) (block : list Z),
           blocks !! k = Some block ->
           exists data br, newc !! k = Some data /\ newr !! k = Some br
                           /\ corrected_block ec block (i + Z.of_nat k) data br
  end.
Proof.
  induction blocks as [|block rest IH]; intros i cbs brs cbs' brs' err H;
    cbn [decoder.correctBlocks] in H.
  - injection H as <- <- <-. exists [], []. rewrite !app_nil_r.
    repeat split; try done.
  - destruct (decoder.correctBlock alphaPowers stages block ec i)
      as [[[data br] [e|]]|] eqn:Hblock; cbn [mbind result_bind] in H; [| |done].
    + by injection H as <- <- <-.
    + apply correctBlock_cases in Hblock. apply IH in H.
      destruct err as [e|]; [done|].
      destruct H as (newc & newr & -> & -> & Hlc & Hlr & Hall).
      exists (data :: newc), (br :: newr). rewrite <- !app_assoc. cbn [app length].
      repeat split; try done; try lia.
      intros [|k] blk Hk; cbn in Hk.
      * injection Hk as <-. exists data, br. by rewrite Z.add_0_r.
      * destruct (Hall k blk Hk) as (d' & r' & Hd & Hr & Hgood).
        exists d', r'. split; [done|]. split; [done|].
        replace (i + Z.of_nat (S k)) with (i + 1 + Z.of_nat k) by lia. done.
Qed.

Lemma CorrectCodewords_cases (qrData : decoder.QRCodeData) (data : list Z)
    (brs : list decoder.BlockResult) (err : option error) :
  decoder.CorrectCodewords alphaPowers stages qrData = Ok (data, brs, err) ->
  match err with
  | Some _ => data = [] /\ brs = []
  | None =>
    exists (blocks corrected : list (list Z)),
      decoder.deinterleaveBlocks (decoder.RawCodewords qrData)
        (decoder.ECBlocksForLevel qrData) = Ok blocks
      /\ data ≡ₚ concat corrected
      /\ length corrected = length blocks /\ length brs = length blocks
      /\ forall (k : nat) (block : list Z),
           blocks !! k = Some block ->
           exists d br, corrected !! k = Some d /\ brs !! k = Some br
             /\ corrected_block
                  (decoder.ecCodewordsPerBlock (decoder.ECBlocksForLevel qrData))
                  block (Z.of_nat k) d br
  end.
Proof.
  unfold decoder.CorrectCodewords. intros H.
  destruct (decoder.deinterleaveBlocks _ _) as [blocks|]; [|done].
  cbn [mbind result_bind] in H.
  destruct (decoder.correctBlocks _ _ _ _ _ _ _) as [[[cbs' brs'] e]|] eqn:Hloop; [|done].
  cbn [mbind result_bind] in H. apply correctBlocks_cases in Hloop.
  destruct e as [e|].
  - by injection H as <- <- <-.
  - injection H as <- <- <-.
    destruct Hloop as (newc & newr & -> & -> & Hlc & Hlr & Hall).
    exists blocks, newc. cbn [app].
    repeat split; try done. apply reinterleaveBlocks_Permutation_concat.
Qed.

(** X16. When CorrectCodewords returns an error it returns neither data nor
    block results. When it returns without error, every block of the
    de-interleaved input has its BlockResult, in block order, each marked
    as succeeded with its own index, and the data is a rearrangement of
    the corrected blocks, block k contributing [len block - ec] bytes. *)
Theorem CorrectCodewords_result_shape (qrData : decoder.QRCodeData) (data : list Z)
    (brs : list decoder.BlockResult) (err : option error) :
  decoder.CorrectCodewords alphaPowers stages qrData = Ok (data, brs, err) ->
  match err with
  | Some _ => data = [] /\ brs = []
  | None =>
    exists (blocks corrected : list (list Z)),
      decoder.deinterleaveBlocks (decoder.RawCodewords qrData)
        (decoder.ECBlocksForLevel qrData) = Ok blocks
      /\ data ≡ₚ concat corrected
      /\ length corrected = length blocks /\ length brs = length blocks
      /\ forall (k : nat) (block : list Z),
           blocks !! k = Some block ->
           exists d br, corrected !! k = Some d /\ brs !! k = Some br
             /\ decoder.BlockIndex br = Z.of_nat k
             /\ decoder.CorrectionSucceeded br = true
             /\ len d
                = len block - decoder.ecCodewordsPerBlock (decoder.ECBlocksForLevel qrData)
  end.
Proof.
  intros H. apply CorrectCodewords_cases in H. destruct err as [e|]; [done|].
  destruct H as (blocks & corrected & Hd & Hperm & Hlc & Hlr & Hall).
  exists blocks, corrected. repeat split; try done.
  intros k block Hk. destruct (Hall k block Hk) as (d & br & Hc & Hr & Hgood).
  exists d, br. unfold corrected_block in Hgood. tauto.
Qed.

(** X17. Decode never returns a result together with an error, and never a
    result marked as unsuccessful: it returns either an error alone, or a
    result alone whose blocks all succeeded, each with its index, and whose
    error count is the sum over the blocks. The branch that would report a
    failed block with its diagnostics cannot be taken. *)
Theorem Decode_result_or_error (qrData : decoder.QRCodeData)
    (res : option decoder.DecodeResult) (err : option error) :
  decoder.Decode alphaPowers stages qrData = Ok (res, err) ->
  match res, err with
  | Some r, None =>
    decoder.CorrectionSuccessful r = true
    /\ Forall (fun br => decoder.CorrectionSucceeded br = true) (decoder.BlockResults r)
    /\ (forall (k : nat) (br : decoder.BlockResult),
          decoder.BlockResults r !! k = Some br -> decoder.BlockIndex br = Z.of_nat k)
    /\ decoder.NumErrorsCorrected r
       = fold_left (fun t br => t + decoder.ErrorsFound br) (decoder.BlockResults r) 0
    /\ decoder.AllErrorPositions r
       = flat_map decoder.ErrorPositions (decoder.BlockResults r)
  | None, Some _ => True
  | _, _ => False
  end.
Proof.
  unfold decoder.Decode. intros H.
  destruct (decoder.CorrectCodewords alphaPowers stages qrData)
    as [[[data brs] e]|] eqn:Hcc; [|done].
  cbn [mbind result_bind] in H. apply CorrectCodewords_cases in Hcc.
  destruct e as [e|]; [by injection H as <- <-|].
  destruct Hcc as (blocks & corrected & _ & _ & _ & Hlr & Hall).
  assert (Hgood : forall (k : nat) (br : decoder.BlockResult),
            brs !! k = Some br ->
            decoder.BlockIndex br = Z.of_nat k /\ decoder.CorrectionSucceeded br = true).
  { intros k br Hk.
    destruct (blocks !! k) as [block|] eqn:Hb.
    - destruct (Hall k block Hb) as (d & br' & _ & Hr & Hg).
      rewrite Hk in Hr. injection Hr as <-. unfold corrected_block in Hg. tauto.
    - apply lookup_ge_None in Hb. apply lookup_lt_Some in Hk. lia. }
  assert (Hsucc : forallb decoder.CorrectionSucceeded brs = true).
  { apply forallb_forall. intros br Hin. apply list_elem_of_In in Hin.
    apply list_elem_of_lookup in Hin as [k Hk]. by apply (Hgood k). }
  rewrite Hsucc in H. cbn [negb] in H.
  destruct (DataDecoder.Decode data) as [message [e|]].
  - by injection H as <- <-.
  - injection H as <- <-. cbn. repeat split; try done.
    + apply Forall_forall. intros br Hin. apply list_elem_of_lookup in Hin as [k Hk].
      by apply (Hgood k).
    + intros k br Hk. by apply (Hgood k).
Qed.

End DecoderInvariants.


Lemma correctBlock_result_shape_witness :
  decoder.BlockIndex (cleanResult 5) = 5
  /\ decoder.NumDataCodewords (cleanResult 5) = len [0; 0; 0] - 2
  /\ decoder.NumECCodewords (cleanResult 5) = 2
  /\ decoder.ErrorsFound (cleanResult 5) = len (decoder.ErrorPositions (cleanResult 5))
  /\ decoder.CorrectionSucceeded (cleanResult 5) = true
  /\ len [0] = len [0; 0; 0] - 2
  /\ decoder.ErrorsFound (cleanResult 5) <= Z.quot 2 2.
Proof.
  apply (correctBlock_result_shape (F := GF256.Field) GF256.alphaPowers
           (shippedStages Byte.byte) [0; 0; 0] 2 5 [0] (cleanResult 5) None).
  vm_compute. reflexivity.
Defined.

Lemma CorrectCodewords_result_shape_witness :
  exists (blocks corrected : list (list Z)),
    decoder.deinterleaveBlocks (decoder.RawCodewords zeroBlocks)
      (decoder.ECBlocksForLevel zeroBlocks) = Ok blocks
    /\ [0; 0] ≡ₚ concat corrected
    /\ length corrected = length blocks
    /\ length [cleanResult 0; cleanResult 1] = length blocks
    /\ forall (k : nat) (block : list Z),
         blocks !! k = Some block ->
         exists d br, corrected !! k = Some d
           /\ [cleanResult 0; cleanResult 1] !! k = Some br
           /\ decoder.BlockIndex br = Z.of_nat k
           /\ decoder.CorrectionSucceeded br = true
           /\ len d
              = len block - decoder.ecCodewordsPerBlock (decoder.ECBlocksForLevel zeroBlocks).
Proof.
  apply (CorrectCodewords_result_shape (F := GF256.Field) GF256.alphaPowers
           (shippedStages Byte.byte) zeroBlocks [0; 0]
           [cleanResult 0; cleanResult 1] None).
  vm_compute. reflexivity.
Defined.

Lemma Decode_result_or_error_witness :
  let r := {| decoder.Message := "";
              decoder.CorrectionSuccessful := true;
              decoder.NumErrorsCorrected := 0;
              decoder.AllErrorPositions := [];
              decoder.BlockResults := [cleanResult 0; cleanResult 1] |} in
  decoder.CorrectionSuccessful r = true
  /\ Forall (fun br => decoder.CorrectionSucceeded br = true) (decoder.BlockResults r)
  /\ (forall (k : nat) (br : decoder.BlockResult),
        decoder.BlockResults r !! k = Some br -> decoder.BlockIndex br = Z.of_nat k)
  /\ decoder.NumErrorsCorrected r
     = fold_left (fun t br => t + decoder.ErrorsFound br) (decoder.BlockResults r) 0
  /\ decoder.AllErrorPositions r
     = flat_map decoder.ErrorPositions (decoder.BlockResults r).
Proof.
  intros r.
  apply (Decode_result_or_error (F := GF256.Field) GF256.alphaPowers
           (shippedStages Byte.byte) zeroBlocks (Some r) None).
  vm_compute. reflexivity.
Defined.


(** ** qrcode/decoder: byteToElement and elementToByte *)

Section ByteElement.
Context {E : Type} {F : gfpn.Field E}.
Variable alphaPowers : list E.

(** The search of [elementToByte] from the candidate [b0] on. *)
Lemma elementToByte_loop_first (elem : E) (fuel : nat) : forall b0 b : Z,
  1 <= b0 <= 256 -> Z.of_nat fuel = 256 - b0 ->
  decoder.elementToByte_loop alphaPowers fuel (b0 mod 256) elem = Ok b ->
  (b = 0 \/ (b0 <= b < 256
             /\ exists e, decoder.byteToElement alphaPowers b = Ok e
                          /\ gfpn.String e = gfpn.String elem))
  /\ forall b' : Z, b0 <= b' < (if b =? 0 then 256 else b) ->
       exists e', decoder.byteToElement alphaPowers b' = Ok e'
                  /\ gfpn.String e' <> gfpn.String elem.
Proof.
  induction fuel as [|fuel IH]; intros b0 b Hb0 Hfuel H.
  - cbn in H. injection H as <-. split; [by left|]. cbn. intros b' Hb'. lia.
  - cbn [decoder.elementToByte_loop] in H.
    assert (Hmod : b0 mod 256 = b0) by (apply Z.mod_small; lia).
    rewrite Hmod in H.
    destruct (decoder.byteToElement alphaPowers b0) as [e|] eqn:He; [|done].
    cbn [mbind result_bind] in H.
    destruct (String.eqb_spec (gfpn.String e) (gfpn.String elem)) as [Heq|Hne].
    + injection H as <-. split.
      * right. split; [lia|]. by exists e.
      * destruct (Z.eqb_spec b0 0); intros b' Hb'; lia.
    + apply (IH (b0 + 1) b) in H as [Hb Hbefore]; [|lia|lia].
      split.
      * destruct Hb as [->|[Hrange Hex]]; [by left|]. right. split; [lia|done].
      * intros b' Hb'. destruct (Z.eq_dec b' b0) as [->|Hnext].
        -- by exists e.
        -- apply Hbefore. destruct (b =? 0); lia.
Qed.

(** X18. What elementToByte returns is a byte. It is 0 when the element is
    zero; otherwise it is the first byte from 1 on whose element prints as
    the given one, every smaller byte from 1 on printing differently, and
    it is 0 when no byte from 1 to 255 prints as the given element. *)
Theorem elementToByte_first_match (elem : E) (b : Z) :
  decoder.elementToByte alphaPowers elem = Ok b ->
  0 <= b < 256
  /\ (gfpn.IsZero elem = true -> b = 0)
  /\ (gfpn.IsZero elem = false ->
      (b = 0 \/ exists e, decoder.byteToElement alphaPowers b = Ok e
                          /\ gfpn.String e = gfpn.String elem)
      /\ forall b' : Z, 1 <= b' < (if b =? 0 then 256 else b) ->
           exists e', decoder.byteToElement alphaPowers b' = Ok e'
                      /\ gfpn.String e' <> gfpn.String elem).
Proof.
  unfold decoder.elementToByte. intros H.
  destruct (gfpn.IsZero elem).
  - injection H as <-. split; [lia|]. split; [done|]. intros; discriminate.
  - change 1 with (1 mod 256) in H.
    apply (elementToByte_loop_first elem 255 1 b) in H as [Hb Hbefore]; [|lia|lia].
    split; [destruct Hb as [->|[? _]]; lia|]. split; [intros; discriminate|].
    intros _. split; [|done].
    destruct Hb as [->|[_ Hex]]; [by left|by right].
Qed.

(** The bytes whose elements are given by [enc], printing differently for
    different bytes. *)
Hypothesis enc : Z -> E.
Hypothesis byteToElement_enc : forall b : Z,
  0 <= b < 256 -> decoder.byteToElement alphaPowers b = Ok (enc b).
Hypothesis String_enc_inj : forall b b' : Z,
  0 <= b < 256 -> 0 <= b' < 256 ->
  gfpn.String (enc b) = gfpn.String (enc b') -> b = b'.

Lemma elementToByte_loop_enc (t : Z) (fuel : nat) : forall b0 : Z,
  0 <= t < 256 -> 1 <= b0 <= 256 -> Z.of_nat fuel = 256 - b0 ->
  t = 0 \/ b0 <= t ->
  decoder.elementToByte_loop alphaPowers fuel (b0 mod 256) (enc t) = Ok t.
Proof.
  induction fuel as [|fuel IH]; intros b0 Ht Hb0 Hfuel Hfrom.
  - cbn. f_equal. lia.
  - cbn [decoder.elementToByte_loop].
    assert (Hmod : b0 mod 256 = b0) by (apply Z.mod_small; lia).
    rewrite Hmod, byteToElement_enc by lia. cbn [mbind result_bind].
    destruct (String.eqb_spec (gfpn.String (enc b0)) (gfpn.String (enc t))) as [Heq|Hne].
    + f_equal. apply String_enc_inj; [lia|lia|done].
    + apply IH; [lia|lia|lia|].
      destruct Hfrom as [->|Hle]; [by left|]. right.
      destruct (Z.eq_dec b0 t) as [->|]; [done|lia].
Qed.

(** X19. Round trip: when byteToElement returns for every byte, bytes that
    differ give elements that print differently, and no byte but 0 gives an
    element that IsZero accepts, elementToByte gives back the byte that
    byteToElement was given. *)
Theorem elementToByte_byteToElement (b : Z) :
  (forall b' : Z, 0 <= b' < 256 -> gfpn.IsZero (enc b') = true -> b' = 0) ->
  0 <= b < 256 ->
  exists e : E,
    decoder.byteToElement alphaPowers b = Ok e
    /\ decoder.elementToByte alphaPowers e = Ok b.
Proof.
  intros Hzero Hb. exists (enc b). split; [by apply byteToElement_enc|].
  unfold decoder.elementToByte.
  destruct (gfpn.IsZero (enc b)) eqn:Hz.
  - f_equal. symmetry. by apply Hzero.
  - change 1 with (1 mod 256). apply elementToByte_loop_enc; lia.
Qed.

End ByteElement.

(** A property of every byte, checked on the list of all bytes. *)
Lemma byte_range_forallb (P : Z -> bool) :
  forallb P (seqZ 0 256) = true -> forall b : Z, 0 <= b < 256 -> P b = true.
Proof.
  intros H b Hb. apply (proj1 (forallb_forall P (seqZ 0 256)) H).
  apply list_elem_of_In, elem_of_seqZ. lia.
Qed.

Lemma elementToByte_first_match_witness :
  0 <= 65 < 256
  /\ (gfpn.IsZero (Field := GF256.Field) Byte.x41 = true -> 65 = 0)
  /\ (gfpn.IsZero (Field := GF256.Field) Byte.x41 = false ->
      (65 = 0 \/ exists e, decoder.byteToElement (F := GF256.Field) GF256.alphaPowers 65 = Ok e
                           /\ gfpn.String (Field := GF256.Field) e
                              = gfpn.String (Field := GF256.Field) Byte.x41)
      /\ forall b' : Z, 1 <= b' < (if 65 =? 0 then 256 else 65) ->
           exists e', decoder.byteToElement (F := GF256.Field) GF256.alphaPowers b' = Ok e'
                      /\ gfpn.String (Field := GF256.Field) e'
                         <> gfpn.String (Field := GF256.Field) Byte.x41).
Proof.
  apply (elementToByte_first_match (F := GF256.Field) GF256.alphaPowers Byte.x41 65).
  vm_compute. reflexivity.
Defined.

Lemma elementToByte_byteToElement_witness :
  exists e : Byte.byte,
    decoder.byteToElement (F := GF256.Field) GF256.alphaPowers 65 = Ok e
    /\ decoder.elementToByte (F := GF256.Field) GF256.alphaPowers e = Ok 65.
Proof.
  apply (elementToByte_byteToElement (F := GF256.Field) GF256.alphaPowers
           (fun b => GF256.ofN (Z.to_N b))).
  - intros b Hb.
    apply (byte_range_forallb
             (fun b => match decoder.byteToElement (F := GF256.Field) GF256.alphaPowers b with
                       | Ok e => Byte.eqb e (GF256.ofN (Z.to_N b))
                       | Panic _ => false
                       end)) in Hb; [|vm_compute; reflexivity].
    destruct (decoder.byteToElement GF256.alphaPowers b) as [e|]; [|done].
    f_equal. by apply Byte.byte_dec_bl.
  - intros b b' Hb Hb' Heq.
    apply (byte_range_forallb
             (fun b => forallb (fun b' =>
                implb (String.eqb (gfpn.String (Field := GF256.Field) (GF256.ofN (Z.to_N b)))
                                  (gfpn.String (Field := GF256.Field) (GF256.ofN (Z.to_N b'))))
                      (b =? b')) (seqZ 0 256))) in Hb; [|vm_compute; reflexivity].
    apply (byte_range_forallb _ Hb) in Hb'.
    apply String.eqb_eq in Heq. rewrite Heq in Hb'. by apply Z.eqb_eq.
  - intros b Hb Hz.
    apply (byte_range_forallb
             (fun b => implb (gfpn.IsZero (Field := GF256.Field) (GF256.ofN (Z.to_N b)))
                             (b =? 0))) in Hb; [|vm_compute; reflexivity].
    rewrite Hz in Hb. by apply Z.eqb_eq.
  - lia.
Defined.

(** ** exercises/4-gfpoly: polynomials *)

Section GfpolyNormalize.
Context {E : Type} {F : gfpn.Field E}.

Lemma normalize_snoc (l : list E) (c : E) :
  gfpoly.normalize (l ++ [c])
  = if gfpn.IsZero c then gfpoly.normalize l else l ++ [c].
Proof.
  induction l as [|a l IH]; cbn [app gfpoly.normalize].
  - by destruct (gfpn.IsZero c).
  - rewrite IH. destruct (gfpn.IsZero c); [done|]. by destruct l.
Qed.

Lemma findDegree_loop_app (l : list E) (c : E) (k : nat) :
  (k <= length l)%nat ->
  gfpoly.findDegree_loop k (l ++ [c]) = gfpoly.findDegree_loop k l.
Proof.
  induction k as [|k IH]; intros Hk; [done|].
  cbn [gfpoly.findDegree_loop]. rewrite app_nth1 by lia. by rewrite IH by lia.
Qed.

Lemma findDegree_snoc (l : list E) (c : E) :
  gfpoly.findDegree (l ++ [c])
  = if gfpn.IsZero c then gfpoly.findDegree l else len l.
Proof.
  unfold gfpoly.findDegree. rewrite length_app, Nat.add_1_r.
  cbn [gfpoly.findDegree_loop]. rewrite nth_middle.
  destruct (gfpn.IsZero c); cbn [negb]; [|done].
  by apply findDegree_loop_app.
Qed.

Lemma findDegree_loop_bound (coeffs : list E) (k : nat) :
  -1 <= gfpoly.findDegree_loop k coeffs < Z.of_nat k.
Proof.
  induction k as [|k IH]; cbn [gfpoly.findDegree_loop]; [lia|].
  destruct (gfpn.IsZero _); cbn [negb]; lia.
Qed.

Lemma findDegree_bound (coeffs : list E) : -1 <= gfpoly.findDegree coeffs < len coeffs.
Proof. apply findDegree_loop_bound. Qed.

Lemma normalize_take (coeffs : list E) :
  gfpoly.normalize coeffs = take (Z.to_nat (gfpoly.findDegree coeffs + 1)) coeffs.
Proof.
  induction coeffs as [|c l IH] using rev_ind; [done|].
  rewrite normalize_snoc, findDegree_snoc.
  pose proof (findDegree_bound l) as Hb. unfold len in *.
  destruct (gfpn.IsZero c).
  - rewrite IH, take_app_le by lia. done.
  - rewrite take_ge; [done|]. rewrite length_app. cbn. lia.
Qed.

(** What [normalize] drops are zero coefficients, and what it keeps does
    not end in one. *)
Lemma normalize_split (coeffs : list E) :
  exists zeros : list E,
    coeffs = gfpoly.normalize coeffs ++ zeros
    /\ Forall (fun c => gfpn.IsZero c = true) zeros
    /\ (forall c, last (gfpoly.normalize coeffs) = Some c -> gfpn.IsZero c = false).
Proof.
  induction coeffs as [|c l IH] using rev_ind.
  - exists []. by repeat split.
  - rewrite normalize_snoc. destruct (gfpn.IsZero c) eqn:Hc.
    + destruct IH as (zeros & Hl & Hz & Hlast). exists (zeros ++ [c]).
      split; [by rewrite app_assoc, <- Hl|]. split; [|done].
      apply Forall_app. by split; [|repeat constructor].
    + exists []. rewrite app_nil_r. split; [done|]. split; [constructor|].
      intros c'. rewrite last_snoc. by intros [= <-].
Qed.

(** X20. NewPolynomial keeps the coefficients up to the last one that is
    not zero, where findDegree finds it, and drops only zero coefficients;
    so the Degree of the polynomial is what findDegree gives on the
    coefficients, the highest coefficient kept is never zero, and
    normalizing twice changes nothing. *)
Theorem NewPolynomial_findDegree (coeffs : list E) :
  gfpoly.NewPolynomial coeffs = take (Z.to_nat (gfpoly.findDegree coeffs + 1)) coeffs
  /\ Forall (fun c => gfpn.IsZero c = true)
            (drop (Z.to_nat (gfpoly.findDegree coeffs + 1)) coeffs)
  /\ gfpoly.Degree (gfpoly.NewPolynomial coeffs) = gfpoly.findDegree coeffs
  /\ (forall c, last (gfpoly.NewPolynomial coeffs) = Some c -> gfpn.IsZero c = false)
  /\ gfpoly.NewPolynomial (gfpoly.NewPolynomial coeffs) = gfpoly.NewPolynomial coeffs.
Proof.
  unfold gfpoly.NewPolynomial.
  destruct (normalize_split coeffs) as (zeros & Hsplit & Hzeros & Hlast).
  pose proof (findDegree_bound coeffs) as Hb.
  pose proof (normalize_take coeffs) as Htake.
  assert (Hlen : length (gfpoly.normalize coeffs)
                 = Z.to_nat (gfpoly.findDegree coeffs + 1)).
  { rewrite Htake, length_take. unfold len in Hb. lia. }
  split; [done|]. split; [|split; [|split; [done|]]].
  - rewrite Hsplit at 2. by rewrite <- Hlen, drop_app_length.
  - unfold gfpoly.Degree, len. rewrite Hlen.
    destruct (Z.eqb_spec (Z.of_nat (Z.to_nat (gfpoly.findDegree coeffs + 1))) 0); lia.
  - clear Htake Hlen Hsplit Hb.
    induction coeffs as [|c l IH] using rev_ind; [done|].
    rewrite normalize_snoc. destruct (gfpn.IsZero c) eqn:Hc.
    + apply IH. intros c' Hc'. apply Hlast. by rewrite normalize_snoc, Hc.
    + by rewrite normalize_snoc, Hc.
Qed.

End GfpolyNormalize.

Section GfpolyEvaluate.
Context {E : Type} {F : gfpn.Field E} {L : gfpn.Lawful F}.
Import gfpn.

Local Notation "a ⊕ b" := (valueOf Add a b) (at level 50, left associativity).
Local Notation "a ⊗ b" := (valueOf Mul a b) (at level 40, left associativity).

Lemma evalQR_snoc (r : list E) (c y : E) :
  evalQR (r ++ [c]) y = (evalQR r y ⊗ y) ⊕ c.
Proof.
  induction r as [|a r IH]; cbn [app evalQR length].
  - cbn. by rewrite mul_one_r, add_zero_r, mul_zero_l, add_zero_l.
  - rewrite IH, length_app, Nat.add_1_r, powerOf_S.
    by rewrite mul_add_distr_r, mul_assoc, add_assoc.
Qed.

Lemma evalPoly_cons (c : E) (cs : list E) (x : E) :
  evalPoly (c :: cs) x = (evalPoly cs x ⊗ x) ⊕ c.
Proof. unfold evalPoly. cbn [rev]. apply evalQR_snoc. Qed.

Lemma evalQR_zeros_app (zeros r : list E) (y : E) :
  Forall (fun c => c = Zero) zeros -> evalQR (zeros ++ r) y = evalQR r y.
Proof.
  induction 1 as [|z zeros -> _ IH]; [done|].
  cbn [app evalQR]. by rewrite mul_zero_l, add_zero_l.
Qed.

Lemma evalPoly_app_zeros (p zeros : list E) (x : E) :
  Forall (fun c => c = Zero) zeros -> evalPoly (p ++ zeros) x = evalPoly p x.
Proof.
  intros Hz. unfold evalPoly. rewrite rev_app_distr.
  apply evalQR_zeros_app. by apply Forall_rev.
Qed.

Lemma map_nth_seqZ_app (l l' : list E) (d : E) :
  map (fun j => nth (Z.to_nat j) (l ++ l') d) (seqZ 0 (len l)) = l.
Proof.
  rewrite <- (map_nth_seqZ l d) at 2. apply map_ext_in. intros j Hj.
  apply list_elem_of_In, elem_of_seqZ in Hj. unfold len in Hj.
  apply app_nth1. lia.
Qed.

(** Over a lawful field Evaluate returns the sum of the coeffs[i] * x^i. *)
Lemma Evaluate_evalPoly (p : list E) (x : E) :
  gfpoly.Evaluate p x = Ok (evalPoly p x).
Proof.
  unfold gfpoly.Evaluate.
  destruct p as [|c l _] using rev_ind; [done|].
  assert (Hlen : len (l ++ [c]) - 1 = len l)
    by (unfold len; rewrite length_app; cbn; lia).
  rewrite Hlen.
  destruct (Z.eqb_spec (len (l ++ [c])) 0) as [H0|_]; [unfold len in *; lia|].
  destruct (index_ok (l ++ [c]) (len l)) as (top & -> & Htop).
  { unfold len in *. lia. }
  unfold len in Htop. rewrite Nat2Z.id, list_lookup_middle in Htop by done.
  injection Htop as <-. cbn [mbind result_bind].
  rewrite horner_indices.
  - rewrite map_rev, map_nth_seqZ_app, hornerQR_from.
    unfold evalPoly. rewrite rev_app_distr. cbn [rev app evalQR].
    by rewrite !length_rev.
  - apply Forall_forall. intros j Hj.
    apply list_elem_of_In, in_rev, list_elem_of_In, elem_of_seqZ in Hj. lia.
Qed.

Hypothesis IsZero_Zero : forall c : E, IsZero c = true -> c = Zero.

Lemma evalPoly_normalize (coeffs : list E) (x : E) :
  evalPoly (gfpoly.normalize coeffs) x = evalPoly coeffs x.
Proof.
  destruct (normalize_split coeffs) as (zeros & Hsplit & Hzeros & _).
  rewrite Hsplit at 2. symmetry. apply evalPoly_app_zeros.
  eapply Forall_impl; [exact Hzeros|]. exact IsZero_Zero.
Qed.

Lemma Evaluate_normalize (coeffs : list E) (x : E) :
  gfpoly.Evaluate (gfpoly.NewPolynomial coeffs) x = Ok (evalPoly coeffs x).
Proof.
  unfold gfpoly.NewPolynomial. by rewrite Evaluate_evalPoly, evalPoly_normalize.
Qed.

(** X21. Over a lawful field in which only Zero is zero, the polynomial
    built from any coefficient slice evaluates at x to the sum of the
    coeffs[i] * x^i: Evaluate never panics, and dropping the zero
    coefficients at the high end does not change the value. *)
Theorem Evaluate_NewPolynomial (coeffs : list E) (x : E) :
  gfpoly.Evaluate (gfpoly.NewPolynomial coeffs) x = Ok (evalPoly coeffs x).
Proof. apply Evaluate_normalize. Qed.

Hypothesis add_comm : forall a b : E, a ⊕ b = b ⊕ a.
Hypothesis mul_comm : forall a b : E, a ⊗ b = b ⊗ a.

Lemma field_semi_ring : semi_ring_theory Zero One (valueOf Add) (valueOf Mul) eq.
Proof.
  constructor.
  - apply add_zero_l.
  - apply add_comm.
  - apply add_assoc.
  - apply mul_one_l.
  - apply mul_zero_l.
  - apply mul_comm.
  - apply mul_assoc.
  - apply mul_add_distr_r.
Qed.

Add Ring field_ring : field_semi_ring.

Lemma evalPoly_map_Mul (scalar : E) (p : list E) (x : E) :
  evalPoly (map (fun c => scalar ⊗ c) p) x = scalar ⊗ evalPoly p x.
Proof.
  induction p as [|c cs IH]; cbn [map].
  - unfold evalPoly. cbn. ring.
  - rewrite !evalPoly_cons, IH. ring.
Qed.

(** X22. Over a commutative lawful field in which only Zero is zero,
    ScalarMultiply returns a polynomial whose value at every x is the
    scalar times the value of the given one. *)
Theorem ScalarMultiply_Evaluate (scalar : E) (p : list E) (x : E) :
  exists (q : list E) (v : E),
    gfpoly.ScalarMultiply scalar p = Ok q
    /\ gfpoly.Evaluate p x = Ok v
    /\ gfpoly.Evaluate q x = Ok (scalar ⊗ v).
Proof.
  exists (gfpoly.NewPolynomial (map (fun c => scalar ⊗ c) p)), (evalPoly p x).
  split; [|split].
  - unfold gfpoly.ScalarMultiply.
    rewrite (mapM_ok _ (fun c => scalar ⊗ c)) by (intros; apply Mul_returns). done.
  - apply Evaluate_evalPoly.
  - by rewrite Evaluate_normalize, evalPoly_map_Mul.
Qed.

(** Adding d to the coefficient of x^k adds d * x^k to the value. *)
Lemma evalPoly_insert (x d : E) (r : list E) : forall (k : nat) (rk : E),
  r !! k = Some rk ->
  evalPoly (<[k := rk ⊕ d]> r) x = evalPoly r x ⊕ (d ⊗ powerOf x k).
Proof.
  induction r as [|c cs IH]; intros k rk Hk; [done|].
  destruct k as [|k]; cbn in Hk.
  - injection Hk as <-. change (<[0%nat := c ⊕ d]> (c :: cs)) with ((c ⊕ d) :: cs).
    rewrite !evalPoly_cons.
    change (powerOf x 0) with One. ring.
  - change (<[S k := rk ⊕ d]> (c :: cs)) with (c :: <[k := rk ⊕ d]> cs).
    rewrite !evalPoly_cons, (IH k rk Hk), powerOf_S. ring.
Qed.

(** The inner loop of [Multiply] for the coefficient a = p1[i], from
    j = len pre on. *)
Lemma Multiply_inner (p1 p2 : list E) (x : E) (i : Z) (a : E) (qs : list E) :
  forall (pre r : list E),
  0 <= i -> p1 !! Z.to_nat i = Some a -> p2 = pre ++ qs -> i + len p2 <= len r ->
  exists r' : list E,
    foldM (fun result j =>
             a ← index p1 i;
             b ← index p2 j;
             product ← Mul a b;
             rk ← index result (i + j);
             s ← Add rk product;
             setIndex result (i + j) s)
          (seqZ (len pre) (len qs)) r = Ok r'
    /\ len r' = len r
    /\ evalPoly r' x
       = evalPoly r x ⊕ ((a ⊗ powerOf x (Z.to_nat (i + len pre))) ⊗ evalPoly qs x).
Proof.
  induction qs as [|b qs IH]; intros pre r Hi Ha Hp2 Hr.
  - exists r. split; [done|]. split; [done|]. unfold evalPoly at 3. cbn. ring.
  - assert (Hlenq : len (b :: qs) = 1 + len qs) by (unfold len; cbn [length]; lia).
    assert (Hlenp : len p2 = len pre + 1 + len qs).
    { rewrite Hp2. unfold len. rewrite length_app. cbn [length]. lia. }
    rewrite Hlenq, seqZ_cons by (unfold len; lia).
    replace (Z.pred (1 + len qs)) with (len qs) by lia.
    match goal with |- context [foldM ?f _ _] => set (body := f) end.
    destruct (index_ok p1 i) as (a' & Hidx1 & Ha').
    { apply lookup_lt_Some in Ha. unfold len. lia. }
    rewrite Ha in Ha'. injection Ha' as <-.
    destruct (index_ok p2 (len pre)) as (b' & Hidx2 & Hb').
    { unfold len in *. lia. }
    unfold len in Hb' at 1. rewrite Nat2Z.id, Hp2, list_lookup_middle in Hb' by done.
    injection Hb' as <-.
    destruct (index_ok r (i + len pre)) as (rk & Hidx3 & Hrk).
    { unfold len in *. lia. }
    assert (Hbody : body r (len pre)
                    = Ok (<[Z.to_nat (i + len pre) := rk ⊕ (a ⊗ b)]> r)).
    { unfold body. rewrite Hidx1. cbn [mbind result_bind].
      rewrite Hidx2. cbn [mbind result_bind].
      rewrite Mul_returns. cbn [mbind result_bind].
      rewrite Hidx3. cbn [mbind result_bind].
      rewrite Add_returns. cbn [mbind result_bind].
      apply setIndex_ok. unfold len in *. lia. }
    cbn [foldM]. rewrite Hbody. cbn [mbind result_bind].
    destruct (IH (pre ++ [b]) (<[Z.to_nat (i + len pre) := rk ⊕ (a ⊗ b)]> r))
      as (r' & Hrun & Hlen & Hval); [done|done| | |].
    { by rewrite <- app_assoc. }
    { unfold len in *. rewrite length_insert. lia. }
    assert (Hpre : len (pre ++ [b]) = Z.succ (len pre)).
    { unfold len. rewrite length_app. cbn [length]. lia. }
    rewrite Hpre in Hrun, Hval.
    exists r'. split; [exact Hrun|]. split.
    { rewrite Hlen. unfold len. by rewrite length_insert. }
    rewrite Hval, (evalPoly_insert x (a ⊗ b) r _ rk Hrk), evalPoly_cons.
    replace (Z.to_nat (i + Z.succ (len pre))) with (S (Z.to_nat (i + len pre)))
      by (unfold len; lia).
    rewrite powerOf_S. ring.
Qed.

(** The outer loop of [Multiply], from i = len pre on. *)
Lemma Multiply_outer (p1 p2 : list E) (x : E) (ps : list E) :
  forall (pre r : list E),
  p1 = pre ++ ps -> len p1 + len p2 - 1 <= len r ->
  exists r' : list E,
    foldM (fun result i =>
             foldM (fun result j =>
                      a ← index p1 i;
                      b ← index p2 j;
                      product ← Mul a b;
                      rk ← index result (i + j);
                      s ← Add rk product;
                      setIndex result (i + j) s)
                   (seqZ 0 (len p2)) result)
          (seqZ (len pre) (len ps)) r = Ok r'
    /\ len r' = len r
    /\ evalPoly r' x
       = evalPoly r x
         ⊕ ((powerOf x (Z.to_nat (len pre)) ⊗ evalPoly ps x) ⊗ evalPoly p2 x).
Proof.
  induction ps as [|a ps IH]; intros pre r Hp1 Hr.
  - exists r. split; [done|]. split; [done|]. unfold evalPoly at 3. cbn. ring.
  - assert (Hlenq : len (a :: ps) = 1 + len ps) by (unfold len; cbn [length]; lia).
    assert (Hlenp : len p1 = len pre + 1 + len ps).
    { rewrite Hp1. unfold len. rewrite length_app. cbn [length]. lia. }
    rewrite Hlenq, (seqZ_cons (len pre)) by (unfold len; lia).
    replace (Z.pred (1 + len ps)) with (len ps) by lia.
    cbn [foldM].
    destruct (Multiply_inner p1 p2 x (len pre) a p2 [] r) as (r1 & Hrun1 & Hlen1 & Hval1).
    { unfold len. lia. }
    { unfold len. by rewrite Nat2Z.id, Hp1, list_lookup_middle. }
    { done. }
    { unfold len in *. lia. }
    change (len []) with 0 in Hrun1, Hval1. rewrite Z.add_0_r in Hval1.
    rewrite Hrun1. cbn [mbind result_bind].
    destruct (IH (pre ++ [a]) r1) as (r' & Hrun & Hlen & Hval).
    { by rewrite <- app_assoc. }
    { lia. }
    assert (Hpre : len (pre ++ [a]) = Z.succ (len pre)).
    { unfold len. rewrite length_app. cbn [length]. lia. }
    rewrite Hpre in Hrun, Hval.
    exists r'. split; [exact Hrun|]. split; [lia|].
    rewrite Hval, Hval1, evalPoly_cons.
    replace (Z.to_nat (Z.succ (len pre))) with (S (Z.to_nat (len pre)))
      by (unfold len; lia).
    rewrite powerOf_S. ring.
Qed.

Lemma evalPoly_replicate_Zero (n : nat) (x : E) : evalPoly (replicate n Zero) x = Zero.
Proof.
  change (replicate n Zero) with ([] ++ replicate n Zero).
  rewrite evalPoly_app_zeros; [done|]. apply Forall_forall.
  intros c Hc. by apply elem_of_replicate in Hc as [-> _].
Qed.

(** X23. Over a commutative lawful field in which only Zero is zero,
    Multiply returns for any two polynomials, and the value of the product
    at every x is the product of the values of the factors. *)
Theorem Multiply_Evaluate (p1 p2 : list E) (x : E) :
  exists (q : list E) (v1 v2 : E),
    gfpoly.Multiply p1 p2 = Ok q
    /\ gfpoly.Evaluate p1 x = Ok v1
    /\ gfpoly.Evaluate p2 x = Ok v2
    /\ gfpoly.Evaluate q x = Ok (v1 ⊗ v2).
Proof.
  unfold gfpoly.Multiply, gfpoly.IsZero.
  destruct (Z.eqb_spec (len p1) 0) as [H1|H1]; cbn [orb].
  { exists (gfpoly.NewPolynomial []), (evalPoly p1 x), (evalPoly p2 x).
    rewrite !Evaluate_evalPoly. repeat split.
    destruct p1; [|unfold len in H1; cbn in H1; lia].
    unfold evalPoly. cbn. f_equal. ring. }
  destruct (Z.eqb_spec (len p2) 0) as [H2|H2].
  { exists (gfpoly.NewPolynomial []), (evalPoly p1 x), (evalPoly p2 x).
    rewrite !Evaluate_evalPoly. repeat split.
    destruct p2; [|unfold len in H2; cbn in H2; lia].
    unfold evalPoly at 1 3. cbn. f_equal. ring. }
  unfold make.
  destruct (Z.ltb_spec (len p1 + len p2 - 1) 0); [unfold len in *; lia|].
  cbn [mbind result_bind].
  destruct (Multiply_outer p1 p2 x p1 []
              (replicate (Z.to_nat (len p1 + len p2 - 1)) Zero))
    as (r' & Hrun & _ & Hval); [done| |].
  { unfold len. rewrite length_replicate. lia. }
  change (len []) with 0 in Hrun, Hval.
  rewrite Hrun. cbn [mbind result_bind].
  exists (gfpoly.NewPolynomial r'), (evalPoly p1 x), (evalPoly p2 x).
  rewrite Evaluate_normalize, !Evaluate_evalPoly. repeat split.
  f_equal. rewrite Hval, evalPoly_replicate_Zero.
  change (powerOf x (Z.to_nat 0)) with One. ring.
Qed.

End GfpolyEvaluate.

Section GfpolyDerivative.
Context {E : Type} {F : gfpn.Field E} {L : gfpn.Lawful F}.
Import gfpn.

Local Notation "a ⊕ b" := (valueOf Add a b) (at level 50, left associativity).

Hypothesis add_self : forall a : E, a ⊕ a = Zero.

(** In characteristic 2, adding c to itself n times leaves c for odd n and
    nothing for even n. *)
Lemma iter_add_parity (c : E) (n : nat) :
  Nat.iter n (fun a => a ⊕ c) Zero = if Nat.even n then Zero else c.
Proof.
  induction n as [|n IH]; [done|].
  rewrite Nat.iter_succ, IH, Nat.even_succ, <- Nat.negb_even.
  destruct (Nat.even n); cbn [negb]; [apply add_zero_l|apply add_self].
Qed.

Lemma repeated_add (p : list E) (i : Z) (c : E) (l : list Z) : forall acc : E,
  index p i = Ok c ->
  foldM (fun coeff (_ : Z) => c ← index p i; Add coeff c) l acc
  = Ok (Nat.iter (length l) (fun a => a ⊕ c) acc).
Proof.
  intros acc Hc. revert acc. induction l as [|j l IH]; intros acc; [done|].
  cbn [foldM length].
  match goal with |- context [foldM ?f l _] => set (body := f) end.
  rewrite Hc. cbn [mbind result_bind].
  rewrite Add_returns. cbn [mbind result_bind]. subst body. rewrite IH.
  by rewrite Nat.iter_succ_r.
Qed.

(** X24. In a lawful field of characteristic 2, the formal derivative
    keeps the coefficients of the odd powers, moved one place down, and
    has zero at the other places: FormalDerivative returns the polynomial
    of the coefficients a1, 0, a3, 0, a5, ... *)
Theorem FormalDerivative_characteristic_2 (p : list E) :
  gfpoly.FormalDerivative p = Ok (gfpoly.NewPolynomial (oddTerms p)).
Proof.
  unfold gfpoly.FormalDerivative, oddTerms.
  destruct (Z.eqb_spec (len p) 0) as [H0|H0].
  { destruct p; [done|]. unfold len in H0. cbn in H0. lia. }
  destruct (Z.eqb_spec (len p) 1) as [H1|H1].
  { destruct p as [|c [|c' p]]; [done|done|]. unfold len in H1. cbn in H1. lia. }
  rewrite (mapM_ok _ (fun i => if Nat.even (Z.to_nat i) then Zero
                               else nth (Z.to_nat i) p Zero)).
  - cbn [mbind result_bind]. do 2 f_equal.
    apply list_eq. intros k.
    change (map ?f ?l) with (f <$> l). rewrite list_lookup_fmap, list_lookup_imap.
    rewrite lookup_tail.
    destruct (p !! S k) as [c|] eqn:Hk.
    + rewrite (lookup_seqZ_lt _ _ k) by (apply lookup_lt_Some in Hk; unfold len; lia).
      cbn [fmap option_fmap option_map]. f_equal.
      replace (Z.to_nat (1 + Z.of_nat k)) with (S k) by lia.
      rewrite Nat.even_succ, <- Nat.negb_even, nth_lookup, Hk.
      by destruct (Nat.even k).
    + rewrite lookup_seqZ_ge by (apply lookup_ge_None in Hk; unfold len; lia). done.
  - intros i Hi. apply elem_of_seqZ in Hi.
    destruct (index_ok p i) as (c & Hc & Hlook); [lia|].
    rewrite (repeated_add p i c _ _ Hc), length_seqZ, iter_add_parity.
    by rewrite nth_lookup, Hlook.
Qed.

End GfpolyDerivative.

(** The reference field is commutative, of characteristic 2, and only its
    zero is zero. *)
Lemma gf256_add_comm (a b : Byte.byte) : GF256.add a b = GF256.add b a.
Proof. unfold GF256.add. by rewrite N.lxor_comm. Qed.

Lemma gf256_mul_comm (a b : Byte.byte) : GF256.mul a b = GF256.mul b a.
Proof. unfold GF256.mul. by rewrite orb_comm, Nat.add_comm. Qed.

Lemma gf256_add_self (a : Byte.byte) : GF256.add a a = Byte.x00.
Proof. unfold GF256.add. by rewrite N.lxor_nilpotent. Qed.

Lemma Evaluate_NewPolynomial_witness :
  gfpoly.Evaluate (F := GF256.Field)
    (gfpoly.NewPolynomial (F := GF256.Field) [Byte.x03; Byte.x01; Byte.x00]) Byte.x02
  = Ok (evalPoly (F := GF256.Field) [Byte.x03; Byte.x01; Byte.x00] Byte.x02).
Proof.
  apply (Evaluate_NewPolynomial (F := GF256.Field) (L := GF256_lawful)).
  exact isZero_true.
Defined.

Lemma ScalarMultiply_Evaluate_witness :
  exists (q : list Byte.byte) (v : Byte.byte),
    gfpoly.ScalarMultiply (F := GF256.Field) Byte.x05 [Byte.x03; Byte.x01] = Ok q
    /\ gfpoly.Evaluate (F := GF256.Field) [Byte.x03; Byte.x01] Byte.x02 = Ok v
    /\ gfpoly.Evaluate (F := GF256.Field) q Byte.x02
       = Ok (gfpn.valueOf (gfpn.Mul (Field := GF256.Field)) Byte.x05 v).
Proof.
  apply (ScalarMultiply_Evaluate (F := GF256.Field) (L := GF256_lawful)).
  - exact isZero_true.
  - intros a b. cbn. apply gf256_add_comm.
  - intros a b. cbn. apply gf256_mul_comm.
Defined.

Lemma Multiply_Evaluate_witness :
  exists (q : list Byte.byte) (v1 v2 : Byte.byte),
    gfpoly.Multiply (F := GF256.Field) [Byte.x03; Byte.x01] [Byte.x02; Byte.x01] = Ok q
    /\ gfpoly.Evaluate (F := GF256.Field) [Byte.x03; Byte.x01] Byte.x07 = Ok v1
    /\ gfpoly.Evaluate (F := GF256.Field) [Byte.x02; Byte.x01] Byte.x07 = Ok v2
    /\ gfpoly.Evaluate (F := GF256.Field) q Byte.x07
       = Ok (gfpn.valueOf (gfpn.Mul (Field := GF256.Field)) v1 v2).
Proof.
  apply (Multiply_Evaluate (F := GF256.Field) (L := GF256_lawful)).
  - exact isZero_true.
  - intros a b. cbn. apply gf256_add_comm.
  - intros a b. cbn. apply gf256_mul_comm.
Defined.

Lemma FormalDerivative_characteristic_2_witness :
  gfpoly.FormalDerivative (F := GF256.Field) [Byte.x07; Byte.x05; Byte.x04; Byte.x03]
  = Ok (gfpoly.NewPolynomial (F := GF256.Field)
          (oddTerms (F := GF256.Field) [Byte.x07; Byte.x05; Byte.x04; Byte.x03])).
Proof.
  apply (FormalDerivative_characteristic_2 (F := GF256.Field) (L := GF256_lawful)).
  intros a. cbn. apply gf256_add_self.
Defined.


(** ** qrcode/decoder: deinterleaveBlocks *)

Section Deinterleave.

Lemma foldM_app {A S} (f : S -> A -> result S) (l1 l2 : list A) (s : S) :
  foldM f (l1 ++ l2) s = (s' ← foldM f l1 s; foldM f l2 s').
Proof.
  revert s. induction l1 as [|x l1 IH]; intros s; [done|].
  cbn [app foldM]. destruct (f s x) as [s1|]; [|done]. cbn [mbind result_bind]. apply IH.
Qed.

Lemma foldM_ext {A S} (f g : S -> A -> result S) (l : list A) (s : S) :
  (forall s x, f s x = g s x) -> foldM f l s = foldM g l s.
Proof.
  intros Hfg. revert s. induction l as [|x l IH]; intros s; [done|].
  cbn [foldM]. rewrite Hfg. destruct (g s x) as [s1|]; [|done]. apply IH.
Qed.

(** Nested loops are one loop over the pairs of counters. *)
Lemma foldM_counters {S} (f : S -> Z * Z -> result S) (m n : Z) (s : S) :
  foldM (fun s i => foldM (fun s j => f s (i, j)) (seqZ 0 n) s) (seqZ 0 m) s
  = foldM f (counters m n) s.
Proof.
  unfold counters. generalize (seqZ 0 m) as l. intros l. revert s.
  induction l as [|i l IH]; intros s; [done|].
  cbn [foldM flat_map]. rewrite foldM_app.
  assert (Hin : forall (js : list Z) (s0 : S),
            foldM (fun s j => f s (i, j)) js s0 = foldM f (map (pair i) js) s0).
  { induction js as [|j js IHj]; intros s0; [done|].
    cbn [foldM map]. destruct (f s0 (i, j)); [|done]. apply IHj. }
  rewrite Hin. destruct (foldM f _ s) as [s1|]; [|done]. apply IH.
Qed.

Lemma setCell_ok (blocks : list (list Z)) (row : list Z) (j p x : Z) :
  0 <= j -> blocks !! Z.to_nat j = Some row -> 0 <= p < len row ->
  decoder.setCell blocks j p x
  = Ok (<[Z.to_nat j := <[Z.to_nat p := x]> row]> blocks).
Proof.
  intros Hj Hrow Hp. unfold decoder.setCell.
  assert (Hjlen : 0 <= j < len blocks).
  { apply lookup_lt_Some in Hrow. unfold len. lia. }
  destruct (index_ok blocks j Hjlen) as (row' & -> & Hrow').
  rewrite Hrow in Hrow'. injection Hrow' as <-. cbn [mbind result_bind].
  rewrite setIndex_ok by done. cbn [mbind result_bind].
  by rewrite setIndex_ok.
Qed.

Lemma getCell_insert (blocks : list (list Z)) (row : list Z) (j p : nat) (x : Z) :
  blocks !! j = Some row -> (p < length row)%nat ->
  getCell (<[j := <[p := x]> row]> blocks) (j, p) = Some x.
Proof.
  intros Hrow Hp. unfold getCell. cbn [fst snd].
  rewrite list_lookup_insert_eq by (by apply lookup_lt_Some in Hrow).
  by apply list_lookup_insert_eq.
Qed.

Lemma getCell_insert_ne (blocks : list (list Z)) (row : list Z) (j p : nat) (x : Z)
    (c : nat * nat) :
  blocks !! j = Some row -> c <> (j, p) ->
  getCell (<[j := <[p := x]> row]> blocks) c = getCell blocks c.
Proof.
  intros Hrow Hne. unfold getCell. destruct c as [j' p']. cbn [fst snd].
  destruct (decide (j' = j)) as [->|Hj].
  - rewrite list_lookup_insert_eq by (by apply lookup_lt_Some in Hrow).
    rewrite Hrow. apply list_lookup_insert_ne. congruence.
  - by rewrite list_lookup_insert_ne.
Qed.

Lemma shape_insert (blocks : list (list Z)) (row : list Z) (j p : nat) (x : Z) :
  blocks !! j = Some row ->
  map len (<[j := <[p := x]> row]> blocks) = map len blocks.
Proof.
  intros Hrow. change (map ?f ?l) with (f <$> l).
  rewrite list_fmap_insert. apply list_insert_id.
  rewrite list_lookup_fmap, Hrow. cbn. unfold len. by rewrite length_insert.
Qed.

Lemma cellsOf_cons (act : Z -> Z -> option Z) (shape : list Z) (i j : Z)
    (cs : list (Z * Z)) :
  cellsOf act shape ((i, j) :: cs)
  = match shape !! Z.to_nat j with
    | Some n =>
      match act i n with
      | Some p => [(Z.to_nat j, Z.to_nat p)]
      | None => []
      end
    | None => []
    end ++ cellsOf act shape cs.
Proof. reflexivity. Qed.

Lemma omap_cons_eq {A B} (f : A -> option B) (x : A) (l : list A) :
  omap f (x :: l) = match f x with Some y => y :: omap f l | None => omap f l end.
Proof. reflexivity. Qed.

Lemma writeCell_unfold (raw : list Z) (act : Z -> Z -> option Z)
    (blocks : list (list Z)) (rawIndex i j : Z) :
  writeCell raw act (blocks, rawIndex) (i, j)
  = (row ← index blocks j;
     match act i (len row) with
     | Some p =>
       x ← index raw rawIndex;
       blocks' ← decoder.setCell blocks j p x;
       Ok (blocks', rawIndex + 1)
     | None => Ok (blocks, rawIndex)
     end).
Proof. reflexivity. Qed.

(** The copying loop over the counters [cs], started at [rawIndex = r0] on
    blocks of the lengths [shape]: when the cells to write exist and are
    all different, and [raw] is long enough, the loop returns, keeps the
    lengths, has copied [raw] from r0 on into the cells in order, and has
    left the other cells alone. *)
Lemma writeCell_fold (raw : list Z) (act : Z -> Z -> option Z) (shape : list Z)
    (cs : list (Z * Z)) : forall (blocks : list (list Z)) (r0 : Z),
  map len blocks = shape -> 0 <= r0 ->
  Forall (fun ij => 0 <= ij.2 < len shape
                    /\ forall n p, shape !! Z.to_nat ij.2 = Some n ->
                                   act ij.1 n = Some p -> 0 <= p < n) cs ->
  NoDup (cellsOf act shape cs) ->
  r0 + len (cellsOf act shape cs) <= len raw ->
  exists blocks' : list (list Z),
    foldM (writeCell raw act) cs (blocks, r0)
    = Ok (blocks', r0 + len (cellsOf act shape cs))
    /\ map len blocks' = shape
    /\ omap (getCell blocks') (cellsOf act shape cs)
       = take (length (cellsOf act shape cs)) (drop (Z.to_nat r0) raw)
    /\ forall c, c ∉ cellsOf act shape cs -> getCell blocks' c = getCell blocks c.
Proof.
  induction cs as [|[i j] cs IH]; intros blocks r0 Hshape Hr0 Hvalid Hnd Hraw.
  - exists blocks. cbn. rewrite Z.add_0_r. by repeat split.
  - apply Forall_cons in Hvalid as [[Hj Hact] Hvalid]. cbn [fst snd] in Hj, Hact.
    assert (Hjb : 0 <= j < len blocks).
    { rewrite <- Hshape in Hj. unfold len in *. by rewrite length_map in Hj. }
    destruct (index_ok blocks j Hjb) as (row & Hidx & Hrow).
    assert (Hn : shape !! Z.to_nat j = Some (len row)).
    { rewrite <- Hshape. change (map ?f ?l) with (f <$> l).
      by rewrite list_lookup_fmap, Hrow. }
    cbn [foldM]. rewrite writeCell_unfold, Hidx.
    cbn [mbind result_bind].
    specialize (Hact (len row)).
    rewrite cellsOf_cons, Hn in Hnd, Hraw |- *.
    destruct (act i (len row)) as [p|] eqn:Hp.
    + specialize (Hact p Hn eq_refl).
      cbn [app] in *. apply NoDup_cons in Hnd as [Hnotin Hnd].
      assert (Hlen : len ((Z.to_nat j, Z.to_nat p) :: cellsOf act shape cs)
                     = 1 + len (cellsOf act shape cs))
        by (unfold len; cbn [length]; lia).
      rewrite Hlen in *.
      destruct (index_ok raw r0) as (x & Hx & Hrawx); [unfold len in *; lia|].
      rewrite Hx. cbn [mbind result_bind].
      rewrite (setCell_ok blocks row j p x) by (done || lia).
      cbn [mbind result_bind].
      set (blocks1 := <[Z.to_nat j := <[Z.to_nat p := x]> row]> blocks).
      destruct (IH blocks1 (r0 + 1)) as (blocks' & Hrun & Hshape' & Hgather & Hother).
      { subst blocks1. rewrite shape_insert; done. }
      { lia. }
      { done. }
      { done. }
      { lia. }
      exists blocks'. split; [rewrite Hrun; f_equal; f_equal; lia|].
      split; [done|]. split.
      * rewrite omap_cons_eq. cbn [length]. rewrite (Hother _ Hnotin). subst blocks1.
        rewrite getCell_insert by (done || unfold len in *; lia).
        rewrite Hgather. rewrite (drop_S raw x (Z.to_nat r0)) by done.
        cbn [take]. do 2 f_equal. f_equal. lia.
      * intros c Hc. apply not_elem_of_cons in Hc as [Hne Hc].
        rewrite (Hother c Hc). subst blocks1. by apply getCell_insert_ne.
    + cbn [app] in *. apply IH; done.
Qed.

Lemma flat_map_bind {A B} (f : A -> list B) (l : list A) : flat_map f l = l ≫= f.
Proof. induction l as [|x l IH]; [done|]. cbn. by rewrite IH. Qed.

Lemma elem_of_counters (m n i j : Z) :
  (i, j) ∈ counters m n <-> 0 <= i < m /\ 0 <= j < n.
Proof.
  unfold counters. rewrite flat_map_bind, list_elem_of_bind. split.
  - intros (i' & Hin & Hi'). apply elem_of_seqZ in Hi'.
    apply list_elem_of_fmap in Hin as (j' & [= -> ->] & Hj'). apply elem_of_seqZ in Hj'. lia.
  - intros [Hi Hj]. exists i. split; [|apply elem_of_seqZ; lia].
    apply list_elem_of_fmap. exists j. split; [done|]. apply elem_of_seqZ. lia.
Qed.

Lemma NoDup_counters (m n : Z) : NoDup (counters m n).
Proof.
  unfold counters. rewrite flat_map_bind. apply NoDup_bind.
  - intros i1 i2 [i j] _ _ H1 H2.
    apply list_elem_of_fmap in H1 as (? & [= -> _] & _).
    apply list_elem_of_fmap in H2 as (? & [= -> _] & _). done.
  - intros i _. apply NoDup_fmap_2; [|apply NoDup_seqZ]. by intros ?? [= ->].
  - apply NoDup_seqZ.
Qed.

Lemma elem_of_cellsOf (act : Z -> Z -> option Z) (shape : list Z) (cs : list (Z * Z))
    (c : nat * nat) :
  c ∈ cellsOf act shape cs
  <-> exists i j n p, (i, j) ∈ cs /\ shape !! Z.to_nat j = Some n
                      /\ act i n = Some p /\ c = (Z.to_nat j, Z.to_nat p).
Proof.
  unfold cellsOf. rewrite flat_map_bind, list_elem_of_bind. split.
  - intros ([i j] & Hc & Hin). cbn [fst snd] in Hc.
    destruct (shape !! Z.to_nat j) as [n|] eqn:Hn; [|by apply elem_of_nil in Hc].
    destruct (act i n) as [p|] eqn:Hp; [|by apply elem_of_nil in Hc].
    apply list_elem_of_singleton in Hc. by exists i, j, n, p.
  - intros (i & j & n & p & Hin & Hn & Hp & ->). exists (i, j). split; [|done].
    cbn [fst snd]. rewrite Hn, Hp. by apply list_elem_of_singleton.
Qed.

(** Counters that write different cells write every cell once. *)
Lemma NoDup_cellsOf (act : Z -> Z -> option Z) (shape : list Z) (cs : list (Z * Z)) :
  NoDup cs ->
  (forall i j i' j' n n' p p',
     (i, j) ∈ cs -> (i', j') ∈ cs ->
     shape !! Z.to_nat j = Some n -> act i n = Some p ->
     shape !! Z.to_nat j' = Some n' -> act i' n' = Some p' ->
     (Z.to_nat j, Z.to_nat p) = (Z.to_nat j', Z.to_nat p') -> (i, j) = (i', j')) ->
  NoDup (cellsOf act shape cs).
Proof.
  intros Hnd Hinj. unfold cellsOf. rewrite flat_map_bind. apply NoDup_bind; [| |done].
  - intros [i j] [i' j'] c Hin Hin' Hc Hc'. cbn [fst snd] in Hc, Hc'.
    destruct (shape !! Z.to_nat j) as [n|] eqn:Hn; [|by apply elem_of_nil in Hc].
    destruct (act i n) as [p|] eqn:Hp; [|by apply elem_of_nil in Hc].
    destruct (shape !! Z.to_nat j') as [n'|] eqn:Hn'; [|by apply elem_of_nil in Hc'].
    destruct (act i' n') as [p'|] eqn:Hp'; [|by apply elem_of_nil in Hc'].
    apply list_elem_of_singleton in Hc, Hc'. subst c.
    by apply (Hinj i j i' j' n n' p p').
  - intros [i j] _. cbn [fst snd].
    destruct (shape !! Z.to_nat j) as [n|]; [|constructor].
    destruct (act i n); [apply NoDup_singleton|constructor].
Qed.

(** What the written cells hold, read block by block. *)
Lemma omap_getCell_cellsOf (act : Z -> Z -> option Z) (blocks : list (list Z))
    (cs : list (Z * Z)) :
  omap (getCell blocks) (cellsOf act (map len blocks) cs)
  = flat_map (fun ij =>
                match blocks !! Z.to_nat ij.2 with
                | Some b =>
                  match act ij.1 (len b) with
                  | Some p => match b !! Z.to_nat p with Some x => [x] | None => [] end
                  | None => []
                  end
                | None => []
                end) cs.
Proof.
  induction cs as [|[i j] cs IH]; [done|].
  rewrite cellsOf_cons, omap_app, IH. cbn [flat_map fst snd]. f_equal.
  change (map ?f ?l) with (f <$> l). rewrite list_lookup_fmap.
  destruct (blocks !! Z.to_nat j) as [b|] eqn:Hb; [|done].
  cbn [fmap option_fmap option_map]. destruct (act i (len b)) as [p|]; [|done].
  rewrite omap_cons_eq. unfold getCell. cbn [fst snd]. rewrite Hb.
  by destruct (b !! Z.to_nat p).
Qed.

Lemma flat_map_flat_map {A B C} (f : B -> list C) (g : A -> list B) (l : list A) :
  flat_map f (flat_map g l) = flat_map (fun x => flat_map f (g x)) l.
Proof.
  induction l as [|x l IH]; [done|]. cbn [flat_map]. by rewrite flat_map_app, IH.
Qed.

Lemma flat_map_ext_elem {A B} (f g : A -> list B) (l : list A) :
  (forall x, x ∈ l -> f x = g x) -> flat_map f l = flat_map g l.
Proof.
  induction l as [|x l IH]; intros Hfg; [done|].
  cbn [flat_map]. rewrite Hfg by set_solver. rewrite IH; [done|].
  intros y Hy. apply Hfg. set_solver.
Qed.

(** A loop over the indices of a slice is a loop over its elements. *)
Lemma flat_map_indices {A B} (F : A -> list B) (l : list A) :
  flat_map (fun j => match l !! Z.to_nat j with Some b => F b | None => [] end)
           (seqZ 0 (len l))
  = flat_map F l.
Proof.
  unfold len. rewrite flat_map_seqZ_nat.
  induction l as [|b l IH] using rev_ind; [done|].
  rewrite length_app, Nat.add_1_r, seq_S, !flat_map_app. cbn [flat_map].
  rewrite Nat.add_0_l, Nat2Z.id, list_lookup_middle by done. rewrite !app_nil_r.
  f_equal. rewrite <- IH. apply flat_map_ext_elem. intros j Hj.
  apply elem_of_seq in Hj. by rewrite Nat2Z.id, lookup_app_l by lia.
Qed.

(** The written cells of the loop [for i < m { for j < len blocks }], read
    back, are the columns 0 to m - 1 of the parts that [act] selects. *)
Lemma omap_getCell_columns (act : Z -> Z -> option Z) (part : list Z -> list Z)
    (blocks : list (list Z)) (m : Z) :
  (forall b i, b ∈ blocks -> 0 <= i < m ->
     part b !! Z.to_nat i
     = match act i (len b) with Some p => b !! Z.to_nat p | None => None end) ->
  omap (getCell blocks) (cellsOf act (map len blocks) (counters m (len blocks)))
  = flat_map (fun i =>
                flat_map (fun block : list Z =>
                            match block !! Z.to_nat i with
                            | Some x => [x]
                            | None => []
                            end) (map part blocks))
             (seqZ 0 m).
Proof.
  intros Hpart. rewrite omap_getCell_cellsOf. unfold counters.
  rewrite flat_map_flat_map. apply flat_map_ext_elem. intros i Hi.
  apply elem_of_seqZ in Hi.
  change (map (pair i) ?l) with (pair i <$> l). rewrite flat_map_fmap. cbn [fst snd].
  rewrite (flat_map_indices
             (fun b => match act i (len b) with
                       | Some p => match b !! Z.to_nat p with Some x => [x] | None => [] end
                       | None => []
                       end)).
  change (map part blocks) with (part <$> blocks). rewrite flat_map_fmap.
  apply flat_map_ext_elem. intros b Hb. rewrite (Hpart b i Hb) by lia.
  by destruct (act i (len b)).
Qed.

Lemma flat_map_nil_elem {A B} (f : A -> list B) (l : list A) :
  (forall x, x ∈ l -> f x = []) -> flat_map f l = [].
Proof.
  intros Hf. rewrite (flat_map_ext_elem f (fun _ => [])) by done.
  apply flat_map_nil_const.
Qed.

Lemma maxBlockSize_le (blocks : list (list Z)) (M : Z) : forall m : Z,
  m <= M -> Forall (fun block => len block <= M) blocks ->
  fold_left (fun m block => if len block >? m then len block else m) blocks m <= M.
Proof.
  induction blocks as [|b bs IH]; intros m Hm Hall; cbn [fold_left]; [done|].
  apply Forall_cons in Hall as [Hb Hall]. apply IH; [|done].
  destruct (Z.gtb_spec (len b) m); lia.
Qed.

(** reinterleaveBlocks may as well run up to any bound on the block sizes. *)
Lemma reinterleaveBlocks_upto (blocks : list (list Z)) (M : Z) :
  0 <= M -> Forall (fun block => len block <= M) blocks ->
  decoder.reinterleaveBlocks blocks
  = flat_map (fun i =>
                flat_map (fun block : list Z =>
                            match block !! Z.to_nat i with
                            | Some x => [x]
                            | None => []
                            end) blocks)
             (seqZ 0 M).
Proof.
  intros HM Hall. unfold decoder.reinterleaveBlocks.
  destruct (maxBlockSize_bound blocks 0) as [H0 Hmax]. cbv zeta in H0, Hmax.
  pose proof (maxBlockSize_le blocks M 0 HM Hall) as Hle.
  set (Mx := fold_left _ blocks 0) in *.
  replace M with (Mx + (M - Mx)) at 1 by lia.
  rewrite seqZ_app, flat_map_app by lia.
  rewrite (flat_map_nil_elem _ (seqZ (0 + Mx) (M - Mx))); [by rewrite app_nil_r|].
  intros i Hi. apply elem_of_seqZ in Hi. apply flat_map_nil_elem. intros b Hb.
  rewrite lookup_ge_None_2; [done|].
  apply (proj1 (Forall_forall _ _) Hmax) in Hb. unfold len in Hb. lia.
Qed.

(** The allocation loop for one group of [length l] blocks of [s]
    codewords: it fills the next free slots. *)
Lemma alloc_group (s : Z) (l : list Z) : forall (filled : list (list Z)) (k : nat),
  0 <= s -> (length l <= k)%nat ->
  foldM (fun '(blocks, blockIndex) (_ : Z) =>
           blk ← make 0 s;
           blocks' ← setIndex blocks blockIndex blk;
           Ok (blocks', blockIndex + 1))
        l (filled ++ replicate k [], len filled)
  = Ok (filled ++ replicate (length l) (replicate (Z.to_nat s) 0)
               ++ replicate (k - length l) [],
        len filled + len l).
Proof.
  induction l as [|x l IH]; intros filled k Hs Hk.
  - cbn [foldM length replicate app]. rewrite Nat.sub_0_r. do 2 f_equal.
    unfold len. cbn. lia.
  - cbn [length] in Hk. destruct k as [|k]; [lia|].
    assert (Hmake : make (0 : Z) s = Ok (replicate (Z.to_nat s) 0)).
    { unfold make. by destruct (Z.ltb_spec s 0); [lia|]. }
    cbn [foldM]. match goal with |- context [foldM ?f l _] => set (body := f) end.
    rewrite Hmake. cbn [mbind result_bind]. rewrite setIndex_ok.
    2:{ unfold len. rewrite length_app, length_replicate. lia. }
    cbn [mbind result_bind]. unfold len at 1. rewrite Nat2Z.id.
    rewrite insert_app_r_alt, Nat.sub_diag by done. cbn [replicate insert list_insert].
    replace (filled ++ replicate (Z.to_nat s) 0 :: replicate k [])
      with ((filled ++ [replicate (Z.to_nat s) 0]) ++ replicate k [])
      by (by rewrite <- app_assoc).
    replace (len filled + 1) with (len (filled ++ [replicate (Z.to_nat s) 0]))
      by (unfold len; rewrite length_app; cbn; lia).
    subst body. rewrite IH by lia. rewrite <- !app_assoc. cbn [app length replicate].
    do 2 f_equal. unfold len. rewrite length_app. cbn [length]. lia.
Qed.

(** The blocks that the allocation loops build for a schedule. *)
Lemma alloc_groups (ec : Z) (groups : list decoder.ECB) :
  forall (filled : list (list Z)) (k : nat),
  Forall (fun g => 0 <= decoder.count g /\ 0 <= decoder.dataCodewords g + ec) groups ->
  let allocated :=
    flat_map (fun g => replicate (Z.to_nat (decoder.count g))
                         (replicate (Z.to_nat (decoder.dataCodewords g + ec)) 0)) groups in
  (length allocated <= k)%nat ->
  foldM (fun st g =>
           foldM (fun '(blocks, blockIndex) (_ : Z) =>
                    blk ← make 0 (decoder.dataCodewords g + ec);
                    blocks' ← setIndex blocks blockIndex blk;
                    Ok (blocks', blockIndex + 1))
                 (seqZ 0 (decoder.count g)) st)
        groups (filled ++ replicate k [], len filled)
  = Ok (filled ++ allocated ++ replicate (k - length allocated) [],
        len filled + len allocated).
Proof.
  induction groups as [|g groups IH]; intros filled k Hall allocated Hk;
    subst allocated.
  - cbn [foldM flat_map length app] in *. rewrite Nat.sub_0_r. do 2 f_equal.
    unfold len. cbn. lia.
  - apply Forall_cons in Hall as [[Hc Hs] Hall].
    cbn [flat_map] in *. rewrite length_app, length_replicate in Hk.
    cbn [foldM]. rewrite alloc_group by (rewrite ?length_seqZ; lia).
    cbn [mbind result_bind]. rewrite length_seqZ.
    set (blk := replicate (Z.to_nat (decoder.dataCodewords g + ec)) 0).
    set (c := Z.to_nat (decoder.count g)).
    rewrite app_assoc.
    replace (len filled + len (seqZ 0 (decoder.count g)))
      with (len (filled ++ replicate c blk)).
    2:{ unfold len. rewrite length_app, length_replicate, length_seqZ. lia. }
    rewrite IH by (done || lia).
    rewrite <- !app_assoc. rewrite !length_app, !length_replicate.
    f_equal. f_equal.
    + do 2 f_equal. rewrite Nat.sub_add_distr. done.
    + unfold len. rewrite !length_app, !length_replicate. lia.
Qed.

Lemma numBlocks_eq (groups : list decoder.ECB) (f : decoder.ECB -> list Z) : forall a : Z,
  Forall (fun g => 0 <= decoder.count g) groups ->
  fold_left (fun n g => n + decoder.count g) groups a
  = a + len (flat_map (fun g => replicate (Z.to_nat (decoder.count g)) (f g)) groups).
Proof.
  induction groups as [|g groups IH]; intros a Hall; cbn [fold_left flat_map].
  - unfold len. cbn. lia.
  - apply Forall_cons in Hall as [Hc Hall]. rewrite IH by done.
    unfold len. rewrite length_app, length_replicate. lia.
Qed.

Lemma allocated_shape (ecb : decoder.ECBlocks) :
  Forall (fun g => 0 <= decoder.dataCodewords g + decoder.ecCodewordsPerBlock ecb)
         (decoder.ecBlocks ecb) ->
  map len
    (flat_map (fun g => replicate (Z.to_nat (decoder.count g))
                          (replicate (Z.to_nat (decoder.dataCodewords g
                                                + decoder.ecCodewordsPerBlock ecb)) 0))
              (decoder.ecBlocks ecb))
  = blockSizes ecb.
Proof.
  unfold blockSizes. induction 1 as [|g groups Hg _ IH]; [done|].
  cbn [flat_map]. rewrite map_app, IH. f_equal.
  change (map ?f ?l) with (f <$> l). rewrite fmap_replicate. f_equal.
  unfold len. rewrite length_replicate. lia.
Qed.

Lemma maxData_bound (ec : Z) (blocks : list (list Z)) : forall m : Z,
  let M := fold_left (fun m block => if len block - ec >? m then len block - ec else m)
                     blocks m in
  m <= M /\ Forall (fun block => len block - ec <= M) blocks.
Proof.
  induction blocks as [|b bs IH]; intros m; cbn [fold_left].
  - split; [lia|constructor].
  - destruct (IH (if len b - ec >? m then len b - ec else m)) as [Hm Hbs].
    assert (m <= (if len b - ec >? m then len b - ec else m)
            /\ len b - ec <= (if len b - ec >? m then len b - ec else m))
      by (destruct (Z.gtb_spec (len b - ec) m); lia).
    split; [lia|]. constructor; [lia|done].
Qed.

Lemma dataPart_lookup (ec : Z) (b : list Z) (i : Z) :
  0 <= i ->
  dataPart ec b !! Z.to_nat i
  = match dataCell ec i (len b) with Some p => b !! Z.to_nat p | None => None end.
Proof.
  intros Hi. unfold dataPart, dataCell.
  destruct (Z.ltb_spec i (len b - ec)).
  - apply lookup_take_lt. lia.
  - apply lookup_take_ge. lia.
Qed.

Lemma ecPart_lookup (ec : Z) (b : list Z) (i : Z) :
  0 <= i -> ec <= len b ->
  ecPart ec b !! Z.to_nat i
  = match ecCell ec i (len b) with Some p => b !! Z.to_nat p | None => None end.
Proof.
  intros Hi Hec. unfold ecPart, ecCell. rewrite lookup_drop. f_equal. lia.
Qed.

(** The written cells of a copying loop over all blocks, read back, are
    the re-interleaving of the parts that the loop fills. *)
Lemma omap_getCell_reinterleave (act : Z -> Z -> option Z) (part : list Z -> list Z)
    (blocks : list (list Z)) (m : Z) :
  0 <= m ->
  (forall b i, b ∈ blocks -> 0 <= i < m ->
     part b !! Z.to_nat i
     = match act i (len b) with Some p => b !! Z.to_nat p | None => None end) ->
  Forall (fun b => len (part b) <= m) blocks ->
  omap (getCell blocks) (cellsOf act (map len blocks) (counters m (len blocks)))
  = decoder.reinterleaveBlocks (map part blocks).
Proof.
  intros Hm Hpart Hlen. rewrite (omap_getCell_columns act part) by done.
  symmetry. apply reinterleaveBlocks_upto; [done|].
  apply Forall_forall. intros b' Hb'.
  change (map part blocks) with (part <$> blocks) in Hb'.
  apply list_elem_of_fmap in Hb' as (b & -> & Hb).
  by apply (proj1 (Forall_forall _ _) Hlen).
Qed.

Lemma omap_getCell_length (act : Z -> Z -> option Z) (blocks : list (list Z))
    (cs : list (Z * Z)) :
  Forall (fun ij => forall n p, map len blocks !! Z.to_nat ij.2 = Some n ->
                                act ij.1 n = Some p -> 0 <= p < n) cs ->
  length (omap (getCell blocks) (cellsOf act (map len blocks) cs))
  = length (cellsOf act (map len blocks) cs).
Proof.
  induction 1 as [|[i j] cs Hij _ IH]; [done|]. cbn [fst snd] in Hij.
  rewrite cellsOf_cons, omap_app, !length_app, IH. f_equal.
  destruct (map len blocks !! Z.to_nat j) as [n|] eqn:Hn; [|done].
  destruct (act i n) as [p|] eqn:Hp; [|done].
  specialize (Hij n p eq_refl Hp).
  change (map ?f ?l) with (f <$> l) in Hn. rewrite list_lookup_fmap in Hn.
  destruct (blocks !! Z.to_nat j) as [b|] eqn:Hb; [|done].
  injection Hn as <-. rewrite omap_cons_eq. unfold getCell. cbn [fst snd].
  rewrite Hb. destruct (b !! Z.to_nat p) eqn:Hbp; [done|].
  apply lookup_ge_None in Hbp. unfold len in Hij. lia.
Qed.

Lemma parts_length (ec : Z) (blocks : list (list Z)) :
  (length (concat (map (dataPart ec) blocks))
   + length (concat (map (ecPart ec) blocks)))%nat
  = length (concat blocks).
Proof.
  induction blocks as [|b bs IH]; [done|].
  cbn [map concat]. rewrite !length_app, <- IH.
  unfold dataPart, ecPart. rewrite length_take, length_drop. lia.
Qed.

Lemma concat_length_shape (blocks : list (list Z)) :
  Z.of_nat (length (concat blocks)) = foldr Z.add 0 (map len blocks).
Proof.
  induction blocks as [|b bs IH]; [done|].
  cbn [concat map foldr]. rewrite length_app, <- IH. unfold len. lia.
Qed.

Lemma omap_ext_elem {A B} (f g : A -> option B) (l : list A) :
  (forall x, x ∈ l -> f x = g x) -> omap f l = omap g l.
Proof.
  induction l as [|x l IH]; intros Hfg; [done|].
  rewrite !omap_cons_eq, Hfg, IH; [done| |set_solver].
  intros y Hy. apply Hfg. set_solver.
Qed.

Lemma foldM_ext_inv {A S} (P : S -> Prop) (f g : S -> A -> result S) (l : list A) :
  (forall s x, P s -> f s x = g s x) ->
  (forall s x s', P s -> g s x = Ok s' -> P s') ->
  forall s, P s -> foldM f l s = foldM g l s.
Proof.
  intros Hfg Hinv. induction l as [|x l IH]; intros s Hs; [done|].
  cbn [foldM]. rewrite Hfg by done.
  destruct (g s x) as [s1|] eqn:Hg; [|done]. cbn [mbind result_bind].
  apply IH. by apply (Hinv s x).
Qed.

Lemma foldM_inv {A S} (P : S -> Prop) (f : S -> A -> result S) (l : list A) :
  (forall s x s', P s -> f s x = Ok s' -> P s') ->
  forall s s', P s -> foldM f l s = Ok s' -> P s'.
Proof.
  intros Hinv. induction l as [|x l IH]; intros s s' Hs Hrun; cbn [foldM] in Hrun.
  - by injection Hrun as <-.
  - destruct (f s x) as [s1|] eqn:Hf; [|done]. cbn [mbind result_bind] in Hrun.
    apply (IH s1 s'); [|done]. by apply (Hinv s x).
Qed.

Lemma writeCell_length (raw : list Z) (act : Z -> Z -> option Z)
    (st st' : list (list Z) * Z) (ij : Z * Z) :
  writeCell raw act st ij = Ok st' -> len st'.1 = len st.1.
Proof.
  destruct st as [blocks r], ij as [i j]. rewrite writeCell_unfold. intros H.
  destruct (index blocks j) as [row|]; [|done]. cbn [mbind result_bind] in H.
  destruct (act i (len row)) as [p|]; [|by injection H as <-].
  destruct (index raw r) as [x|]; [|done]. cbn [mbind result_bind] in H.
  unfold decoder.setCell in H.
  destruct (index blocks j) as [row0|]; [|done]. cbn [mbind result_bind] in H.
  destruct (setIndex row0 p x) as [row'|]; [|done]. cbn [mbind result_bind] in H.
  unfold setIndex in H. destruct (_ || _); [done|]. cbn [mbind result_bind] in H.
  injection H as <-. cbn [fst]. unfold len. by rewrite length_insert.
Qed.

(** The data loop and the EC loop of [deinterleaveBlocks] as loops over
    the pairs of counters. *)
Lemma data_loop_counters (raw : list Z) (ec m n : Z) (st : list (list Z) * Z) :
  foldM (fun st i =>
           foldM (fun '(blocks, rawIndex) j =>
                    row ← index blocks j;
                    if i <? len row - ec then
                      x ← index raw rawIndex;
                      blocks' ← decoder.setCell blocks j i x;
                      Ok (blocks', rawIndex + 1)
                    else Ok (blocks, rawIndex))
                 (seqZ 0 n) st)
        (seqZ 0 m) st
  = foldM (writeCell raw (dataCell ec)) (counters m n) st.
Proof.
  rewrite <- foldM_counters. apply foldM_ext. intros s i. apply foldM_ext.
  intros [blocks r] j. rewrite writeCell_unfold.
  destruct (index blocks j) as [row|]; [|done]. cbn [mbind result_bind].
  unfold dataCell. by destruct (i <? len row - ec).
Qed.

Lemma ec_loop_counters (raw : list Z) (ec m : Z) (st : list (list Z) * Z) :
  foldM (fun st i =>
           foldM (fun '(blocks, rawIndex) j =>
                    row ← index blocks j;
                    x ← index raw rawIndex;
                    blocks' ← decoder.setCell blocks j (len row - ec + i) x;
                    Ok (blocks', rawIndex + 1))
                 (seqZ 0 (len (fst st))) st)
        (seqZ 0 m) st
  = foldM (writeCell raw (ecCell ec)) (counters m (len st.1)) st.
Proof.
  rewrite <- foldM_counters.
  apply (foldM_ext_inv (fun s => len s.1 = len st.1)); [| |done].
  - intros s i Hs. rewrite Hs. apply foldM_ext.
    intros [blocks r] j. rewrite writeCell_unfold.
    by destruct (index blocks j) as [row|].
  - intros s i s' Hs Hrun.
    apply (foldM_inv (fun s => len s.1 = len st.1)
             (fun s j => writeCell raw (ecCell ec) s (i, j)) (seqZ 0 (len st.1)) ) in Hrun;
      [done| |done].
    intros s0 j s1 Hs0 Hw. apply writeCell_length in Hw. congruence.
Qed.

Lemma Forall_shape (P : Z -> Prop) (blocks : list (list Z)) :
  Forall P (map len blocks) <-> Forall (fun b => P (len b)) blocks.
Proof. change (map ?f ?l) with (f <$> l). apply Forall_fmap. Qed.

Lemma blockSizes_bounds (ecb : decoder.ECBlocks) :
  Forall (fun g => 0 <= decoder.dataCodewords g) (decoder.ecBlocks ecb) ->
  Forall (fun n => decoder.ecCodewordsPerBlock ecb <= n) (blockSizes ecb).
Proof.
  unfold blockSizes. induction 1 as [|g groups Hg _ IH]; [constructor|].
  cbn [flat_map]. apply Forall_app. split; [|done].
  apply Forall_forall. intros n Hn. apply elem_of_replicate in Hn as [-> _]. lia.
Qed.

(** De-interleaving inverts the interleaving of data parts and EC parts. *)
Lemma deinterleaveBlocks_inverse (raw : list Z) (ecb : decoder.ECBlocks) :
  0 <= decoder.ecCodewordsPerBlock ecb ->
  Forall (fun g => 0 <= decoder.count g /\ 0 <= decoder.dataCodewords g)
         (decoder.ecBlocks ecb) ->
  totalCodewords ecb <= len raw ->
  exists blocks : list (list Z),
    decoder.deinterleaveBlocks raw ecb = Ok blocks
    /\ map len blocks = blockSizes ecb
    /\ decoder.reinterleaveBlocks (map (dataPart (decoder.ecCodewordsPerBlock ecb)) blocks)
       ++ decoder.reinterleaveBlocks (map (ecPart (decoder.ecCodewordsPerBlock ecb)) blocks)
       = take (Z.to_nat (totalCodewords ecb)) raw.
Proof.
  intros Hec Hgroups Htotal.
  set (ec := decoder.ecCodewordsPerBlock ecb) in *.
  set (shape := blockSizes ecb).
  set (allocated :=
         flat_map (fun g => replicate (Z.to_nat (decoder.count g))
                              (replicate (Z.to_nat (decoder.dataCodewords g + ec)) 0))
                  (decoder.ecBlocks ecb)).
  assert (Hshape0 : map len allocated = shape).
  { apply allocated_shape. eapply Forall_impl; [exact Hgroups|].
    intros g [_ Hd]. fold ec. cbv beta. lia. }
  assert (Hge : Forall (fun n => ec <= n) shape).
  { apply blockSizes_bounds. eapply Forall_impl; [exact Hgroups|]. by intros g [_ Hd]. }
  assert (Hnb : forall blocks : list (list Z), map len blocks = shape ->
                  len blocks = len shape).
  { intros blocks <-. unfold len. by rewrite length_map. }
  (* the cells of the two loops *)
  set (M := fold_left (fun m block => if len block - ec >? m then len block - ec else m)
                      allocated 0).
  destruct (maxData_bound ec allocated 0) as [HM0 HMall]. cbv zeta in HM0, HMall.
  fold M in HM0, HMall.
  assert (HMshape : Forall (fun n => n - ec <= M) shape).
  { rewrite <- Hshape0. by apply Forall_shape. }
  set (T2 := cellsOf (dataCell ec) shape (counters M (len shape))).
  set (T3 := cellsOf (ecCell ec) shape (counters ec (len shape))).
  assert (Hvalid2 : Forall (fun ij => 0 <= ij.2 < len shape
                              /\ forall n p, shape !! Z.to_nat ij.2 = Some n ->
                                   dataCell ec ij.1 n = Some p -> 0 <= p < n)
                           (counters M (len shape))).
  { apply Forall_forall. intros [i j] Hij. apply elem_of_counters in Hij.
    cbn [fst snd]. split; [lia|]. intros n p _. unfold dataCell.
    destruct (Z.ltb_spec i (n - ec)); [|done]. intros [= <-]. lia. }
  assert (Hvalid3 : Forall (fun ij => 0 <= ij.2 < len shape
                              /\ forall n p, shape !! Z.to_nat ij.2 = Some n ->
                                   ecCell ec ij.1 n = Some p -> 0 <= p < n)
                           (counters ec (len shape))).
  { apply Forall_forall. intros [i j] Hij. apply elem_of_counters in Hij.
    cbn [fst snd]. split; [lia|]. intros n p Hn. unfold ecCell. intros [= <-].
    apply list_elem_of_lookup_2 in Hn. apply (proj1 (Forall_forall _ _) Hge) in Hn. lia. }
  assert (Hnd2 : NoDup T2).
  { apply NoDup_cellsOf; [apply NoDup_counters|].
    intros i j i' j' n n' p p' Hij Hij' _ Hp _ Hp' Heq.
    apply elem_of_counters in Hij, Hij'. unfold dataCell in Hp, Hp'.
    destruct (i <? n - ec); [|done]. destruct (i' <? n' - ec); [|done].
    injection Hp as <-. injection Hp' as <-. injection Heq as Hj Hi.
    f_equal; lia. }
  assert (Hnd3 : NoDup T3).
  { apply NoDup_cellsOf; [apply NoDup_counters|].
    intros i j i' j' n n' p p' Hij Hij' Hn Hp Hn' Hp' Heq.
    apply elem_of_counters in Hij, Hij'. unfold ecCell in Hp, Hp'.
    injection Hp as <-. injection Hp' as <-. injection Heq as Hj Hi.
    assert (j = j') by lia. subst j'. rewrite Hn in Hn'. injection Hn' as <-.
    apply list_elem_of_lookup_2 in Hn. apply (proj1 (Forall_forall _ _) Hge) in Hn.
    f_equal. lia. }
  assert (Hdisj : forall c, c ∈ T2 -> c ∉ T3).
  { intros c H2 H3.
    apply elem_of_cellsOf in H2 as (i & j & n & p & Hij & Hn & Hp & ->).
    apply elem_of_cellsOf in H3 as (i' & j' & n' & p' & Hij' & Hn' & Hp' & Heq).
    apply elem_of_counters in Hij, Hij'. unfold dataCell in Hp. unfold ecCell in Hp'.
    destruct (Z.ltb_spec i (n - ec)); [|done].
    injection Hp as <-. injection Hp' as <-. injection Heq as Hj Hi.
    assert (j = j') by lia. subst j'. rewrite Hn in Hn'. injection Hn' as <-.
    apply list_elem_of_lookup_2 in Hn. apply (proj1 (Forall_forall _ _) Hge) in Hn. lia. }
  (* reading the cells back re-interleaves the parts *)
  assert (Hread2 : forall blocks : list (list Z), map len blocks = shape ->
            omap (getCell blocks) T2
            = decoder.reinterleaveBlocks (map (dataPart ec) blocks)).
  { intros blocks Hb. subst T2. rewrite <- (Hnb blocks Hb), <- Hb.
    apply omap_getCell_reinterleave; [done| |].
    - intros b i _ Hi. apply dataPart_lookup. lia.
    - apply Forall_forall. intros b Hin.
      assert (len b - ec <= M).
      { rewrite <- Hb in HMshape. apply Forall_shape in HMshape.
        by apply (proj1 (Forall_forall _ _) HMshape). }
      unfold dataPart, len in *. rewrite length_take. lia. }
  assert (Hread3 : forall blocks : list (list Z), map len blocks = shape ->
            omap (getCell blocks) T3
            = decoder.reinterleaveBlocks (map (ecPart ec) blocks)).
  { intros blocks Hb. subst T3. rewrite <- (Hnb blocks Hb), <- Hb.
    assert (Hgeb : Forall (fun b => ec <= len b) blocks).
    { rewrite <- Hb in Hge. by apply Forall_shape in Hge. }
    apply omap_getCell_reinterleave; [done| |].
    - intros b i Hin Hi. apply ecPart_lookup; [lia|].
      by apply (proj1 (Forall_forall _ _) Hgeb).
    - apply Forall_forall. intros b Hin.
      apply (proj1 (Forall_forall _ _) Hgeb) in Hin.
      unfold ecPart, len in *. rewrite length_drop. lia. }
  (* the number of cells *)
  assert (Hcount : len T2 + len T3 = totalCodewords ecb).
  { assert (H2 : length T2 = length (omap (getCell allocated) T2)).
    { subst T2. rewrite <- Hshape0 in Hvalid2 |- *. symmetry.
      apply omap_getCell_length.
      eapply Forall_impl; [exact Hvalid2|]. by intros ij [_ H]. }
    assert (H3 : length T3 = length (omap (getCell allocated) T3)).
    { subst T3. rewrite <- Hshape0 in Hvalid3 |- *. symmetry.
      apply omap_getCell_length.
      eapply Forall_impl; [exact Hvalid3|]. by intros ij [_ H]. }
    unfold len. rewrite H2, H3, (Hread2 allocated Hshape0), (Hread3 allocated Hshape0).
    rewrite !(Permutation_length (reinterleaveBlocks_Permutation_concat _)).
    rewrite <- Nat2Z.inj_add, parts_length, concat_length_shape, Hshape0. done. }
  (* the run *)
  unfold decoder.deinterleaveBlocks. cbv zeta. fold ec.
  rewrite (numBlocks_eq _ (fun g => replicate (Z.to_nat (decoder.dataCodewords g + ec)) 0) 0).
  2:{ eapply Forall_impl; [exact Hgroups|]. by intros g [Hc _]. }
  fold allocated. rewrite Z.add_0_l.
  assert (Hmake : make ([] : list Z) (len allocated)
                  = Ok (replicate (length allocated) [])).
  { unfold make, len. destruct (Z.ltb_spec (Z.of_nat (length allocated)) 0); [lia|].
    by rewrite Nat2Z.id. }
  rewrite Hmake. cbn [mbind result_bind].
  pose proof (alloc_groups ec (decoder.ecBlocks ecb) [] (length allocated)) as Halloc.
  cbv zeta in Halloc. fold allocated in Halloc.
  rewrite Nat.sub_diag in Halloc. cbn [app replicate] in Halloc.
  rewrite app_nil_r in Halloc. change (len (@nil (list Z))) with 0 in Halloc.
  rewrite Z.add_0_l in Halloc. rewrite Halloc; [| |done].
  2:{ eapply Forall_impl; [exact Hgroups|]. intros g [Hc Hd]. split; [done|lia]. }
  clear Halloc. cbn [mbind result_bind fst].
  fold M. rewrite data_loop_counters, (Hnb allocated Hshape0).
  destruct (writeCell_fold raw (dataCell ec) shape (counters M (len shape)) allocated 0)
    as (blocks2 & Hrun2 & Hshape2 & Hgather2 & _); [done|lia|done|done| |].
  { fold T2. unfold len in *. lia. }
  fold T2 in Hrun2, Hgather2. rewrite Hrun2. cbn [mbind result_bind].
  rewrite ec_loop_counters. cbn [fst]. rewrite (Hnb blocks2 Hshape2).
  destruct (writeCell_fold raw (ecCell ec) shape (counters ec (len shape)) blocks2
              (0 + len T2))
    as (blocks3 & Hrun3 & Hshape3 & Hgather3 & Hother3); [done| |done|done| |].
  { unfold len. lia. }
  { fold T3. unfold len in *. lia. }
  fold T3 in Hrun3, Hgather3, Hother3. rewrite Hrun3. cbn [mbind result_bind fst].
  exists blocks3. split; [done|]. split; [done|].
  rewrite <- (Hread2 blocks3 Hshape3), <- (Hread3 blocks3 Hshape3), Hgather3.
  rewrite (omap_ext_elem (getCell blocks3) (getCell blocks2) T2).
  2:{ intros c Hc. apply Hother3. by apply Hdisj. }
  rewrite Hgather2. cbn [Z.to_nat drop].
  replace (Z.to_nat (0 + len T2)) with (length T2) by (unfold len; lia).
  rewrite take_take_drop. f_equal. unfold len in Hcount. lia.
Qed.

(** X25. For a block schedule with counts that are not negative and raw
    codewords enough for all its blocks, deinterleaveBlocks returns blocks
    of the lengths that the schedule asks for, and it inverts the
    interleaving: the data parts of the blocks, re-interleaved, followed by
    their EC parts, re-interleaved, are the raw codewords that were read. *)
Theorem deinterleaveBlocks_reinterleave (raw : list Z) (ecb : decoder.ECBlocks) :
  0 <= decoder.ecCodewordsPerBlock ecb ->
  Forall (fun g => 0 <= decoder.count g /\ 0 <= decoder.dataCodewords g)
         (decoder.ecBlocks ecb) ->
  totalCodewords ecb <= len raw ->
  exists blocks : list (list Z),
    decoder.deinterleaveBlocks raw ecb = Ok blocks
    /\ map len blocks = blockSizes ecb
    /\ decoder.reinterleaveBlocks (map (dataPart (decoder.ecCodewordsPerBlock ecb)) blocks)
       ++ decoder.reinterleaveBlocks (map (ecPart (decoder.ecCodewordsPerBlock ecb)) blocks)
       = take (Z.to_nat (totalCodewords ecb)) raw.
Proof. apply deinterleaveBlocks_inverse. Qed.

End Deinterleave.

Lemma deinterleaveBlocks_reinterleave_witness :
  exists blocks : list (list Z),
    decoder.deinterleaveBlocks [11; 21; 12; 22; 13; 23; 14; 24] twoByTwo = Ok blocks
    /\ map len blocks = blockSizes twoByTwo
    /\ decoder.reinterleaveBlocks (map (dataPart (decoder.ecCodewordsPerBlock twoByTwo)) blocks)
       ++ decoder.reinterleaveBlocks (map (ecPart (decoder.ecCodewordsPerBlock twoByTwo)) blocks)
       = take (Z.to_nat (totalCodewords twoByTwo)) [11; 21; 12; 22; 13; 23; 14; 24].
Proof.
  apply (deinterleaveBlocks_reinterleave [11; 21; 12; 22; 13; 23; 14; 24] twoByTwo).
  - cbn. lia.
  - repeat constructor; cbn; lia.
  - vm_compute. discriminate.
Defined.


(** ** qrcode/decoder: undamaged codewords *)

Section Undamaged.
Context {E : Type} {F : gfpn.Field E}.
Variable alphaPowers : list E.
Variable stages : Stages E.

(** A block whose syndromes are all zero is returned as it is, cut to its
    data codewords. *)
Lemma correctBlock_clean (block : list Z) (ec idx : Z) (received syndromes : list E) :
  mapM (decoder.byteToElement alphaPowers) block = Ok received ->
  decoder.computeSyndromes received ec = Ok syndromes ->
  decoder.anyNonZero syndromes = false ->
  0 <= ec <= len block ->
  decoder.correctBlock alphaPowers stages block ec idx
  = Ok (dataPart ec block,
        {| decoder.BlockIndex := idx;
           decoder.NumDataCodewords := len block - ec;
           decoder.NumECCodewords := ec;
           decoder.ErrorsFound := 0;
           decoder.ErrorPositions := [];
           decoder.CorrectionSucceeded := true |},
        None).
Proof.
  intros Hrecv Hsyn Hzero Hec. unfold decoder.correctBlock.
  rewrite Hrecv. cbn [mbind result_bind]. rewrite Hsyn. cbn [mbind result_bind].
  rewrite Hzero. cbn [negb]. unfold sliceTo.
  destruct (Z.ltb_spec (len block - ec) 0); [lia|].
  destruct (Z.gtb_spec (len block - ec) (Z.of_nat (length block)));
    [unfold len in *; lia|].
  done.
Qed.

Lemma correctBlocks_clean (ec : Z) (blocks : list (list Z)) :
  forall (i : Z) (cbs : list (list Z)) (brs : list decoder.BlockResult),
  Forall (fun block =>
            0 <= ec <= len block
            /\ exists received syndromes,
                 mapM (decoder.byteToElement alphaPowers) block = Ok received
                 /\ decoder.computeSyndromes received ec = Ok syndromes
                 /\ decoder.anyNonZero syndromes = false) blocks ->
  exists newr : list decoder.BlockResult,
    decoder.correctBlocks alphaPowers stages ec blocks i cbs brs
    = Ok (cbs ++ map (dataPart ec) blocks, brs ++ newr, None)
    /\ Forall (fun r => decoder.ErrorsFound r = 0
                        /\ decoder.CorrectionSucceeded r = true
                        /\ decoder.ErrorPositions r = []) newr.
Proof.
  induction blocks as [|block rest IH]; intros i cbs brs Hall.
  - exists []. cbn. by rewrite !app_nil_r.
  - apply Forall_cons in Hall as [(Hec & received & syndromes & Hr & Hs & Hz) Hall].
    cbn [decoder.correctBlocks].
    rewrite (correctBlock_clean block ec i received syndromes) by done.
    cbn [mbind result_bind].
    destruct (IH (i + 1) (cbs ++ [dataPart ec block])
                (brs ++ [{| decoder.BlockIndex := i;
                            decoder.NumDataCodewords := len block - ec;
                            decoder.NumECCodewords := ec;
                            decoder.ErrorsFound := 0;
                            decoder.ErrorPositions := [];
                            decoder.CorrectionSucceeded := true |}]) Hall)
      as (newr & Hrun & Hnewr).
    eexists (_ :: newr). rewrite Hrun, <- !app_assoc. split; [done|].
    by constructor.
Qed.

Lemma dataParts_length (ec : Z) (blocks : list (list Z)) :
  Forall (fun block => 0 <= ec <= len block) blocks ->
  Z.of_nat (length (concat (map (dataPart ec) blocks)))
  = foldr Z.add 0 (map (fun n => n - ec) (map len blocks)).
Proof.
  induction 1 as [|b bs Hb _ IH]; [done|].
  cbn [map concat foldr]. rewrite length_app, Nat2Z.inj_add, IH. f_equal.
  unfold dataPart, len in *. rewrite length_take. lia.
Qed.

Lemma CorrectCodewords_clean (qrData : decoder.QRCodeData) :
  0 <= decoder.ecCodewordsPerBlock (decoder.ECBlocksForLevel qrData) ->
  Forall (fun g => 0 <= decoder.count g /\ 0 <= decoder.dataCodewords g)
         (decoder.ecBlocks (decoder.ECBlocksForLevel qrData)) ->
  totalCodewords (decoder.ECBlocksForLevel qrData) <= len (decoder.RawCodewords qrData) ->
  (forall blocks : list (list Z),
     decoder.deinterleaveBlocks (decoder.RawCodewords qrData)
       (decoder.ECBlocksForLevel qrData) = Ok blocks ->
     Forall (fun block =>
               exists received syndromes,
                 mapM (decoder.byteToElement alphaPowers) block = Ok received
                 /\ decoder.computeSyndromes received
                      (decoder.ecCodewordsPerBlock (decoder.ECBlocksForLevel qrData))
                    = Ok syndromes
                 /\ decoder.anyNonZero syndromes = false) blocks) ->
  exists results : list decoder.BlockResult,
    decoder.CorrectCodewords alphaPowers stages qrData
    = Ok (take (Z.to_nat (totalDataCodewords (decoder.ECBlocksForLevel qrData)))
               (decoder.RawCodewords qrData),
          results, None)
    /\ Forall (fun r => decoder.ErrorsFound r = 0
                        /\ decoder.CorrectionSucceeded r = true
                        /\ decoder.ErrorPositions r = []) results.
Proof.
  intros Hec Hgroups Htotal Hclean.
  set (ecb := decoder.ECBlocksForLevel qrData) in *.
  set (raw := decoder.RawCodewords qrData) in *.
  set (ec := decoder.ecCodewordsPerBlock ecb) in *.
  destruct (deinterleaveBlocks_inverse raw ecb Hec Hgroups Htotal)
    as (blocks & Hblocks & Hshape & Hparts).
  fold ec in Hparts.
  specialize (Hclean blocks Hblocks).
  assert (Hsizes : Forall (fun block => 0 <= ec <= len block) blocks).
  { apply Forall_shape with (P := fun n => 0 <= ec <= n). rewrite Hshape.
    eapply Forall_impl; [apply blockSizes_bounds|].
    - eapply Forall_impl; [exact Hgroups|]. by intros g [_ Hd].
    - intros n Hn. fold ecb ec in Hn. cbv beta in Hn. lia. }
  destruct (correctBlocks_clean ec blocks 0 [] []) as (results & Hrun & Hresults).
  { apply Forall_forall. intros b Hb. split.
    - by apply (proj1 (Forall_forall _ _) Hsizes).
    - by apply (proj1 (Forall_forall _ _) Hclean). }
  exists results. split; [|done].
  unfold decoder.CorrectCodewords. fold ecb raw ec. rewrite Hblocks.
  cbn [mbind result_bind]. rewrite Hrun. cbn [mbind result_bind app].
  do 3 f_equal.
  set (A := decoder.reinterleaveBlocks (map (dataPart ec) blocks)) in *.
  assert (HlenA : Z.of_nat (length A) = totalDataCodewords ecb).
  { subst A. rewrite (Permutation_length (reinterleaveBlocks_Permutation_concat _)).
    rewrite dataParts_length by done. by rewrite Hshape. }
  assert (Hle : (length A <= Z.to_nat (totalCodewords ecb))%nat).
  { apply (f_equal length) in Hparts. rewrite length_app, length_take in Hparts. lia. }
  rewrite <- (take_app_length A (decoder.reinterleaveBlocks (map (ecPart ec) blocks))).
  rewrite Hparts, take_take. f_equal. lia.
Qed.


(** X29. Undamaged codewords end to end: for a block schedule with counts
    that are not negative and raw codewords enough for all its blocks,
    when every de-interleaved block has all syndromes zero, Decode hands
    the first totalDataCodewords raw codewords to the data decoder; it
    returns the decoded message in a result that reports success, no
    corrected error and no error position, or, when the data cannot be
    decoded, the data decoder's error wrapped as "data decoding failed"
    and no result. *)
Theorem Decode_undamaged (qrData : decoder.QRCodeData) :
  0 <= decoder.ecCodewordsPerBlock (decoder.ECBlocksForLevel qrData) ->
  Forall (fun g => 0 <= decoder.count g /\ 0 <= decoder.dataCodewords g)
         (decoder.ecBlocks (decoder.ECBlocksForLevel qrData)) ->
  totalCodewords (decoder.ECBlocksForLevel qrData) <= len (decoder.RawCodewords qrData) ->
  (forall blocks : list (list Z),
     decoder.deinterleaveBlocks (decoder.RawCodewords qrData)
       (decoder.ECBlocksForLevel qrData) = Ok blocks ->
     Forall (fun block =>
               exists received syndromes,
                 mapM (decoder.byteToElement alphaPowers) block = Ok received
                 /\ decoder.computeSyndromes received
                      (decoder.ecCodewordsPerBlock (decoder.ECBlocksForLevel qrData))
                    = Ok syndromes
                 /\ decoder.anyNonZero syndromes = false) blocks) ->
  exists results : list decoder.BlockResult,
    decoder.Decode alphaPowers stages qrData
    = match DataDecoder.Decode
              (take (Z.to_nat (totalDataCodewords (decoder.ECBlocksForLevel qrData)))
                    (decoder.RawCodewords qrData)) with
      | (message, None) =>
        Ok (Some {| decoder.Message := message;
                    decoder.CorrectionSuccessful := true;
                    decoder.NumErrorsCorrected := 0;
                    decoder.AllErrorPositions := [];
                    decoder.BlockResults := results |},
            None)
      | (_, Some err) => Ok (None, Some (ErrorfWrap "data decoding failed: %w" err))
      end.
Proof.
  intros Hec Hgroups Htotal Hclean.
  destruct (CorrectCodewords_clean qrData Hec Hgroups Htotal Hclean)
    as (results & Hrun & Hresults).
  exists results. unfold decoder.Decode. rewrite Hrun. cbn [mbind result_bind].
  assert (Hsucc : forallb decoder.CorrectionSucceeded results = true).
  { apply forallb_forall. intros r Hr. apply list_elem_of_In in Hr.
    by apply (proj1 (Forall_forall _ _) Hresults) in Hr as (_ & Hs & _). }
  assert (Hsum : forall t : Z,
            fold_left (fun t b => t + decoder.ErrorsFound b) results t = t).
  { clear Hrun Hsucc. induction Hresults as [|r rs (Hr & _) _ IH]; intros t; [done|].
    cbn [fold_left]. rewrite Hr, Z.add_0_r. apply IH. }
  assert (Hpos : flat_map decoder.ErrorPositions results = []).
  { apply flat_map_nil_elem. intros r Hr.
    by apply (proj1 (Forall_forall _ _) Hresults) in Hr as (_ & _ & Hp). }
  rewrite Hsucc, Hsum, Hpos. cbn [negb].
  by destruct (DataDecoder.Decode _) as [message [err|]].
Qed.

End Undamaged.


Lemma Decode_undamaged_witness :
  exists results : list decoder.BlockResult,
    decoder.Decode (F := GF256.Field) GF256.alphaPowers (shippedStages Byte.byte) zeroBlocks
    = match DataDecoder.Decode
              (take (Z.to_nat (totalDataCodewords (decoder.ECBlocksForLevel zeroBlocks)))
                    (decoder.RawCodewords zeroBlocks)) with
      | (message, None) =>
        Ok (Some {| decoder.Message := message;
                    decoder.CorrectionSuccessful := true;
                    decoder.NumErrorsCorrected := 0;
                    decoder.AllErrorPositions := [];
                    decoder.BlockResults := results |},
            None)
      | (_, Some err) => Ok (None, Some (ErrorfWrap "data decoding failed: %w" err))
      end.
Proof.
  apply (Decode_undamaged (F := GF256.Field) GF256.alphaPowers
           (shippedStages Byte.byte) zeroBlocks).
  - cbn. lia.
  - repeat constructor; cbn; lia.
  - vm_compute. discriminate.
  - intros blocks Hblocks. vm_compute in Hblocks. injection Hblocks as <-.
    assert (Hclean : exists received syndromes,
              mapM (decoder.byteToElement (F := GF256.Field) GF256.alphaPowers) [0; 0; 0]
              = Ok received
              /\ decoder.computeSyndromes (F := GF256.Field) received
                   (decoder.ecCodewordsPerBlock (decoder.ECBlocksForLevel zeroBlocks))
                 = Ok syndromes
              /\ decoder.anyNonZero (F := GF256.Field) syndromes = false).
    { exists [Byte.x00; Byte.x00; Byte.x00], [Byte.x00; Byte.x00].
      split; [|split]; vm_compute; reflexivity. }
    constructor; [exact Hclean|]. constructor; [exact Hclean|]. constructor.
Defined.


(** ** qrcode/types: readCodewords and splitCodewords *)

Section ReadCodewords.
Variable get : Z -> Z -> bool.
Variables dimension versionNumber totalCodewords : Z.

Local Abbreviation readModule := (types.readModule get dimension versionNumber totalCodewords).
Local Abbreviation isData :=
  (fun rc : Z * Z => negb (QRExtractor.isFunctionModule dimension rc.1 rc.2 versionNumber)).

Lemma foldF_app {A R S} (f : S -> A -> result (flow R S)) (l1 l2 : list A) (s : S) :
  foldF f (l1 ++ l2) s
  = (r ← foldF f l1 s;
     match r with
     | Return v => Ok (Return v)
     | Next s' => foldF f l2 s'
     end).
Proof.
  revert s. induction l1 as [|x l1 IH]; intros s; [done|].
  cbn [app foldF]. destruct (f s x) as [[v|s1]|]; [done| |done].
  cbn [mbind result_bind]. apply IH.
Qed.

Lemma foldF_map {A B R S} (f : S -> B -> result (flow R S)) (g : A -> B) (l : list A)
    (s : S) :
  foldF f (map g l) s = foldF (fun s x => f s (g x)) l s.
Proof.
  revert s. induction l as [|x l IH]; intros s; [done|].
  cbn [map foldF]. destruct (f s (g x)) as [[v|s1]|]; [done| |done].
  cbn [mbind result_bind]. apply IH.
Qed.

Lemma foldF_flat_map {A B R S} (f : S -> B -> result (flow R S)) (h : A -> list B)
    (l : list A) (s : S) :
  foldF f (flat_map h l) s = foldF (fun s x => foldF f (h x) s) l s.
Proof.
  revert s. induction l as [|x l IH]; intros s; [done|].
  cbn [flat_map foldF]. rewrite foldF_app.
  destruct (foldF f (h x) s) as [[v|s1]|]; [done| |done].
  cbn [mbind result_bind]. apply IH.
Qed.

(** The rounds that [readCodewords] allows are never used up: more fuel
    changes nothing once the fuel bounds the column. *)
Lemma readColumns_fuel (extra fuel : nat) : forall (col : Z) (readingUp : bool)
    (st : types.readState),
  col <= Z.of_nat fuel ->
  types.readColumns get dimension versionNumber totalCodewords (fuel + extra) col readingUp st
  = types.readColumns get dimension versionNumber totalCodewords fuel col readingUp st.
Proof.
  induction fuel as [|fuel IH]; intros col readingUp st Hcol.
  - destruct extra as [|extra]; [done|]. cbn [Nat.add types.readColumns].
    by destruct (Z.gtb_spec col 0); [lia|].
  - cbn [Nat.add types.readColumns]. destruct (Z.gtb_spec col 0); [|done]. cbv zeta.
    destruct (types.readColumnPair _ _ _ _ _ _ _) as [[v|st']|]; [done| |done].
    cbn [mbind result_bind]. apply IH. destruct (col =? 6); lia.
Qed.

(** The loops of [readCodewords] visit the modules of [zigzag], in order. *)
Lemma readColumns_zigzag (fuel : nat) : forall (col : Z) (readingUp : bool)
    (st : types.readState),
  types.readColumns get dimension versionNumber totalCodewords fuel col readingUp st
  = foldF (fun st rc => readModule st rc.1 rc.2)
          (types.zigzag dimension fuel col readingUp) st.
Proof.
  induction fuel as [|fuel IH]; intros col readingUp st; [done|].
  cbn [types.readColumns types.zigzag]. destruct (col >? 0); [|done].
  cbv zeta. rewrite foldF_app, foldF_flat_map.
  unfold types.readColumnPair.
  match goal with
  | |- (?a ≫= _) = (?b ≫= _) => assert (Heq : a = b)
  end.
  { f_equal. }
  rewrite Heq. clear Heq.
  match goal with |- (?a ≫= _) = _ => destruct a as [[v|s1]|] end; [done| |done].
  cbn [mbind result_bind]. apply IH.
Qed.

Lemma bitsValue_snoc (partial : list bool) (b : bool) :
  (if b then Z.lor (Z.shiftl (DataDecoder.bitsValue partial) 1) 1
   else Z.shiftl (DataDecoder.bitsValue partial) 1)
  = DataDecoder.bitsValue (partial ++ [b]).
Proof.
  unfold DataDecoder.bitsValue. rewrite fold_left_app. cbn [fold_left].
  unfold DataDecoder.bit_step. destruct b; cbn [Z.b2z]; [done|].
  by rewrite Z.lor_0_r.
Qed.

Lemma bitsValue_byte (bits : list bool) :
  length bits = 8%nat -> DataDecoder.bitsValue bits mod 256 = DataDecoder.bitsValue bits.
Proof.
  intros Hlen. apply Z.mod_small.
  pose proof (fold_bit_step_bound bits 0 ltac:(lia)) as Hb. rewrite Hlen in Hb.
  unfold DataDecoder.bitsValue. change (2 ^ Z.of_nat 8) with 256 in Hb. lia.
Qed.

Lemma readModule_function (st : types.readState) (row col : Z) :
  QRExtractor.isFunctionModule dimension row col versionNumber = true ->
  readModule st row col = Ok (Next st).
Proof. intros Hf. unfold types.readModule. by rewrite Hf. Qed.

(** One data module more: the bit joins [partial], and the eighth bit
    completes a codeword, the last codeword ending the function. *)
Lemma readModule_data (chunks : list (list bool)) (partial : list bool) (row col : Z) :
  QRExtractor.isFunctionModule dimension row col versionNumber = false ->
  (length partial < 8)%nat -> len chunks < totalCodewords ->
  readModule (readStateOf totalCodewords chunks partial) row col
  = if len partial + 1 =? 8 then
      if len chunks + 1 >=? totalCodewords
      then Ok (Return (map DataDecoder.bitsValue (chunks ++ [partial ++ [get col row]])))
      else Ok (Next (readStateOf totalCodewords (chunks ++ [partial ++ [get col row]]) []))
    else Ok (Next (readStateOf totalCodewords chunks (partial ++ [get col row]))).
Proof.
  intros Hf Hpartial Hroom. unfold types.readModule. rewrite Hf. cbn [negb]. cbv zeta.
  unfold readStateOf.
  cbn [types.bitsRead types.currentByte types.codewords types.codewordIndex].
  set (b := get col row). rewrite (bitsValue_snoc partial b).
  assert (Hlenp : len (partial ++ [b]) = len partial + 1)
    by (unfold len; rewrite length_app; cbn [length]; lia).
  destruct (Z.eqb_spec (len partial + 1) 8) as [H8|H8].
  - assert (Hp8 : length (partial ++ [b]) = 8%nat) by (unfold len in *; lia).
    rewrite bitsValue_byte by done.
    rewrite setIndex_ok.
    2:{ unfold len in *. rewrite length_app, length_map, length_replicate. lia. }
    cbn [mbind result_bind].
    assert (Hwritten :
              <[Z.to_nat (len chunks) := DataDecoder.bitsValue (partial ++ [b])]>
                (map DataDecoder.bitsValue chunks
                 ++ replicate (Z.to_nat totalCodewords - length chunks) 0)
              = map DataDecoder.bitsValue (chunks ++ [partial ++ [b]])
                ++ replicate (Z.to_nat totalCodewords - length (chunks ++ [partial ++ [b]]))
                             0).
    { unfold len. rewrite Nat2Z.id.
      rewrite insert_app_r_alt by (by rewrite length_map).
      rewrite length_map, Nat.sub_diag.
      destruct (Z.to_nat totalCodewords - length chunks)%nat as [|k] eqn:Hk;
        [unfold len in *; lia|].
      cbn [replicate insert list_insert]. rewrite map_app, <- app_assoc. cbn [map app].
      do 3 f_equal. rewrite length_app. cbn [length]. lia. }
    rewrite Hwritten.
    destruct (Z.geb_spec (len chunks + 1) totalCodewords) as [Hlast|Hmore].
    + do 2 f_equal.
      replace (Z.to_nat totalCodewords - length (chunks ++ [partial ++ [b]]))%nat
        with 0%nat by (rewrite length_app; cbn [length]; unfold len in *; lia).
      cbn [replicate]. by rewrite app_nil_r.
    + do 3 f_equal.
      unfold len. rewrite length_app. cbn [length]. lia.
  - by rewrite Hlenp.
Qed.

(** Reading the modules [cs] from the state after [chunks] and [partial]:
    the loop returns as soon as the last codeword is complete, with the
    codewords that the bits read so far and the data bits of [cs] make up;
    when the bits do not suffice it ends in the state after all of them. *)
Lemma read_cells (cs : list (Z * Z)) :
  forall (chunks : list (list bool)) (partial : list bool),
  Forall (fun c => length c = 8%nat) chunks ->
  (length partial < 8)%nat ->
  len chunks < totalCodewords ->
  let bits := map (fun rc => get rc.2 rc.1) (List.filter isData cs) in
  (8 * totalCodewords <= 8 * len chunks + len partial + len bits ->
   foldF (fun st rc => readModule st rc.1 rc.2) cs
         (readStateOf totalCodewords chunks partial)
   = Ok (Return (map DataDecoder.bitsValue
                   (chunks ++ reshape (replicate (Z.to_nat totalCodewords - length chunks)
                                                 8%nat)
                                      (partial ++ bits)))))
  /\ (8 * len chunks + len partial + len bits < 8 * totalCodewords ->
      exists (chunks' : list (list bool)) (partial' : list bool),
        foldF (fun st rc => readModule st rc.1 rc.2) cs
              (readStateOf totalCodewords chunks partial)
        = Ok (Next (readStateOf totalCodewords chunks' partial'))
        /\ 8 * len chunks' + len partial' = 8 * len chunks + len partial + len bits
        /\ (length partial' < 8)%nat
        /\ len chunks' < totalCodewords).
Proof.
  induction cs as [|[row col] cs IH]; intros chunks partial Hchunks Hpartial Hroom bits.
  - subst bits. cbn [List.filter map foldF]. unfold len in *. cbn [length].
    split; [intros; exfalso; lia|]. intros _. exists chunks, partial.
    split; [done|]. split; [lia|]. done.
  - subst bits. cbn [List.filter foldF fst snd].
    destruct (QRExtractor.isFunctionModule dimension row col versionNumber) eqn:Hf;
      cbn [negb].
    { rewrite readModule_function by done. cbn [mbind result_bind]. by apply IH. }
    rewrite readModule_data by done. cbn [map fst snd]. set (b := get col row).
    set (bits := map (fun rc : Z * Z => get rc.2 rc.1) (List.filter isData cs)).
    assert (Hlenb : len (b :: bits) = 1 + len bits) by (unfold len; cbn [length]; lia).
    assert (Hlenp : len (partial ++ [b]) = len partial + 1)
      by (unfold len; rewrite length_app; cbn [length]; lia).
    assert (Hlenc : len (chunks ++ [partial ++ [b]]) = len chunks + 1)
      by (unfold len; rewrite length_app; cbn [length]; lia).
    rewrite Hlenb.
    destruct (Z.eqb_spec (len partial + 1) 8) as [H8|H8].
    + (* the codeword is complete *)
      assert (Hp8 : length (partial ++ [b]) = 8%nat) by (unfold len in *; lia).
      assert (Hreshape :
                chunks ++ reshape (replicate (Z.to_nat totalCodewords - length chunks) 8%nat)
                                  (partial ++ b :: bits)
                = (chunks ++ [partial ++ [b]])
                  ++ reshape (replicate (Z.to_nat totalCodewords
                                         - length (chunks ++ [partial ++ [b]])) 8%nat)
                             ([] ++ bits)).
      { destruct (Z.to_nat totalCodewords - length chunks)%nat as [|k] eqn:Hk;
          [unfold len in *; lia|].
        cbn [replicate reshape]. rewrite <- app_assoc. cbn [app]. f_equal.
        replace (partial ++ b :: bits) with ((partial ++ [b]) ++ bits)
          by (by rewrite <- app_assoc).
        rewrite take_app_length', drop_app_length' by done.
        do 3 f_equal. rewrite length_app. cbn [length]. lia. }
      destruct (Z.geb_spec (len chunks + 1) totalCodewords) as [Hlast|Hmore];
        cbn [mbind result_bind].
      * split; [|intros; exfalso; unfold len in *; lia]. intros _. do 2 f_equal.
        rewrite Hreshape.
        replace (Z.to_nat totalCodewords - length (chunks ++ [partial ++ [b]]))%nat
          with 0%nat by (rewrite length_app; cbn [length]; unfold len in *; lia).
        cbn [replicate reshape]. by rewrite !app_nil_r.
      * destruct (IH (chunks ++ [partial ++ [b]]) []) as [IHret IHnext].
        { apply Forall_app. split; [done|]. by constructor. }
        { cbn. lia. }
        { lia. }
        fold bits in IHret, IHnext. rewrite Hlenc in IHret, IHnext.
        change (len []) with 0 in IHret, IHnext.
        split.
        -- intros Hall. rewrite IHret by lia. by rewrite Hreshape.
        -- intros Hfew. destruct IHnext as (chunks' & partial' & Hrun & Hsum & Hp' & Hc');
             [lia|].
           exists chunks', partial'. split; [done|]. split; [lia|]. done.
    + (* the codeword is not complete *)
      cbn [mbind result_bind].
      destruct (IH chunks (partial ++ [b])) as [IHret IHnext]; [done| |done|].
      { unfold len in *. rewrite length_app. cbn [length]. lia. }
      fold bits in IHret, IHnext. rewrite Hlenp in IHret, IHnext.
      split.
      * intros Hall. rewrite IHret by lia. by rewrite <- app_assoc.
      * intros Hfew. destruct IHnext as (chunks' & partial' & Hrun & Hsum & Hp' & Hc');
          [lia|].
        exists chunks', partial'. split; [done|]. split; [lia|]. done.
Qed.

(** X27. For a symbol with at least one codeword, readCodewords collects
    the bits of the modules that are not function modules, in the zig-zag
    order of its loops, eight to a codeword with the first bit highest:
    when there are bits for totalCodewords codewords it returns these
    codewords and reads no further; when there are fewer it returns no
    codewords and the error that counts the codewords that were
    complete. It does not panic. *)
Theorem readCodewords_dataBits :
  0 < totalCodewords ->
  (8 * totalCodewords <= len (types.dataBits get dimension versionNumber) ->
   types.readCodewords get dimension versionNumber totalCodewords
   = Ok (map DataDecoder.bitsValue
           (reshape (replicate (Z.to_nat totalCodewords) 8%nat)
                    (types.dataBits get dimension versionNumber)),
         None))
  /\ (len (types.dataBits get dimension versionNumber) < 8 * totalCodewords ->
      types.readCodewords get dimension versionNumber totalCodewords
      = Ok ([], Some (ErrorfInts "read %d codewords but expected %d"
                        [len (types.dataBits get dimension versionNumber) / 8;
                         totalCodewords]))).
Proof.
  intros Htotal. unfold types.readCodewords, make.
  destruct (Z.ltb_spec totalCodewords 0); [lia|]. cbn [mbind result_bind].
  rewrite readColumns_zigzag.
  assert (Hinit : {| types.codewords := replicate (Z.to_nat totalCodewords) 0;
                     types.codewordIndex := 0;
                     types.currentByte := 0;
                     types.bitsRead := 0 |}
                  = readStateOf totalCodewords [] []).
  { unfold readStateOf. cbn [map app length]. by rewrite Nat.sub_0_r. }
  rewrite Hinit.
  destruct (read_cells (types.zigzag dimension (Z.to_nat dimension) (dimension - 1) true)
              [] []) as [Hret Hnext]; [constructor|cbn; lia|unfold len; cbn; lia|].
  fold (types.dataBits get dimension versionNumber) in Hret, Hnext.
  change (len (@nil (list bool))) with 0 in Hret, Hnext.
  change (len (@nil bool)) with 0 in Hret, Hnext.
  cbn [length app] in Hret. rewrite Nat.sub_0_r in Hret.
  split.
  - intros Hall. by rewrite Hret by lia.
  - intros Hfew. destruct Hnext as (chunks' & partial' & Hrun & Hsum & Hp' & Hc'); [lia|].
    rewrite Hrun. cbn [mbind result_bind].
    change (types.codewordIndex (readStateOf totalCodewords chunks' partial'))
      with (len chunks').
    destruct (Z.eqb_spec (len chunks') totalCodewords); [lia|]. cbn [negb].
    replace (len (types.dataBits get dimension versionNumber) / 8) with (len chunks')
      by (unfold len in *; lia).
    done.
Qed.

End ReadCodewords.

Lemma readCodewords_dataBits_witness :
  types.readCodewords (fun x y => Z.odd (x + y)) 21 1 26
  = Ok (map DataDecoder.bitsValue
          (reshape (replicate (Z.to_nat 26) 8%nat)
                   (types.dataBits (fun x y => Z.odd (x + y)) 21 1)),
        None).
Proof.
  apply (proj1 (readCodewords_dataBits (fun x y => Z.odd (x + y)) 21 1 26 ltac:(lia))).
  vm_compute. discriminate.
Defined.

(** X28. splitCodewords cuts the raw codewords in two: for a slice of
    totalCodewords raw codewords and 0 <= totalECCodewords <=
    totalCodewords it returns the first totalCodewords - totalECCodewords
    of them as data and the remaining totalECCodewords as EC codewords, so
    that data followed by EC codewords is the input again. *)
Theorem splitCodewords_append (rawCodewords : list Z)
    (totalCodewords totalECCodewords : Z) :
  len rawCodewords = totalCodewords ->
  0 <= totalECCodewords <= totalCodewords ->
  exists (dataCodewords ecCodewords : list Z),
    types.splitCodewords rawCodewords totalCodewords totalECCodewords
    = Ok (dataCodewords, ecCodewords)
    /\ dataCodewords ++ ecCodewords = rawCodewords
    /\ len dataCodewords = totalCodewords - totalECCodewords
    /\ len ecCodewords = totalECCodewords.
Proof.
  intros Hlen Hec. set (k := Z.to_nat (totalCodewords - totalECCodewords)).
  exists (take k rawCodewords), (drop k rawCodewords).
  unfold types.splitCodewords, make, sliceTo, len in *.
  destruct (Z.ltb_spec (totalCodewords - totalECCodewords) 0); [lia|].
  destruct (Z.ltb_spec totalECCodewords 0); [lia|].
  destruct (Z.gtb_spec (totalCodewords - totalECCodewords) (Z.of_nat (length rawCodewords)));
    [lia|].
  cbn [orb mbind result_bind]. fold k.
  rewrite !length_replicate, length_take, length_drop.
  replace (k `min` length rawCodewords)%nat with k by lia.
  rewrite take_take, Nat.min_id, drop_replicate, Nat.sub_diag. cbn [replicate].
  rewrite app_nil_r.
  rewrite (take_ge (drop k rawCodewords)) by (rewrite length_drop; lia).
  rewrite drop_replicate.
  replace (Z.to_nat totalECCodewords - (length rawCodewords - k))%nat with 0%nat by lia.
  cbn [replicate]. rewrite app_nil_r.
  split; [done|]. split; [apply take_drop|]. lia.
Qed.

Lemma splitCodewords_append_witness :
  exists (dataCodewords ecCodewords : list Z),
    types.splitCodewords [1; 2; 3; 4; 5] 5 2 = Ok (dataCodewords, ecCodewords)
    /\ dataCodewords ++ ecCodewords = [1; 2; 3; 4; 5]
    /\ len dataCodewords = 5 - 2
    /\ len ecCodewords = 2.
Proof.
  apply (splitCodewords_append [1; 2; 3; 4; 5] 5 2).
  - reflexivity.
  - lia.
Defined.


(** ** qrcode/decoder: byteToElement is linear *)

Section ByteElementLinear.
Context {E : Type} {F : gfpn.Field E} {L : gfpn.Lawful F}.
Import gfpn.
Variable alphaPowers : list E.

Local Notation "a ⊕ b" := (valueOf Add a b) (at level 50, left associativity).

Hypothesis add_comm : forall a b : E, a ⊕ b = b ⊕ a.
Hypothesis add_self : forall a : E, a ⊕ a = Zero.
Hypothesis alphaPowers_length : 8 <= len alphaPowers.

Lemma land_bit (b i : Z) :
  0 <= i -> negb (Z.land b (Z.shiftl 1 i) =? 0) = Z.testbit b i.
Proof.
  intros Hi. rewrite Z.shiftl_1_l.
  assert (Hland : Z.land b (2 ^ i) = if Z.testbit b i then 2 ^ i else 0).
  { apply Z.bits_inj'. intros n Hn. rewrite Z.land_spec, Z.pow2_bits_eqb by done.
    destruct (Z.eqb_spec i n) as [->|Hne].
    - destruct (Z.testbit b n); [by rewrite Z.pow2_bits_true|by rewrite Z.bits_0].
    - rewrite andb_false_r. destruct (Z.testbit b i); [|by rewrite Z.bits_0].
      by rewrite Z.pow2_bits_false. }
  rewrite Hland. destruct (Z.testbit b i); [|done].
  destruct (Z.eqb_spec (2 ^ i) 0) as [H0|]; [|done].
  pose proof (Z.pow_pos_nonneg 2 i). lia.
Qed.

(** The loop of [byteToElement] over the bit positions [l], from [acc]. *)
Lemma byteToElement_fold (b : Z) (l : list Z) : forall acc : E,
  Forall (fun i => 0 <= i < 8) l ->
  foldM (fun result i =>
           if negb (Z.land b (Z.shiftl 1 i) =? 0) then
             a ← index alphaPowers i;
             Add result a
           else Ok result) l acc
  = Ok (fold_left (fun r i => if Z.testbit b i
                              then r ⊕ nth (Z.to_nat i) alphaPowers Zero else r) l acc).
Proof.
  intros acc Hl. revert acc. induction Hl as [|i l Hi _ IH]; intros acc; [done|].
  cbn [foldM fold_left]. rewrite land_bit by lia.
  destruct (Z.testbit b i).
  - destruct (index_ok alphaPowers i) as (a & Ha & Hlook); [lia|].
    rewrite Ha. cbn [mbind result_bind]. rewrite Add_returns. cbn [mbind result_bind].
    rewrite IH. by rewrite nth_lookup, Hlook.
  - cbn [mbind result_bind]. apply IH.
Qed.

Lemma fold_lxor (a b : Z) (l : list Z) : forall x y : E,
  Forall (fun i => 0 <= i) l ->
  fold_left (fun r i => if Z.testbit (Z.lxor a b) i
                        then r ⊕ nth (Z.to_nat i) alphaPowers Zero else r) l (x ⊕ y)
  = fold_left (fun r i => if Z.testbit a i
                          then r ⊕ nth (Z.to_nat i) alphaPowers Zero else r) l x
    ⊕ fold_left (fun r i => if Z.testbit b i
                            then r ⊕ nth (Z.to_nat i) alphaPowers Zero else r) l y.
Proof.
  intros x y Hl. revert x y. induction Hl as [|i l Hi _ IH]; intros x y; [done|].
  cbn [fold_left]. rewrite Z.lxor_spec.
  set (p := nth (Z.to_nat i) alphaPowers Zero).
  destruct (Z.testbit a i), (Z.testbit b i); cbn [xorb]; rewrite <- IH; f_equal.
  - rewrite <- (add_assoc x p (y ⊕ p)), (add_comm p (y ⊕ p)).
    by rewrite <- (add_assoc y p p), add_self, add_zero_r.
  - by rewrite <- (add_assoc x p y), (add_comm p y), add_assoc.
  - by rewrite add_assoc.
Qed.

(** X30. In a commutative lawful field of characteristic 2, with the eight
    powers of alpha at hand, byteToElement returns for every byte, and the
    element of the exclusive or of two bytes is the sum of their elements:
    flipping bits of a codeword byte adds the element of the flipped bits
    to its symbol. *)
Theorem byteToElement_lxor (a b : Z) :
  exists ea eb : E,
    decoder.byteToElement alphaPowers a = Ok ea
    /\ decoder.byteToElement alphaPowers b = Ok eb
    /\ decoder.byteToElement alphaPowers (Z.lxor a b) = Ok (ea ⊕ eb).
Proof.
  unfold decoder.byteToElement.
  assert (Hrange : Forall (fun i => 0 <= i < 8) (seqZ 0 8)).
  { apply Forall_forall. intros i Hi. apply elem_of_seqZ in Hi. lia. }
  rewrite !byteToElement_fold by done.
  eexists _, _. split; [done|]. split; [done|]. f_equal.
  rewrite <- fold_lxor; [by rewrite add_zero_l|].
  eapply Forall_impl; [exact Hrange|]. cbv beta. lia.
Qed.

End ByteElementLinear.

Lemma byteToElement_lxor_witness :
  exists ea eb : Byte.byte,
    decoder.byteToElement (F := GF256.Field) GF256.alphaPowers 0x53 = Ok ea
    /\ decoder.byteToElement (F := GF256.Field) GF256.alphaPowers 0xCA = Ok eb
    /\ decoder.byteToElement (F := GF256.Field) GF256.alphaPowers (Z.lxor 0x53 0xCA)
       = Ok (gfpn.valueOf (gfpn.Add (Field := GF256.Field)) ea eb).
Proof.
  apply (byteToElement_lxor (F := GF256.Field) (L := GF256_lawful) GF256.alphaPowers).
  - intros a b. cbn. apply gf256_add_comm.
  - intros a. cbn. apply gf256_add_self.
  - vm_compute. discriminate.
Defined.
